(** * Bernoulli bandits: environment, agents and the regret evaluation loop

    A shallow embedding of [bandits.ipynb] (week6_outro): the class
    [BernoulliBandit], the agents [RandomAgent], [EpsilonGreedyAgent],
    [UCBAgent], [ThompsonSamplingAgent] and the function [get_regret].

    Conventions of the embedding.
    - A finite float is an exact rational ([Qc]); rounding, overflow and the
      sign of zero are not modelled.  The values numpy produces outside the
      rationals (nan, inf, -inf) are constructors of [npfloat], and the
      RuntimeWarnings numpy prints for them are collected next to the value.
    - The success and failure arrays hold whole numbers only (they start at
      zero, are incremented by one or overwritten with one): they are lists
      of [nat].
    - Every call into [np.random] is an event of the program tree [prog];
      the tree is run against a deterministic random source ([run]) or
      integrated against the laws of the draws ([expect]).
    - [np.log], [np.sqrt] on positive finite floats and Python's formatting
      of a float are library functions, taken as the class [Numpy].
    - An object is a record of its attributes; a method returns, next to
      its value, the receiver as the call leaves it.  The agents of a list
      are distinct objects. *)

From Stdlib Require Import QArith Qcanon.
From stdpp Require Import base numbers list strings pretty gmap.

Local Open Scope Qc_scope.

(** ** Floats as numpy sees them *)

Inductive npfloat : Type :=
| Fin (q : Qc)
| PInf
| NInf
| NaN.

Inductive ufunc : Type := u_true_divide | u_log | u_sqrt | u_add | u_multiply.

(** The two RuntimeWarnings of the notebook's output:
    "divide by zero encountered in <ufunc>" and
    "invalid value encountered in <ufunc>". *)
Inductive RuntimeWarning : Type :=
| DivideByZero (f : ufunc)
| InvalidValue (f : ufunc).

(** A value together with the warnings its evaluation printed. *)
Definition W (A : Type) : Type := (A * list RuntimeWarning)%type.

Definition w_ret {A} (a : A) : W A := (a, []).

Definition w_bind {A B} (m : W A) (f : A → W B) : W B :=
  let '(b, w) := f m.1 in (b, m.2 ++ w).

Fixpoint w_map {A B} (f : A → W B) (l : list A) : W (list B) :=
  match l with
  | [] => w_ret []
  | x :: l' => w_bind (f x) (λ y, w_bind (w_map f l') (λ ys, w_ret (y :: ys)))
  end.

Class Numpy : Type := {
  (** [np.log] on a positive finite float *)
  np_ln : Qc → Qc;
  (** [np.sqrt] on a non-negative finite float *)
  np_root : Qc → Qc;
  (** ["{}".format(x)] for a float [x] *)
  py_format : Qc → string
}.

Definition float_of_nat (n : nat) : npfloat := Fin (Qc_of_Z (Z.of_nat n)).

Definition np_add (x y : npfloat) : W npfloat :=
  match x, y with
  | NaN, _ | _, NaN => (NaN, [])
  | Fin a, Fin b => (Fin (a + b), [])
  | PInf, NInf | NInf, PInf => (NaN, [InvalidValue u_add])
  | PInf, _ | _, PInf => (PInf, [])
  | NInf, _ | _, NInf => (NInf, [])
  end.

Definition np_multiply (x y : npfloat) : W npfloat :=
  let inf_times (pos : bool) (b : Qc) : W npfloat :=
    if decide (b = 0) then (NaN, [InvalidValue u_multiply])
    else if bool_decide (0 < b) then ((if pos then PInf else NInf), [])
    else ((if pos then NInf else PInf), []) in
  match x, y with
  | NaN, _ | _, NaN => (NaN, [])
  | Fin a, Fin b => (Fin (a * b), [])
  | PInf, Fin b | Fin b, PInf => inf_times true b
  | NInf, Fin b | Fin b, NInf => inf_times false b
  | PInf, PInf | NInf, NInf => (PInf, [])
  | PInf, NInf | NInf, PInf => (NInf, [])
  end.

Definition true_divide (x y : npfloat) : W npfloat :=
  match x, y with
  | NaN, _ | _, NaN => (NaN, [])
  | Fin a, Fin b =>
      if decide (b = 0) then
        if decide (a = 0) then (NaN, [InvalidValue u_true_divide])
        else ((if bool_decide (0 < a) then PInf else NInf),
              [DivideByZero u_true_divide])
      else (Fin (a / b), [])
  | Fin _, (PInf | NInf) => (Fin 0, [])
  | PInf, Fin b => ((if bool_decide (0 ≤ b) then PInf else NInf), [])
  | NInf, Fin b => ((if bool_decide (0 ≤ b) then NInf else PInf), [])
  | (PInf | NInf), (PInf | NInf) => (NaN, [InvalidValue u_true_divide])
  end.

Definition np_log `{Numpy} (x : npfloat) : W npfloat :=
  match x with
  | Fin a =>
      if decide (a = 0) then (NInf, [DivideByZero u_log])
      else if bool_decide (a < 0) then (NaN, [InvalidValue u_log])
      else (Fin (np_ln a), [])
  | PInf => (PInf, [])
  | NInf => (NaN, [InvalidValue u_log])
  | NaN => (NaN, [])
  end.

Definition np_sqrt `{Numpy} (x : npfloat) : W npfloat :=
  match x with
  | Fin a =>
      if bool_decide (a < 0) then (NaN, [InvalidValue u_sqrt])
      else (Fin (np_root a), [])
  | PInf => (PInf, [])
  | NInf => (NaN, [InvalidValue u_sqrt])
  | NaN => (NaN, [])
  end.

Definition isnan (x : npfloat) : bool :=
  match x with NaN => true | _ => false end.

(** [x <= y] on floats; false as soon as one side is nan. *)
Definition np_le (x y : npfloat) : bool :=
  match x, y with
  | NaN, _ | _, NaN => false
  | NInf, _ | _, PInf => true
  | PInf, _ | _, NInf => false
  | Fin a, Fin b => bool_decide (a ≤ b)
  end.

(** ** Exceptions and arrays *)

Inductive exn : Type :=
| ValueError (msg : string)
| IndexError (msg : string)
| KeyError (key : string).

(** A binary ufunc on two one-dimensional arrays: shapes must agree, or one
    of them has length one and is stretched. *)
Definition broadcast2 {A B C} (op : A → B → W C) (xs : list A) (ys : list B)
  : exn + W (list C) :=
  if decide (length xs = length ys) then
    inr (w_map (λ p, op p.1 p.2) (zip xs ys))
  else match xs, ys with
       | [x], _ => inr (w_map (op x) ys)
       | _, [y] => inr (w_map (λ x, op x y) xs)
       | _, _ => inl (ValueError "operands could not be broadcast together")
       end.

(** [np.argmax]: the first nan if there is one, else the first maximum. *)
Fixpoint argmax_from (mp : npfloat) (ind i : nat) (l : list npfloat) : nat :=
  match l with
  | [] => ind
  | x :: l' =>
      if np_le x mp then argmax_from mp ind (S i) l'
      else if isnan x then i
      else argmax_from x i (S i) l'
  end.

Definition argmax (l : list npfloat) : exn + nat :=
  match l with
  | [] => inl (ValueError "attempt to get argmax of an empty sequence")
  | x :: l' => inr (if isnan x then 0%nat else argmax_from x 0 1 l')
  end.

(** [np.max] of an array of finite floats. *)
Definition np_max (l : list Qc) : exn + Qc :=
  match l with
  | [] => inl (ValueError
      "zero-size array to reduction operation maximum which has no identity")
  | x :: l' => inr (foldl (λ m y, if bool_decide (m < y) then y else m) x l')
  end.

(** [np.cumsum] *)
Fixpoint cumsum_from (acc : npfloat) (l : list npfloat) : list npfloat :=
  match l with
  | [] => []
  | x :: l' => let s := (np_add acc x).1 in s :: cumsum_from s l'
  end.

Definition cumsum (l : list npfloat) : list npfloat :=
  match l with
  | [] => []
  | x :: l' => x :: cumsum_from x l'
  end.

(** ** Programs that draw from [np.random] *)

Inductive prog (A : Type) : Type :=
| Ret (a : A)
| Raise (e : exn)
| Random (k : Qc → prog A)
| Randint (low high : nat) (k : nat → prog A)
| Beta (a b : Qc) (k : Qc → prog A).

Arguments Ret {A} a.
Arguments Raise {A} e.
Arguments Random {A} k.
Arguments Randint {A} low high k.
Arguments Beta {A} a b k.

Fixpoint prog_bind {A B} (f : A → prog B) (m : prog A) : prog B :=
  match m with
  | Ret a => f a
  | Raise e => Raise e
  | Random k => Random (λ u, prog_bind f (k u))
  | Randint lo hi k => Randint lo hi (λ n, prog_bind f (k n))
  | Beta a b k => Beta a b (λ x, prog_bind f (k x))
  end.

Global Instance prog_ret : MRet prog := @Ret.
Global Instance prog_mbind : MBind prog := @prog_bind.

Definition lift {A} (r : exn + A) : prog A :=
  match r with inl e => Raise e | inr a => Ret a end.

(** [np.random.random()] *)
Definition random : prog Qc := Random Ret.

(** [np.random.random(n)] *)
Fixpoint random_sample (n : nat) : prog (list Qc) :=
  match n with
  | O => Ret []
  | S n' => u ← random; us ← random_sample n'; Ret (u :: us)
  end.

(** [np.random.randint(low, high)] *)
Definition randint (low high : nat) : prog nat :=
  if decide (low < high)%nat then Randint low high Ret
  else Raise (ValueError "low >= high").

(** [np.random.beta(a, b)] *)
Definition beta (a b : Qc) : prog Qc :=
  if bool_decide (a ≤ 0) then Raise (ValueError "a <= 0")
  else if bool_decide (b ≤ 0) then Raise (ValueError "b <= 0")
  else Beta a b Ret.

(** A [for] loop over a list that threads the loop's variables. *)
Fixpoint for_each {A S} (l : list A) (body : A → S → prog S) (s : S) : prog S :=
  match l with
  | [] => Ret s
  | x :: l' => s' ← body x s; for_each l' body s'
  end.

Definition range (n : nat) : list nat := seq 0 n.

(** A deterministic random source. *)
Record rng (G : Type) : Type := {
  rng_random : G → Qc * G;
  rng_randint : nat → nat → G → nat * G;
  rng_beta : Qc → Qc → G → Qc * G
}.

Arguments rng_random {G} _ _.
Arguments rng_randint {G} _ _ _ _.
Arguments rng_beta {G} _ _ _ _.

Fixpoint run {G A} (R : rng G) (m : prog A) (g : G) : exn + (A * G) :=
  match m with
  | Ret a => inr (a, g)
  | Raise e => inl e
  | Random k => let '(u, g') := rng_random R g in run R (k u) g'
  | Randint lo hi k => let '(n, g') := rng_randint R lo hi g in run R (k n) g'
  | Beta a b k => let '(x, g') := rng_beta R a b g in run R (k x) g'
  end.

(** [l[i]] for a non-negative index. *)
Definition index {A} (l : list A) (i : nat) : exn + A :=
  match l !! i with
  | Some x => inr x
  | None => inl (IndexError "index out of bounds")
  end.

(** Evaluation of an array expression: an exception, or a value and the
    warnings printed on the way. *)
Definition npexpr (A : Type) : Type := (exn + W A)%type.

Definition np_then {A B} (m : npexpr A) (f : A → npexpr B) : npexpr B :=
  match m with
  | inl e => inl e
  | inr (a, w) =>
      match f a with
      | inl e => inl e
      | inr (b, w') => inr (b, w ++ w')
      end
  end.

Definition np_warn {A} (m : W A) : npexpr A := inr m.

(** The value of an array expression inside a program: the warnings go to
    stderr and are dropped. *)
Definition eval {A} (m : npexpr A) : prog A :=
  match m with inl e => Raise e | inr (a, _) => Ret a end.

(** ** The environment *)

Record BernoulliBandit : Type := { _probs : list Qc }.

Definition BernoulliBandit_init (n_actions : nat) : prog BernoulliBandit :=
  probs ← random_sample n_actions; Ret {| _probs := probs |}.

Definition action_count (self : BernoulliBandit) : nat := length (_probs self).

Definition pull (self : BernoulliBandit) (action : nat)
  : prog (Qc * BernoulliBandit) :=
  u ← random;
  p ← lift (index (_probs self) action);
  if bool_decide (p < u) then Ret (0, self) else Ret (1, self).

Definition optimal_reward (self : BernoulliBandit)
  : prog (Qc * BernoulliBandit) :=
  m ← lift (np_max (_probs self)); Ret (m, self).

Definition step (self : BernoulliBandit) : prog BernoulliBandit := Ret self.

Definition reset (self : BernoulliBandit) : prog BernoulliBandit := Ret self.

(** ** Agents *)

Inductive agent_class : Type :=
| RandomAgent
| EpsilonGreedyAgent (_epsilon : Qc)
| UCBAgent
| ThompsonSamplingAgent.

(** The attributes [init_actions] creates; before the first call they do not
    exist, and [get_regret] never reads them before it. *)
Record agent : Type := {
  cls : agent_class;
  _successes : list nat;
  _failures : list nat;
  _total_pulls : nat
}.

Definition set_successes (self : agent) (v : list nat) : agent :=
  {| cls := cls self; _successes := v; _failures := _failures self;
     _total_pulls := _total_pulls self |}.

Definition set_failures (self : agent) (v : list nat) : agent :=
  {| cls := cls self; _successes := _successes self; _failures := v;
     _total_pulls := _total_pulls self |}.

Definition set_total_pulls (self : agent) (v : nat) : agent :=
  {| cls := cls self; _successes := _successes self;
     _failures := _failures self; _total_pulls := v |}.

Definition init_actions (self : agent) (n_actions : nat) : agent :=
  {| cls := cls self; _successes := replicate n_actions 0%nat;
     _failures := replicate n_actions 0%nat; _total_pulls := 0 |}.

Definition update (self : agent) (action : nat) (reward : Qc) : prog agent :=
  let self := set_total_pulls self (_total_pulls self + 1) in
  if bool_decide (reward = 1) then
    s ← lift (index (_successes self) action);
    Ret (set_successes self (<[action := (s + 1)%nat]> (_successes self)))
  else
    f ← lift (index (_failures self) action);
    Ret (set_failures self (<[action := (f + 1)%nat]> (_failures self))).

Definition name `{Numpy} (self : agent) : string :=
  match cls self with
  | RandomAgent => "RandomAgent"
  | EpsilonGreedyAgent eps =>
      "EpsilonGreedyAgent" +:+ "(epsilon=" +:+ py_format eps +:+ ")"
  | UCBAgent => "UCBAgent"
  | ThompsonSamplingAgent => "ThompsonSamplingAgent"
  end.

Definition floats (l : list nat) : list npfloat := float_of_nat <$> l.

(** [self._successes + self._failures] *)
Definition pulls (self : agent) : npexpr (list npfloat) :=
  broadcast2 np_add (floats (_successes self)) (floats (_failures self)).

(** [self._successes/(self._successes + self._failures)] *)
Definition success_rate (self : agent) : npexpr (list npfloat) :=
  np_then (pulls self) (λ d,
  broadcast2 true_divide (floats (_successes self)) d).

(** [np.sqrt(2*np.log(self._total_pulls)/(self._successes + self._failures))] *)
Definition ucb_bonus `{Numpy} (self : agent) : npexpr (list npfloat) :=
  np_then (np_warn (np_log (float_of_nat (_total_pulls self)))) (λ lg,
  np_then (np_warn (np_multiply (Fin 2) lg)) (λ two_lg,
  np_then (pulls self) (λ d,
  np_then (np_warn (w_map (true_divide two_lg) d)) (λ q,
  np_warn (w_map np_sqrt q))))).

Definition ucb_index `{Numpy} (self : agent) : npexpr (list npfloat) :=
  np_then (success_rate self) (λ rate,
  np_then (ucb_bonus self) (λ bonus,
  broadcast2 np_add rate bonus)).

Definition RandomAgent_get_action (self : agent) : prog (nat * agent) :=
  action ← randint 0 (length (_successes self)); Ret (action, self).

Definition EpsilonGreedyAgent_get_action (epsilon : Qc) (self : agent)
  : prog (nat * agent) :=
  u ← random;
  if bool_decide (u < epsilon) then
    action ← randint 0 (length (_successes self)); Ret (action, self)
  else
    rate ← eval (success_rate self);
    action ← lift (argmax rate); Ret (action, self).

Definition UCBAgent_get_action `{Numpy} (self : agent) : prog (nat * agent) :=
  w ← eval (ucb_index self);
  action ← lift (argmax w); Ret (action, self).

(** One round of the loop of [ThompsonSamplingAgent.get_action]. *)
Definition thompson_round (i : nat) (st : agent * list Qc)
  : prog (agent * list Qc) :=
  let '(self, theta) := st in
  s ← lift (index (_successes self) i);
  f ← lift (index (_failures self) i);
  let self :=
    if bool_decide (s * f = 0)%nat then
      let self := set_successes self (<[i := 1%nat]> (_successes self)) in
      set_failures self (<[i := 1%nat]> (_failures self))
    else self in
  a ← lift (index (_successes self) i);
  b ← lift (index (_failures self) i);
  x ← beta (Qc_of_Z (Z.of_nat a)) (Qc_of_Z (Z.of_nat b));
  Ret (self, theta ++ [x]).

Definition ThompsonSamplingAgent_get_action (self : agent)
  : prog (nat * agent) :=
  '(self, theta) ← for_each (range (length (_successes self)))
                            thompson_round (self, []);
  action ← lift (argmax (Fin <$> theta)); Ret (action, self).

Definition get_action `{Numpy} (self : agent) : prog (nat * agent) :=
  match cls self with
  | RandomAgent => RandomAgent_get_action self
  | EpsilonGreedyAgent epsilon => EpsilonGreedyAgent_get_action epsilon self
  | UCBAgent => UCBAgent_get_action self
  | ThompsonSamplingAgent => ThompsonSamplingAgent_get_action self
  end.

(** ** The evaluation loop *)

(** One pull of one agent, as the loop saw it.  The list of these records is
    a history variable: [get_regret] does not keep it, it is there to say
    what the returned numbers are made of. *)
Record pull_event : Type := {
  ev_trial : nat;
  ev_step : nat;
  ev_agent : nat;
  ev_optimal : Qc;
  ev_reward : Qc
}.

(** The objects [get_regret] works on. *)
Record frame : Type := {
  env : BernoulliBandit;
  agents : list agent;
  scores : gmap string (list npfloat);
  history : list pull_event
}.

Definition set_env (st : frame) (e : BernoulliBandit) : frame :=
  {| env := e; agents := agents st; scores := scores st;
     history := history st |}.

Definition set_agents (st : frame) (l : list agent) : frame :=
  {| env := env st; agents := l; scores := scores st;
     history := history st |}.

Definition set_scores (st : frame) (m : gmap string (list npfloat)) : frame :=
  {| env := env st; agents := agents st; scores := m;
     history := history st |}.

Definition record (st : frame) (e : pull_event) : frame :=
  {| env := env st; agents := agents st; scores := scores st;
     history := history st ++ [e] |}.

(** [d[key]] *)
Definition getitem {A} (d : gmap string A) (key : string) : exn + A :=
  match d !! key with
  | Some v => inr v
  | None => inl (KeyError key)
  end.

Section get_regret.
Context `{Numpy}.

(** The dict comprehension that creates [scores]. *)
Definition new_scores (agents : list agent) (n_steps : nat)
  : gmap string (list npfloat) :=
  foldl (λ d a, <[name a := replicate n_steps (Fin 0)]> d) ∅ agents.

(** [scores[key][i] += optimal_reward - reward], and the note of the pull in
    the history. *)
Definition credit (trial i : nat) (optimal : Qc) (j : nat) (key : string)
    (reward : Qc) (st : frame) : prog frame :=
  bucket ← lift (getitem (scores st) key);
  x ← lift (index bucket i);
  let y := (np_add x (Fin (optimal - reward))).1 in
  let st := set_scores st (<[key := <[i := y]> bucket]> (scores st)) in
  Ret (record st {| ev_trial := trial; ev_step := i; ev_agent := j;
                    ev_optimal := optimal; ev_reward := reward |}).

(** The end of a turn, once the reward is known: [agent.update] and the
    credit to [scores]. *)
Definition settle (trial i : nat) (optimal : Qc) (j : nat) (st : frame)
    (action : nat) (agent : agent) (reward : Qc) (e : BernoulliBandit)
  : prog frame :=
  agent ← update agent action reward;
  let st := set_agents (set_env st e) (<[j := agent]> (agents st)) in
  credit trial i optimal j (name agent) reward st.

(** The body of [for agent in agents] inside the step loop. *)
Definition agent_turn (trial i : nat) (optimal : Qc) (j : nat) (st : frame)
  : prog frame :=
  agent ← lift (index (agents st) j);
  '(action, agent) ← get_action agent;
  '(reward, e) ← pull (env st) action;
  settle trial i optimal j st action agent reward e.

(** The body of [for i in range(n_steps)]. *)
Definition step_body (trial i : nat) (st : frame) : prog frame :=
  '(optimal, e) ← optimal_reward (env st);
  st ← for_each (range (length (agents st))) (agent_turn trial i optimal)
                (set_env st e);
  e ← step (env st);
  Ret (set_env st e).

(** The body of [for trial in range(n_trials)]. *)
Definition trial_body (n_steps trial : nat) (st : frame) : prog frame :=
  e ← reset (env st);
  let st := set_env st e in
  let st := set_agents st
              ((λ a, init_actions a (action_count (env st))) <$> agents st) in
  for_each (range n_steps) (step_body trial) st.

(** [np.cumsum(l) / n_trials] *)
Definition cumsum_over (n_trials : nat) (l : list npfloat) : list npfloat :=
  (w_map (λ x, true_divide x (float_of_nat n_trials)) (cumsum l)).1.

(** The body of the last loop:
    [scores[agent.name] = np.cumsum(scores[agent.name]) / n_trials]. *)
Definition finish (n_trials : nat) (j : nat) (st : frame) : prog frame :=
  agent ← lift (index (agents st) j);
  l ← lift (getitem (scores st) (name agent));
  Ret (set_scores st (<[name agent := cumsum_over n_trials l]> (scores st))).

Definition get_regret_frame (e : BernoulliBandit) (agents : list agent)
    (n_steps n_trials : nat) : prog frame :=
  let st := {| env := e; agents := agents;
               scores := new_scores agents n_steps; history := [] |} in
  st ← for_each (range n_trials) (trial_body n_steps) st;
  for_each (range (length agents)) (finish n_trials) st.

Definition get_regret (e : BernoulliBandit) (agents : list agent)
    (n_steps n_trials : nat) : prog (gmap string (list npfloat)) :=
  st ← get_regret_frame e agents n_steps n_trials; Ret (scores st).

End get_regret.

(** ** Reasoning about programs *)

(** [returns P m]: whatever [np.random] answers (an integer of the asked
    range for [randint]), [m] raises nothing and its value satisfies [P]. *)
Inductive returns {A} (P : A → Prop) : prog A → Prop :=
| returns_Ret a : P a → returns P (Ret a)
| returns_Random k : (∀ u, returns P (k u)) → returns P (Random k)
| returns_Randint lo hi k :
    (lo < hi)%nat →
    (∀ n, (lo ≤ n < hi)%nat → returns P (k n)) → returns P (Randint lo hi k)
| returns_Beta a b k : (∀ x, returns P (k x)) → returns P (Beta a b k).

(** A random source whose [randint] answers inside the asked range. *)
Definition rng_ok {G} (R : rng G) : Prop :=
  ∀ lo hi g, (lo < hi)%nat → (lo ≤ (rng_randint R lo hi g).1 < hi)%nat.

(** Two programs no random source can tell apart. *)
Definition same_runs {A} (m1 m2 : prog A) : Prop :=
  ∀ G (R : rng G) (g : G), run R m1 g = run R m2 g.

(** ** Specifications *)

Definition Qc_of_nat (n : nat) : Qc := Qc_of_Z (Z.of_nat n).

Definition sum_Qc (l : list Qc) : Qc := foldr Qcplus 0 l.

(** The agent's counters agree: as many pulls as successes and failures. *)
Definition consistent (self : agent) : Prop :=
  _total_pulls self = (sum_list (_successes self) + sum_list (_failures self))%nat.

(** Regret of one pull: [optimal_reward - reward]. *)
Definition regret_of (e : pull_event) : Qc := ev_optimal e - ev_reward e.

(** The regret of the pulls picked by [P]: those of step [i], those of the
    steps up to [t]. *)
Definition regret_at (P : pull_event → Prop) `{!∀ ev, Decision (P ev)}
    (h : list pull_event) (i : nat) : Qc :=
  sum_Qc (regret_of <$> filter (λ ev, P ev ∧ ev_step ev = i) h).

Definition regret_upto (P : pull_event → Prop) `{!∀ ev, Decision (P ev)}
    (h : list pull_event) (t : nat) : Qc :=
  sum_Qc (regret_of <$> filter (λ ev, P ev ∧ (ev_step ev ≤ t)%nat) h).

(** The pulls of agent [j] at the steps [0..t], over all trials. *)
Definition pulls_upto (h : list pull_event) (j t : nat) : list pull_event :=
  filter (λ e, ev_agent e = j ∧ (ev_step e ≤ t)%nat) h.

(** [(1/N)] times the sum, over all trials and all steps [i <= t], of the
    regret of agent [j]. *)
Definition mean_cumulative_regret (n_trials : nat) (h : list pull_event)
    (j t : nat) : Qc :=
  sum_Qc (regret_of <$> pulls_upto h j t) / Qc_of_nat n_trials.

(** The order in which the three nested loops visit (trial, step, agent). *)
Definition step_visits (n_agents trial i : nat) : list (nat * nat * nat) :=
  (λ j, (trial, i, j)) <$> range n_agents.

Definition trial_visits (n_steps n_agents trial : nat)
  : list (nat * nat * nat) :=
  range n_steps ≫= step_visits n_agents trial.

Definition schedule (n_trials n_steps n_agents : nat) : list (nat * nat * nat) :=
  range n_trials ≫= trial_visits n_steps n_agents.

Definition key_of (ev : pull_event) : nat * nat * nat :=
  (ev_trial ev, ev_step ev, ev_agent ev).

(** The history is the record of a whole evaluation of [e]: one pull per
    visit of the loops, each against the best arm of [e], each rewarded
    0 or 1. *)
Definition complete_history (e : BernoulliBandit) (n_agents n_steps n_trials : nat)
    (h : list pull_event) : Prop :=
  key_of <$> h = schedule n_trials n_steps n_agents
  ∧ ∀ ev, ev ∈ h →
      np_max (_probs e) = inr (ev_optimal ev)
      ∧ (ev_reward ev = 0 ∨ ev_reward ev = 1).

(** The mapping [d] gives, for each agent of the list, [n_steps] values, the
    one at [t] being the mean cumulative regret of that agent up to [t]. *)
Definition regret_curves `{Numpy} (agents : list agent) (n_steps n_trials : nat)
    (h : list pull_event) (d : gmap string (list npfloat)) : Prop :=
  ∀ j a, agents !! j = Some a →
    ∃ l, d !! name a = Some l ∧ length l = n_steps
       ∧ ∀ t, (t < n_steps)%nat →
           l !! t = Some (Fin (mean_cumulative_regret n_trials h j t)).

(** The draws of Thompson sampling, one per arm, in the order of the arms. *)
Fixpoint sample_betas (params : list (Qc * Qc)) : prog (list Qc) :=
  match params with
  | [] => Ret []
  | (a, b) :: ps => x ← beta a b; xs ← sample_betas ps; Ret (x :: xs)
  end.

(** Thompson sampling in the spec's words: a sample of
    Beta(successes+1, failures+1) per arm, the arm of the largest sample,
    the counters left alone. *)
Definition thompson_smoothed (self : agent) : prog (nat * agent) :=
  theta ← sample_betas
    ((λ c, (Qc_of_nat (c.1 + 1), Qc_of_nat (c.2 + 1)))
       <$> zip (_successes self) (_failures self));
  action ← lift (argmax (Fin <$> theta)); Ret (action, self).

(** Thompson sampling on the counters as they are: a sample of
    Beta(successes, failures) per arm. *)
Definition thompson_plain (self : agent) : prog (nat * agent) :=
  theta ← sample_betas
    ((λ c, (Qc_of_nat c.1, Qc_of_nat c.2))
       <$> zip (_successes self) (_failures self));
  action ← lift (argmax (Fin <$> theta)); Ret (action, self).

(** ** Invariants of the evaluation loop *)

(** Both counter arrays have one entry per arm. *)
Definition well_formed (K : nat) (a : agent) : Prop :=
  length (_successes a) = K ∧ length (_failures a) = K.

Section invariants.
Context `{Numpy}.
Variables (e : BernoulliBandit) (agents0 : list agent) (n_steps : nat).

(** The regret the pulls of the history have put into bucket [i] of the
    entry [key] of [scores]: that of the agents called [key], at step [i]. *)
Definition credited (h : list pull_event) (key : string) (i : nat) : Qc :=
  sum_Qc (regret_of <$>
    filter (λ ev, name <$> agents0 !! ev_agent ev = Some key ∧ ev_step ev = i) h).

(** What holds between two pulls, when the pulls made so far are [keys]. *)
Record loop_inv (keys : list (nat * nat * nat)) (st : frame) : Prop := {
  inv_env : env st = e;
  inv_cls : cls <$> agents st = cls <$> agents0;
  inv_scores : ∀ key, key ∈ name <$> agents0 →
    ∃ l, scores st !! key = Some l ∧ length l = n_steps
       ∧ ∀ i, (i < n_steps)%nat →
           l !! i = Some (Fin (credited (history st) key i));
  inv_keys : key_of <$> history st = keys;
  inv_events : ∀ ev, ev ∈ history st →
    np_max (_probs e) = inr (ev_optimal ev)
    ∧ (ev_reward ev = 0 ∨ ev_reward ev = 1)
}.

(** Inside a trial the agents have their counters, one pair per arm. *)
Definition ready (st : frame) : Prop :=
  Forall (well_formed (action_count e)) (agents st).

(** Between two pulls of a trial. *)
Definition in_trial (st : frame) : Prop :=
  (∃ keys, loop_inv keys st) ∧ ready st.

(** The regret credited so far to step [s] of the entry [key]. *)
Definition credit_at (key : string) (s : nat) (st : frame) : Qc :=
  credited (history st) key s.

(** How many of the agents [seen] are called [key]. *)
Definition times_named (key : string) (seen : list nat) : nat :=
  length (filter (λ j, name <$> agents0 !! j = Some key) seen).

(** What holds while the last loop runs, after the agents [seen]: the
    entry of a name has been cumulated and divided once for each agent of
    that name seen so far. *)
Record finish_inv (n_trials : nat) (seen : list nat) (st : frame) : Prop := {
  fin_cls : cls <$> agents st = cls <$> agents0;
  fin_history :
    complete_history e (length agents0) n_steps n_trials (history st);
  fin_scores : ∀ key, key ∈ name <$> agents0 →
    ∃ l, length l = n_steps
       ∧ (∀ i, (i < n_steps)%nat →
            l !! i = Some (Fin (credited (history st) key i)))
       ∧ scores st !! key
         = Some (Nat.iter (times_named key seen) (cumsum_over n_trials) l)
}.

End invariants.

(** ** Expected values

    The expected value of a function of what a program returns, when each
    draw follows its law.  The law of [np.random.random()] and the laws of
    [np.random.beta(a, b)] are given by the functionals that integrate a
    function of the drawn value; [np.random.randint(low, high)] is uniform
    on the integers of its range; a program that raises counts for 0. *)

Record laws : Type := {
  law_random : (Qc → Qc) → Qc;
  law_beta : Qc → Qc → (Qc → Qc) → Qc
}.

Definition mean (l : list Qc) : Qc := sum_Qc l / Qc_of_nat (length l).

Fixpoint expect (L : laws) {A} (m : prog A) (φ : A → Qc) : Qc :=
  match m with
  | Ret a => φ a
  | Raise _ => 0
  | Random k => law_random L (λ u, expect L (k u) φ)
  | Randint lo hi k => mean ((λ n, expect L (k n) φ) <$> seq lo (hi - lo))
  | Beta a b k => law_beta L a b (λ x, expect L (k x) φ)
  end.

(** Integration against a probability law: linear, monotone, of total
    mass one. *)
Record integral (I : (Qc → Qc) → Qc) : Prop := {
  int_ext : ∀ f g, (∀ x, f x = g x) → I f = I g;
  int_plus : ∀ f g, I (λ x, f x + g x) = I f + I g;
  int_scale : ∀ c f, I (λ x, c * f x) = c * I f;
  int_one : I (λ _, 1) = 1;
  int_mono : ∀ f g, (∀ x, f x ≤ g x) → I f ≤ I g
}.

(** The draws follow probability laws, and [np.random.random()] falls at or
    below the probability [p] of an arm of [e] with probability [p]. *)
Record fair (L : laws) (e : BernoulliBandit) : Prop := {
  fair_random : integral (law_random L);
  fair_beta : ∀ a b, integral (law_beta L a b);
  fair_uniform : ∀ p, p ∈ _probs e →
    law_random L (λ u, if bool_decide (u ≤ p) then 1 else 0) = p
}.

(** The value at step [t] of the entry [key] of a mapping of regret curves
    (0 where there is none). *)
Definition value_at (key : string) (t : nat) (d : gmap string (list npfloat))
  : Qc :=
  match d !! key with
  | Some l => match l !! t with Some (Fin q) => q | _ => 0 end
  | None => 0
  end.

(** [np.cumsum(b) / n] on a sequence of finite floats given by its terms. *)
Definition cumulate (n : nat) (b : nat → Qc) (t : nat) : Qc :=
  sum_Qc (b <$> range (S t)) / Qc_of_nat n.

(** ** Stand-ins for running examples

    They serve the examples only: [demo_numpy] fills the library functions
    with crude rational approximations, [demo_rng] is a small congruential
    generator. *)

Definition demo_numpy : Numpy := {|
  np_ln := λ q, (q - 1)%Qc;
  np_root := λ q, ((q + 1) / 2)%Qc;
  py_format := λ q,
    pretty (Qnum (this q)) +:+ "/" +:+ pretty (Zpos (Qden (this q)))
|}.

Definition demo_next (g : nat) : nat := ((5 * g + 3) `mod` 16)%nat.

Definition demo_rng : rng nat := {|
  rng_random := λ g, (Q2Qc (Z.of_nat (g `mod` 16) # 16), demo_next g);
  rng_randint := λ lo hi g, ((lo + g `mod` (hi - lo))%nat, demo_next g);
  rng_beta := λ _ _ g, (Q2Qc (Z.of_nat (1 + g `mod` 7) # 8), demo_next g)
|}.

(** Laws on a grid: [random] is 1/4 or 3/4 with equal chances, a draw of
    Beta(a, b) is its mean. *)
Definition demo_laws : laws := {|
  law_random := λ f, ((f (Q2Qc (1 # 4)) + f (Q2Qc (3 # 4))) / Q2Qc 2)%Qc;
  law_beta := λ a b f, f (a / (a + b))%Qc
|}.

Definition fresh (c : agent_class) : agent :=
  {| cls := c; _successes := []; _failures := []; _total_pulls := 0 |}.

Definition half : Qc := Q2Qc (1 # 2).

(** A source that answers a draw of Beta(a, b) with the mean a/(a+b). *)
Definition mean_rng : rng unit := {|
  rng_random := λ g, (half, g);
  rng_randint := λ lo _ g, (lo, g);
  rng_beta := λ a b g, ((a / (a + b))%Qc, g)
|}.

(** Two arms: two successes and one failure; nine successes, five failures. *)
Definition two_arms : agent :=
  {| cls := ThompsonSamplingAgent; _successes := [2; 9]%nat;
     _failures := [1; 5]%nat; _total_pulls := 17 |}.

(** ** The quantities the agents maximise *)

(** [successes[k] + failures[k]]: how often arm [k] has been pulled. *)
Definition pulls_of (self : agent) (k : nat) : nat :=
  (_successes self !!! k + _failures self !!! k)%nat.

(** The empirical rate [successes[k] / (successes[k] + failures[k])]. *)
Definition success_ratio (self : agent) (k : nat) : Qc :=
  Qc_of_nat (_successes self !!! k) / Qc_of_nat (pulls_of self k).

(** The index of UCB1: the rate plus
    [sqrt(2 * log(total_pulls) / (successes[k] + failures[k]))]. *)
Definition ucb_score `{Numpy} (self : agent) (k : nat) : Qc :=
  success_ratio self k
  + np_root ((1 + 1) * np_ln (Qc_of_nat (_total_pulls self))
             / Qc_of_nat (pulls_of self k)).

(** [i] is the first among the indices below [K] where [v] is largest. *)
Definition first_max (K : nat) (v : nat → Qc) (i : nat) : Prop :=
  (i < K)%nat ∧ ∀ j, (j < K)%nat → v j ≤ v i ∧ ((j < i)%nat → v j < v i).

(** [k] is the first arm that has not been pulled. *)
Definition first_unpulled (self : agent) (k : nat) : Prop :=
  (k < length (_successes self))%nat ∧ pulls_of self k = 0%nat
  ∧ ∀ j, (j < k)%nat → pulls_of self j ≠ 0%nat.

(** What the exploit expression [successes/(successes + failures)] gives
    for an arm with the counts [c]: its value and the warnings it prints. *)
Definition rate_of (c : nat * nat) : npfloat :=
  if decide (c.1 + c.2 = 0)%nat then NaN
  else Fin (Qc_of_nat c.1 / Qc_of_nat (c.1 + c.2)).

Definition rate_warnings (c : nat * nat) : list RuntimeWarning :=
  if decide (c.1 + c.2 = 0)%nat then [InvalidValue u_true_divide] else [].

(** A float that is neither nan nor infinite. *)
Definition finite (x : npfloat) : Prop := ∃ q, x = Fin q.

(** What [rate + np.sqrt(2*np.log(total_pulls)/(successes + failures))]
    gives for arm [k]. *)
Definition ucb_value `{Numpy} (self : agent) (k : nat) : npfloat :=
  let lg := (np_log (float_of_nat (_total_pulls self))).1 in
  let two_lg := (np_multiply (Fin 2) lg).1 in
  let bonus :=
    (np_sqrt (true_divide two_lg (float_of_nat (pulls_of self k))).1).1 in
  (np_add (rate_of (_successes self !!! k, _failures self !!! k)) bonus).1.

(** ** Thompson sampling on any counters *)

(** The counts of an arm as a round of [ThompsonSamplingAgent.get_action]
    leaves them: both are one as soon as one of them was zero. *)
Definition thompson_counts (c : nat * nat) : nat * nat :=
  if bool_decide (c.1 * c.2 = 0)%nat then (1, 1)%nat else c.

(** The parameters of the draws, arm by arm. *)
Definition thompson_params (self : agent) : list (Qc * Qc) :=
  (λ c, (Qc_of_nat (thompson_counts c).1, Qc_of_nat (thompson_counts c).2))
    <$> zip (_successes self) (_failures self).

(** The agent when the loop has gone through the arms below [k]. *)
Definition thompson_upto (k : nat) (self : agent) : agent :=
  let counts := thompson_counts <$> zip (_successes self) (_failures self) in
  {| cls := cls self;
     _successes := take k counts.*1 ++ drop k (_successes self);
     _failures := take k counts.*2 ++ drop k (_failures self);
     _total_pulls := _total_pulls self |}.

(** The agent as the whole loop leaves it. *)
Definition thompson_agent (self : agent) : agent :=
  let counts := thompson_counts <$> zip (_successes self) (_failures self) in
  {| cls := cls self; _successes := counts.*1; _failures := counts.*2;
     _total_pulls := _total_pulls self |}.

(** One draw per arm with the parameters [thompson_params], then the arm
    of the largest sample and the agent [thompson_agent]. *)
Definition thompson_sampling (self : agent) : prog (nat * agent) :=
  theta ← sample_betas (thompson_params self);
  action ← lift (argmax (Fin <$> theta)); Ret (action, thompson_agent self).

(** ** What a program can return

    [always P m]: whatever [np.random] answers, if [m] returns then its
    value satisfies [P]. *)
Fixpoint always {A} (P : A → Prop) (m : prog A) : Prop :=
  match m with
  | Ret a => P a
  | Raise _ => True
  | Random k => ∀ u, always P (k u)
  | Randint _ _ k => ∀ n, always P (k n)
  | Beta _ _ k => ∀ x, always P (k x)
  end.

(** One step of symbolic execution of a program. *)
Ltac prog_step := cbn [lift mbind prog_mbind prog_bind mret prog_ret];
                  cbv beta iota.

(** * Properties *)

(** ** Programs *)

Lemma returns_bind {A B} (Q : A → Prop) (P : B → Prop) (m : prog A)
    (f : A → prog B) :
  returns Q m → (∀ a, Q a → returns P (f a)) → returns P (m ≫= f).
Proof.
  intros Hm Hf. induction Hm; cbn; [auto | constructor; auto ..].
Qed.

Lemma returns_mono {A} (P Q : A → Prop) (m : prog A) :
  returns P m → (∀ a, P a → Q a) → returns Q m.
Proof. intros Hm HPQ. induction Hm; constructor; auto. Qed.

Lemma returns_and {A} (P Q : A → Prop) (m : prog A) :
  returns P m → returns Q m → returns (λ a, P a ∧ Q a) m.
Proof.
  intros HP. induction HP; intros HQ; inversion HQ; subst;
    constructor; auto.
Qed.

Lemma returns_random (P : Qc → Prop) : (∀ u, P u) → returns P random.
Proof. intros HP. constructor. intros u. constructor. apply HP. Qed.

Lemma returns_randint (lo hi : nat) :
  (lo < hi)%nat → returns (λ n, (lo ≤ n < hi)%nat) (randint lo hi).
Proof.
  intros Hlt. unfold randint. rewrite decide_True by done.
  constructor; [done|]. intros n Hn. by constructor.
Qed.

(** A loop keeps what each round keeps. *)
Lemma returns_for_each {A S} (I : S → Prop) (l : list A)
    (body : A → S → prog S) (s : S) :
  (∀ x s, x ∈ l → I s → returns I (body x s)) →
  I s → returns I (for_each l body s).
Proof.
  revert s. induction l as [|x l IH]; intros s Hbody Hs; cbn.
  - by constructor.
  - apply returns_bind with (Q := I).
    + apply Hbody; [left | done].
    + intros s' Hs'. apply IH; [|done].
      intros y t Hy. apply Hbody. by right.
Qed.

(** A loop whose invariant follows the rounds already made. *)
Lemma returns_for_each_prefix {A S} (I : list A → S → Prop) (l : list A)
    (body : A → S → prog S) (s : S) :
  (∀ seen x s, (∃ rest, l = seen ++ x :: rest) → I seen s →
     returns (I (seen ++ [x])) (body x s)) →
  I [] s → returns (I l) (for_each l body s).
Proof.
  intros Hbody. 
  assert (Hgen : ∀ rest seen s, l = seen ++ rest → I seen s →
            returns (I l) (for_each rest body s)).
  { induction rest as [|x rest IH]; intros seen s0 Hl Hs0; cbn.
    - constructor. by rewrite Hl, app_nil_r.
    - apply returns_bind with (Q := I (seen ++ [x])).
      + apply Hbody; eauto.
      + intros s' Hs'. apply (IH (seen ++ [x])); [|done].
        by rewrite <- app_assoc. }
  intros Hs. by apply (Hgen l []).
Qed.

Lemma run_bind {G A B} (R : rng G) (m : prog A) (f : A → prog B) (g : G) :
  run R (m ≫= f) g
  = match run R m g with
    | inl e => inl e
    | inr (a, g') => run R (f a) g'
    end.
Proof.
  revert g. induction m as [a|e|k IH|lo hi k IH|a b k IH]; intros g; cbn.
  - done.
  - done.
  - destruct (rng_random R g) as [u g']. apply IH.
  - destruct (rng_randint R lo hi g) as [n g']. apply IH.
  - destruct (rng_beta R a b g) as [x g']. apply IH.
Qed.

(** On a source that respects the range of [randint], a program that
    [returns P] does return, with a value in [P]. *)
Lemma returns_run {G A} (R : rng G) (P : A → Prop) (m : prog A) (g : G) :
  rng_ok R → returns P m → ∃ a g', run R m g = inr (a, g') ∧ P a.
Proof.
  intros HR Hm. revert g.
  induction Hm as [a Ha|k _ IH|lo hi k Hlt _ IH|a b k _ IH]; intros g; cbn.
  - eauto.
  - destruct (rng_random R g) as [u g']. apply IH.
  - pose proof (HR lo hi g Hlt) as Hn.
    destruct (rng_randint R lo hi g) as [n g']. by apply IH.
  - destruct (rng_beta R a b g) as [x g']. apply IH.
Qed.

(** ** The environment *)

Lemma index_Some {A} (l : list A) (i : nat) (x : A) :
  l !! i = Some x → index l i = inr x.
Proof. unfold index. by intros ->. Qed.

Lemma index_lt {A} (l : list A) (i : nat) :
  (i < length l)%nat → ∃ x, l !! i = Some x ∧ index l i = inr x.
Proof.
  intros Hi. destruct (lookup_lt_is_Some_2 l i Hi) as [x Hx].
  exists x. split; [done | by apply index_Some].
Qed.

(** The reward of a pull of an arm of probability [p] when the draw is [u]. *)
Lemma pull_Random (self : BernoulliBandit) (action : nat) (p : Qc) :
  _probs self !! action = Some p →
  ∃ k, pull self action = Random k
     ∧ ∀ u, k u = Ret ((if bool_decide (u ≤ p) then 1 else 0), self).
Proof.
  intros Hp. eexists. split; [reflexivity|]. intros u.
  rewrite (index_Some _ _ _ Hp). cbn.
  destruct (Qclt_le_dec p u) as [Hpu|Hup].
  - rewrite bool_decide_eq_true_2 by done.
    by rewrite bool_decide_eq_false_2 by (by apply Qclt_not_le).
  - rewrite bool_decide_eq_false_2 by (by apply Qcle_not_lt).
    by rewrite bool_decide_eq_true_2 by done.
Qed.

(** C7. For an arm index [action] in [0, K), [pull] makes one draw [u] of
    [np.random.random()] and nothing else, and returns 1 if [u] is at most
    the probability of the arm and 0 otherwise; so the reward is 0 or 1 and
    the environment is the one it was. *)
Theorem pull_one_draw (self : BernoulliBandit) (action : nat) :
  (action < action_count self)%nat →
  ∃ p k, _probs self !! action = Some p
    ∧ pull self action = Random k
    ∧ (∀ u, k u = Ret ((if bool_decide (u ≤ p) then 1 else 0), self))
    ∧ returns (λ r, (r.1 = 0 ∨ r.1 = 1) ∧ r.2 = self) (pull self action).
Proof.
  intros Hlt. destruct (index_lt _ _ Hlt) as (p & Hp & _).
  destruct (pull_Random self action p Hp) as (k & Hpull & Hk).
  exists p, k. split; [done|]. split; [done|]. split; [done|].
  rewrite Hpull. constructor. intros u. rewrite Hk. constructor. cbn.
  split; [|done]. destruct (bool_decide (u ≤ p)); auto.
Qed.

Lemma pull_one_draw_witness :
  ∃ p k, _probs {| _probs := [half; 1] |} !! 1%nat = Some p
    ∧ pull {| _probs := [half; 1] |} 1 = Random k
    ∧ (∀ u, k u = Ret ((if bool_decide (u ≤ p) then 1 else 0),
                       {| _probs := [half; 1] |}))
    ∧ returns (λ r, (r.1 = 0 ∨ r.1 = 1) ∧ r.2 = {| _probs := [half; 1] |})
        (pull {| _probs := [half; 1] |} 1).
Proof. apply (pull_one_draw {| _probs := [half; 1] |} 1). cbn. lia. Defined.

(** On a random source, [pull] takes the next uniform value and compares. *)
Lemma run_pull {G} (R : rng G) (self : BernoulliBandit) (action : nat)
    (p : Qc) (g : G) :
  _probs self !! action = Some p →
  run R (pull self action) g
  = inr ((if bool_decide ((rng_random R g).1 ≤ p) then 1 else 0, self),
         (rng_random R g).2).
Proof.
  intros Hp. destruct (pull_Random self action p Hp) as (k & Hpull & Hk).
  rewrite Hpull. cbn. destruct (rng_random R g) as [u g']. by rewrite Hk.
Qed.

(** ** Agents: the counters *)

Lemma sum_list_insert (l : list nat) (i x y : nat) :
  l !! i = Some x →
  (sum_list (<[i := y]> l) + x = sum_list l + y)%nat.
Proof.
  revert i. induction l as [|z l IH]; intros [|i] Hi; simplify_eq/=.
  - lia.
  - specialize (IH _ Hi). lia.
Qed.

Lemma sum_list_replicate_0 (n : nat) : sum_list (replicate n 0%nat) = 0%nat.
Proof. induction n; cbn; lia. Qed.

(** C8. For an action that indexes the counters, [update] adds one to the
    pulls and one to the success count of that action when the reward is 1,
    to its failure count otherwise; every other count stays. *)
Theorem update_counts (self : agent) (action : nat) (reward : Qc) :
  (action < length (_successes self))%nat →
  (action < length (_failures self))%nat →
  ∃ self', update self action reward = Ret self'
    ∧ cls self' = cls self
    ∧ _total_pulls self' = (_total_pulls self + 1)%nat
    ∧ (∀ k, _successes self' !! k
            = if bool_decide (k = action ∧ reward = 1)
              then (λ s, (s + 1)%nat) <$> _successes self !! k
              else _successes self !! k)
    ∧ (∀ k, _failures self' !! k
            = if bool_decide (k = action ∧ reward ≠ 1)
              then (λ f, (f + 1)%nat) <$> _failures self !! k
              else _failures self !! k).
Proof.
  intros Hs Hf.
  destruct (index_lt _ _ Hs) as (s & Hs' & Hsi).
  destruct (index_lt _ _ Hf) as (f & Hf' & Hfi).
  unfold update. cbn. destruct (decide (reward = 1)) as [Hr|Hr].
  - rewrite bool_decide_eq_true_2 by done. rewrite Hsi. cbn.
    eexists. split; [reflexivity|]. cbn. repeat split; [| ].
    + intros k. destruct (decide (k = action)) as [->|Hne].
      * rewrite bool_decide_eq_true_2 by done.
        rewrite list_lookup_insert_eq by done. by rewrite Hs'.
      * rewrite bool_decide_eq_false_2 by (intros [? ?]; congruence).
        by rewrite list_lookup_insert_ne.
    + intros k. by rewrite bool_decide_eq_false_2 by (intros [? ?]; congruence).
  - rewrite bool_decide_eq_false_2 by done. rewrite Hfi. cbn.
    eexists. split; [reflexivity|]. cbn. repeat split; [| ].
    + intros k. by rewrite bool_decide_eq_false_2 by (intros [? ?]; congruence).
    + intros k. destruct (decide (k = action)) as [->|Hne].
      * rewrite bool_decide_eq_true_2 by done.
        rewrite list_lookup_insert_eq by done. by rewrite Hf'.
      * rewrite bool_decide_eq_false_2 by (intros [? ?]; congruence).
        by rewrite list_lookup_insert_ne.
Qed.

Lemma update_counts_witness :
  ∃ self', update (init_actions (fresh UCBAgent) 3) 2 1 = Ret self'
    ∧ _successes self' = [0; 0; 1]%nat ∧ _failures self' = [0; 0; 0]%nat
    ∧ _total_pulls self' = 1%nat.
Proof.
  destruct (update_counts (init_actions (fresh UCBAgent) 3) 2 1)
    as (self' & Hup & _ & Htot & _); [cbn; lia | cbn; lia |].
  exists self'. split; [exact Hup|].
  vm_compute in Hup. injection Hup as <-. done.
Defined.

Lemma consistent_init_actions (self : agent) (n : nat) :
  consistent (init_actions self n).
Proof. unfold consistent. cbn. rewrite sum_list_replicate_0. lia. Qed.

(** C10. The counters of an agent agree after [init_actions], and [update]
    with an action that indexes them keeps them in agreement: the number of
    pulls is the sum of all success and failure counts. *)
Theorem update_keeps_consistent (self : agent) (action : nat) (reward : Qc)
    (n_actions : nat) :
  consistent self →
  (action < length (_successes self))%nat →
  (action < length (_failures self))%nat →
  consistent (init_actions self n_actions)
  ∧ ∃ self', update self action reward = Ret self' ∧ consistent self'.
Proof.
  intros Hc Hs Hf. split; [apply consistent_init_actions|].
  destruct (index_lt _ _ Hs) as (s & Hs' & Hsi).
  destruct (index_lt _ _ Hf) as (f & Hf' & Hfi).
  unfold update, consistent in *. cbn. case_bool_decide.
  - rewrite Hsi. cbn. eexists. split; [reflexivity|]. cbn.
    pose proof (sum_list_insert _ _ _ (s + 1)%nat Hs'). lia.
  - rewrite Hfi. cbn. eexists. split; [reflexivity|]. cbn.
    pose proof (sum_list_insert _ _ _ (f + 1)%nat Hf'). lia.
Qed.

Lemma update_keeps_consistent_witness :
  consistent (init_actions (fresh RandomAgent) 4)
  ∧ ∃ self', update (init_actions (fresh RandomAgent) 2) 1 0 = Ret self'
             ∧ consistent self'.
Proof.
  apply (update_keeps_consistent (init_actions (fresh RandomAgent) 2) 1 0 4).
  - reflexivity.
  - cbn. lia.
  - cbn. lia.
Defined.

(** ** Agents: the choice of an action *)

(** C3, on the code: choosing an action with Thompson sampling writes 1
    over both counts of every arm one of whose counts is zero.  Right after
    [init_actions] all counts become 1; an arm with five successes and no
    failure is left with one success and one failure. *)
Theorem thompson_get_action_overwrites :
  returns (λ r, _successes r.2 = [1; 1]%nat ∧ _failures r.2 = [1; 1]%nat)
    (ThompsonSamplingAgent_get_action (init_actions (fresh ThompsonSamplingAgent) 2))
  ∧ returns (λ r, _successes r.2 = [1; 2]%nat ∧ _failures r.2 = [1; 3]%nat)
      (ThompsonSamplingAgent_get_action
         {| cls := ThompsonSamplingAgent; _successes := [5; 2]%nat;
            _failures := [0; 3]%nat; _total_pulls := 10 |}).
Proof.
  split.
  - cbn. constructor. intros x0. constructor. intros x1. constructor. done.
  - cbn. constructor. intros x0. constructor. intros x1. constructor. done.
Qed.

(** C5, on the code: with no pull made yet, the exploit branch of
    [EpsilonGreedyAgent.get_action] divides 0 by 0 for every arm, and
    [UCBAgent.get_action] does the same and takes the logarithm of 0; after
    one pull the arms not yet pulled still divide by zero. *)
Theorem zero_pulls_divide_by_zero `{Numpy} (epsilon : Qc) :
  success_rate (init_actions (fresh (EpsilonGreedyAgent epsilon)) 3)
  = inr ([NaN; NaN; NaN],
         [InvalidValue u_true_divide; InvalidValue u_true_divide;
          InvalidValue u_true_divide])
  ∧ ucb_index (init_actions (fresh UCBAgent) 3)
    = inr ([NaN; NaN; NaN],
           [InvalidValue u_true_divide; InvalidValue u_true_divide;
            InvalidValue u_true_divide; DivideByZero u_log;
            InvalidValue u_sqrt; InvalidValue u_sqrt; InvalidValue u_sqrt])
  ∧ success_rate {| cls := EpsilonGreedyAgent epsilon;
                    _successes := [1; 0; 0]%nat; _failures := [0; 0; 0]%nat;
                    _total_pulls := 1 |}
    = inr ([Fin 1; NaN; NaN],
           [InvalidValue u_true_divide; InvalidValue u_true_divide]).
Proof.
  split; [|split].
  - vm_compute. reflexivity.
  - vm_compute. reflexivity.
  - vm_compute. reflexivity.
Qed.

Lemma Qc_of_nat_pos (n : nat) : (0 < n)%nat → 0 < Qc_of_nat n.
Proof.
  intros Hn. unfold Qc_of_nat, Qc_of_Z, Qclt, Qlt. cbn.
  change (Qred 0) with (0 # 1). cbn. lia.
Qed.

Lemma beta_counts (s f : nat) :
  (s * f ≠ 0)%nat →
  beta (Qc_of_nat s) (Qc_of_nat f) = Beta (Qc_of_nat s) (Qc_of_nat f) Ret.
Proof.
  intros Hsf. unfold beta.
  rewrite !bool_decide_eq_false_2; [done | |];
    apply Qclt_not_le, Qc_of_nat_pos; lia.
Qed.

(** A round of Thompson sampling on an arm with both counts positive: one
    draw of Beta(successes, failures), counters untouched. *)
Lemma thompson_round_plain (self : agent) (theta : list Qc) (i s f : nat) :
  _successes self !! i = Some s → _failures self !! i = Some f →
  (s * f ≠ 0)%nat →
  thompson_round i (self, theta)
  = Beta (Qc_of_nat s) (Qc_of_nat f) (λ x, Ret (self, theta ++ [x])).
Proof.
  intros Hs Hf Hsf. unfold thompson_round.
  rewrite (index_Some _ _ _ Hs), (index_Some _ _ _ Hf). cbn.
  rewrite bool_decide_eq_false_2 by done.
  rewrite (index_Some _ _ _ Hs), (index_Some _ _ _ Hf). cbn.
  fold (Qc_of_nat s) (Qc_of_nat f). by rewrite beta_counts.
Qed.

Lemma thompson_loop_plain {G} (R : rng G) (self : agent) (m k : nat)
    (theta : list Qc) (g : G) :
  length (_successes self) = length (_failures self) →
  (k + m ≤ length (_successes self))%nat →
  (∀ i s f, _successes self !! i = Some s → _failures self !! i = Some f →
            (s * f ≠ 0)%nat) →
  run R (for_each (seq k m) thompson_round (self, theta)) g
  = run R (xs ← sample_betas
             ((λ c, (Qc_of_nat c.1, Qc_of_nat c.2))
                <$> take m (drop k (zip (_successes self) (_failures self))));
           Ret (self, theta ++ xs)) g.
Proof.
  intros Hlen Hkm Hpos. revert k theta g Hkm.
  induction m as [|m IH]; intros k theta g Hkm.
  - rewrite take_0. cbn. by rewrite app_nil_r.
  - destruct (lookup_lt_is_Some_2 (_successes self) k) as [s Hs]; [lia|].
    destruct (lookup_lt_is_Some_2 (_failures self) k) as [f Hf]; [lia|].
    assert (Hz : zip (_successes self) (_failures self) !! k = Some (s, f)).
    { rewrite lookup_zip_with, Hs. cbn. by rewrite Hf. }
    rewrite (drop_S _ _ _ Hz), firstn_cons, fmap_cons.
    cbn [seq for_each sample_betas].
    rewrite (thompson_round_plain self theta k s f Hs Hf (Hpos _ _ _ Hs Hf)).
    cbn [fst snd]. rewrite beta_counts by eauto. cbn.
    destruct (rng_beta R (Qc_of_nat s) (Qc_of_nat f) g) as [x g'].
    rewrite IH by lia. rewrite !run_bind.
    destruct (run R (sample_betas _) g') as [e|[xs g'']]; cbn; [done|].
    by rewrite <- app_assoc.
Qed.

(** C4, as the code has it: when both counts of every arm are positive,
    [ThompsonSamplingAgent.get_action] draws, arm after arm, one sample of
    Beta(successes[k], failures[k]) (the counts themselves, not the counts
    plus one) and returns the first arm whose sample is largest, together
    with the unchanged agent. *)
Theorem thompson_get_action_plain (self : agent) :
  length (_successes self) = length (_failures self) →
  (∀ i s f, _successes self !! i = Some s → _failures self !! i = Some f →
            (s * f ≠ 0)%nat) →
  same_runs (ThompsonSamplingAgent_get_action self) (thompson_plain self).
Proof.
  intros Hlen Hpos G R g.
  unfold ThompsonSamplingAgent_get_action, thompson_plain, range.
  rewrite !run_bind.
  rewrite thompson_loop_plain by (done || lia).
  rewrite run_bind. rewrite drop_0.
  rewrite take_ge by (rewrite length_zip_with; lia).
  destruct (run R (sample_betas _) g) as [e|[xs g']]; cbn; [done|].
  by rewrite run_bind.
Qed.

Lemma thompson_get_action_plain_witness :
  same_runs (ThompsonSamplingAgent_get_action two_arms)
            (thompson_plain two_arms).
Proof.
  apply thompson_get_action_plain.
  - reflexivity.
  - intros [|[|i]] s f Hs Hf; cbn in Hs, Hf; simplify_eq; lia.
Defined.

(** C4, as the claim has it, fails: with two successes and one failure the
    first draw asked for is Beta(2, 1), where the claim has Beta(3, 2); and
    on a source that answers each draw of Beta(a, b) with its mean, the
    code picks arm 0 (2/3 against 9/14) where the claim's program picks
    arm 1 (3/5 against 10/16). *)
Lemma thompson_not_smoothed :
  (∃ k, ThompsonSamplingAgent_get_action two_arms
        = Beta (Qc_of_nat 2) (Qc_of_nat 1) k)
  ∧ (∃ k, thompson_smoothed two_arms = Beta (Qc_of_nat 3) (Qc_of_nat 2) k)
  ∧ run mean_rng (ThompsonSamplingAgent_get_action two_arms) ()
    = inr ((0%nat, two_arms), ())
  ∧ run mean_rng (thompson_smoothed two_arms) () = inr ((1%nat, two_arms), ())
  ∧ ¬ same_runs (ThompsonSamplingAgent_get_action two_arms)
                (thompson_smoothed two_arms).
Proof.
  assert (H0 : run mean_rng (ThompsonSamplingAgent_get_action two_arms) ()
               = inr ((0%nat, two_arms), ())) by (vm_compute; reflexivity).
  assert (H1 : run mean_rng (thompson_smoothed two_arms) ()
               = inr ((1%nat, two_arms), ())) by (vm_compute; reflexivity).
  split; [eexists; reflexivity|]. split; [eexists; reflexivity|].
  split; [exact H0|]. split; [exact H1|].
  intros Hsame. specialize (Hsame unit mean_rng ()).
  rewrite H0, H1 in Hsame. discriminate.
Qed.

(** ** Array expressions never fail on well-formed counters *)

Lemma w_map_length {A B} (f : A → W B) (l : list A) :
  length (w_map f l).1 = length l.
Proof.
  induction l as [|x l IH]; [done|]. cbn. unfold w_bind. cbn.
  destruct (f x) as [y w]. cbn. destruct (w_map f l) as [ys w']. cbn in *.
  by rewrite IH.
Qed.

Lemma broadcast2_same_length {A B C} (op : A → B → W C) (xs : list A)
    (ys : list B) :
  length xs = length ys →
  ∃ r, broadcast2 op xs ys = inr r ∧ length r.1 = length xs.
Proof.
  intros Hlen. unfold broadcast2. rewrite decide_True by done.
  eexists. split; [reflexivity|].
  rewrite w_map_length, length_zip_with. lia.
Qed.

Lemma np_then_inr {A B} (m : npexpr A) (f : A → npexpr B) a w b w' :
  m = inr (a, w) → f a = inr (b, w') → np_then m f = inr (b, w ++ w').
Proof. intros -> Hf. cbn. by rewrite Hf. Qed.

Lemma floats_length (l : list nat) : length (floats l) = length l.
Proof. unfold floats. by rewrite length_fmap. Qed.

Lemma pulls_well_formed (K : nat) (a : agent) :
  well_formed K a → ∃ d w, pulls a = inr (d, w) ∧ length d = K.
Proof.
  intros [Hs Hf]. unfold pulls.
  destruct (broadcast2_same_length np_add (floats (_successes a))
              (floats (_failures a))) as ([d w] & Hd & Hlen).
  { rewrite !floats_length. congruence. }
  exists d, w. split; [done|]. cbn in Hlen. by rewrite Hlen, floats_length.
Qed.

Lemma success_rate_well_formed (K : nat) (a : agent) :
  well_formed K a → ∃ r w, success_rate a = inr (r, w) ∧ length r = K.
Proof.
  intros Hwf. destruct (pulls_well_formed K a Hwf) as (d & w & Hd & Hlen).
  destruct Hwf as [Hs Hf]. unfold success_rate.
  destruct (broadcast2_same_length true_divide (floats (_successes a)) d)
    as ([r w'] & Hr & Hlen').
  { rewrite floats_length. congruence. }
  exists r, (w ++ w'). split.
  - by apply np_then_inr with (a := d).
  - cbn in Hlen'. by rewrite Hlen', floats_length.
Qed.

Lemma ucb_bonus_well_formed `{Numpy} (K : nat) (a : agent) :
  well_formed K a → ∃ r w, ucb_bonus a = inr (r, w) ∧ length r = K.
Proof.
  intros Hwf. destruct (pulls_well_formed K a Hwf) as (d & w & Hd & Hlen).
  unfold ucb_bonus, np_warn.
  destruct (np_log (float_of_nat (_total_pulls a))) as [lg w1].
  destruct (np_multiply (Fin 2) lg) as [two_lg w2] eqn:Hmul.
  destruct (w_map (true_divide two_lg) d) as [q w3] eqn:Hq.
  destruct (w_map np_sqrt q) as [b w4] eqn:Hb.
  exists b, (w1 ++ w2 ++ w ++ w3 ++ w4). split.
  - eapply np_then_inr; [reflexivity|].
    eapply np_then_inr; [by rewrite Hmul|].
    eapply np_then_inr; [exact Hd|].
    eapply np_then_inr; [by rewrite Hq|]. by rewrite Hb.
  - pose proof (w_map_length np_sqrt q) as H1.
    pose proof (w_map_length (true_divide two_lg) d) as H2.
    rewrite Hb in H1. rewrite Hq in H2. cbn in *. congruence.
Qed.

Lemma ucb_index_well_formed `{Numpy} (K : nat) (a : agent) :
  well_formed K a → ∃ r w, ucb_index a = inr (r, w) ∧ length r = K.
Proof.
  intros Hwf.
  destruct (success_rate_well_formed K a Hwf) as (rate & w & Hrate & Hlen).
  destruct (ucb_bonus_well_formed K a Hwf) as (bonus & w' & Hbonus & Hlen').
  destruct (broadcast2_same_length np_add rate bonus) as ([r w''] & Hr & Hl).
  { congruence. }
  exists r, (w ++ w' ++ w''). split.
  - unfold ucb_index. apply np_then_inr with (a := rate); [done|].
    by apply np_then_inr with (a := bonus).
  - cbn in Hl. congruence.
Qed.

Lemma argmax_from_lt (l : list npfloat) (mp : npfloat) (ind i : nat) :
  (ind < i)%nat → (argmax_from mp ind i l < i + length l)%nat.
Proof.
  revert mp ind i. induction l as [|x l IH]; intros mp ind i Hlt; cbn.
  - lia.
  - destruct (np_le x mp).
    + specialize (IH mp ind (S i)). lia.
    + destruct (isnan x); [lia|]. specialize (IH x i (S i)). lia.
Qed.

Lemma argmax_lt (l : list npfloat) :
  (0 < length l)%nat → ∃ i, argmax l = inr i ∧ (i < length l)%nat.
Proof.
  destruct l as [|x l]; cbn; [lia|]. intros _. eexists. split; [done|].
  destruct (isnan x); cbn; [lia|].
  pose proof (argmax_from_lt l x 0 1). lia.
Qed.

(** ** Every agent returns an arm of the environment *)

Lemma RandomAgent_get_action_returns (K : nat) (a : agent) :
  (1 ≤ K)%nat → well_formed K a →
  returns (λ r, (r.1 < K)%nat ∧ r.2 = a) (RandomAgent_get_action a).
Proof.
  intros HK [Hs Hf]. unfold RandomAgent_get_action.
  eapply returns_bind; [apply returns_randint; lia|].
  intros n Hn. constructor. cbn in *. split; [lia|done].
Qed.

Lemma EpsilonGreedyAgent_get_action_returns (K : nat) (eps : Qc) (a : agent) :
  (1 ≤ K)%nat → well_formed K a →
  returns (λ r, (r.1 < K)%nat ∧ r.2 = a) (EpsilonGreedyAgent_get_action eps a).
Proof.
  intros HK Hwf. unfold EpsilonGreedyAgent_get_action.
  eapply returns_bind; [by apply returns_random with (P := λ _, True)|].
  intros u _. case_bool_decide.
  - destruct Hwf as [Hs Hf].
    eapply returns_bind; [apply returns_randint; lia|].
    intros n Hn. constructor. cbn in *. split; [lia|done].
  - destruct (success_rate_well_formed K a Hwf) as (rate & w & Hrate & Hlen).
    rewrite Hrate. cbn.
    destruct (argmax_lt rate) as (i & Hi & Hlt); [lia|].
    rewrite Hi. cbn. constructor. cbn. split; [lia|done].
Qed.

Lemma UCBAgent_get_action_returns `{Numpy} (K : nat) (a : agent) :
  (1 ≤ K)%nat → well_formed K a →
  returns (λ r, (r.1 < K)%nat ∧ r.2 = a) (UCBAgent_get_action a).
Proof.
  intros HK Hwf. unfold UCBAgent_get_action.
  destruct (ucb_index_well_formed K a Hwf) as (r & w & Hr & Hlen).
  rewrite Hr. cbn.
  destruct (argmax_lt r) as (i & Hi & Hlt); [lia|].
  rewrite Hi. cbn. constructor. cbn. split; [lia|done].
Qed.

Lemma thompson_round_returns (K i : nat) (self : agent) (theta : list Qc) :
  (i < K)%nat → well_formed K self →
  returns (λ st, cls st.1 = cls self ∧ well_formed K st.1
                 ∧ length st.2 = S (length theta))
    (thompson_round i (self, theta)).
Proof.
  intros Hi [Hs Hf]. unfold thompson_round.
  destruct (index_lt (_successes self) i) as (s & Hs' & Hsi); [lia|].
  destruct (index_lt (_failures self) i) as (f & Hf' & Hfi); [lia|].
  rewrite Hsi, Hfi. cbn. case_bool_decide as Hz.
  - cbn. unfold index.
    rewrite !list_lookup_insert_eq by lia. cbn.
    change (beta (Qc_of_Z (Z.of_nat 1)) (Qc_of_Z (Z.of_nat 1)))
      with (beta (Qc_of_nat 1) (Qc_of_nat 1)).
    rewrite beta_counts by lia. cbn. constructor. intros x. constructor. cbn.
    unfold well_formed. cbn. rewrite !length_insert, length_app. cbn.
    repeat split; lia.
  - rewrite Hsi, Hfi. cbn.
    change (beta (Qc_of_Z (Z.of_nat s)) (Qc_of_Z (Z.of_nat f)))
      with (beta (Qc_of_nat s) (Qc_of_nat f)).
    rewrite beta_counts by done. cbn. constructor. intros x. constructor. cbn.
    rewrite length_app. cbn. repeat split; (done || lia).
Qed.

Lemma ThompsonSamplingAgent_get_action_returns (K : nat) (a : agent) :
  (1 ≤ K)%nat → well_formed K a →
  returns (λ r, (r.1 < K)%nat ∧ cls r.2 = cls a ∧ well_formed K r.2)
    (ThompsonSamplingAgent_get_action a).
Proof.
  intros HK Hwf. unfold ThompsonSamplingAgent_get_action.
  eapply returns_bind.
  - apply returns_for_each_prefix
      with (I := λ seen st, cls st.1 = cls a ∧ well_formed K st.1
                            ∧ length st.2 = length seen).
    + intros seen i [self theta] [rest Hrest] (Hcls & Hwf' & Hlen).
      assert (Hi : (i < K)%nat).
      { assert (Hin : i ∈ range (length (_successes a))).
        { rewrite Hrest. apply elem_of_app. right. left. }
        apply elem_of_seq in Hin. destruct Hwf. lia. }
      eapply returns_mono; [by apply thompson_round_returns|].
      intros [self' theta'] (Hc & Hw & Hl). cbn in *.
      rewrite length_app. cbn. split; [congruence|split; [done|lia]].
    + cbn. done.
  - intros [self theta] (Hcls & Hwf' & Hlen). cbn in *.
    destruct (argmax_lt (Fin <$> theta)) as (i & Hi & Hlt).
    { rewrite length_fmap, Hlen. unfold range. rewrite length_seq.
      destruct Hwf. lia. }
    rewrite Hi. cbn. constructor. cbn.
    rewrite length_fmap, Hlen in Hlt. unfold range in Hlt.
    rewrite length_seq in Hlt. destruct Hwf. split; [lia|done].
Qed.

Lemma get_action_returns `{Numpy} (K : nat) (a : agent) :
  (1 ≤ K)%nat → well_formed K a →
  returns (λ r, (r.1 < K)%nat ∧ cls r.2 = cls a ∧ well_formed K r.2)
    (get_action a).
Proof.
  intros HK Hwf. unfold get_action. destruct (cls a) eqn:Hcls.
  - eapply returns_mono; [by apply RandomAgent_get_action_returns|].
    intros [n a'] [Hn ->]. by rewrite Hcls.
  - eapply returns_mono; [by apply EpsilonGreedyAgent_get_action_returns|].
    intros [n a'] [Hn ->]. by rewrite Hcls.
  - eapply returns_mono; [by apply UCBAgent_get_action_returns|].
    intros [n a'] [Hn ->]. by rewrite Hcls.
  - eapply returns_mono; [by apply ThompsonSamplingAgent_get_action_returns|].
    intros [n a'] (Hn & Hc & Hw). cbn in *. by rewrite <- Hcls.
Qed.

Lemma update_Ret (K : nat) (a : agent) (action : nat) (reward : Qc) :
  well_formed K a → (action < K)%nat →
  ∃ a', update a action reward = Ret a' ∧ cls a' = cls a ∧ well_formed K a'.
Proof.
  intros [Hs Hf] Hlt.
  destruct (index_lt (_successes a) action) as (s & _ & Hsi); [lia|].
  destruct (index_lt (_failures a) action) as (f & _ & Hfi); [lia|].
  unfold update. cbn. case_bool_decide.
  - rewrite Hsi. cbn. eexists. split; [reflexivity|]. unfold well_formed. cbn.
    by rewrite length_insert.
  - rewrite Hfi. cbn. eexists. split; [reflexivity|]. unfold well_formed. cbn.
    by rewrite length_insert.
Qed.

Lemma name_cls `{Numpy} (a b : agent) : cls a = cls b → name a = name b.
Proof. unfold name. by intros ->. Qed.

(** ** Sums of regrets *)

Lemma sum_Qc_app (l1 l2 : list Qc) : sum_Qc (l1 ++ l2) = sum_Qc l1 + sum_Qc l2.
Proof.
  unfold sum_Qc. induction l1 as [|x l1 IH]; cbn.
  - by rewrite Qcplus_0_l.
  - rewrite IH. ring.
Qed.

Section credited.
Context `{Numpy}.
Variables (agents0 : list agent).

Lemma credited_snoc (h : list pull_event) (ev : pull_event) (key : string)
    (i : nat) :
  credited agents0 (h ++ [ev]) key i
  = credited agents0 h key i
    + (if decide (name <$> agents0 !! ev_agent ev = Some key ∧ ev_step ev = i)
       then regret_of ev else 0).
Proof.
  unfold credited. rewrite filter_app, fmap_app, sum_Qc_app. f_equal.
  rewrite filter_cons, filter_nil. case_decide; cbn; ring.
Qed.

End credited.

(** ** One turn of one agent *)

Section turn.
Context `{Numpy}.
Variables (e : BernoulliBandit) (agents0 : list agent) (n_steps : nat).

Lemma credit_Ret (trial i : nat) (optimal : Qc) (j : nat) (key : string)
    (reward x : Qc) (st : frame) (bucket : list npfloat) :
  scores st !! key = Some bucket → bucket !! i = Some (Fin x) →
  credit trial i optimal j key reward st
  = Ret (record
      (set_scores st
         (<[key := <[i := Fin (x + (optimal - reward))]> bucket]> (scores st)))
      {| ev_trial := trial; ev_step := i; ev_agent := j;
         ev_optimal := optimal; ev_reward := reward |}).
Proof.
  intros Hb Hx. unfold credit, getitem. rewrite Hb. cbn.
  by rewrite (index_Some _ _ _ Hx).
Qed.

(** Once the reward is known the turn ends without a draw, adds the pull
    to the history and keeps the invariant. *)
Lemma settle_Ret (keys : list (nat * nat * nat)) (st : frame)
    (trial i j action : nat) (optimal reward : Qc) (a0 a' : agent) :
  loop_inv e agents0 n_steps keys st → ready e st →
  agents0 !! j = Some a0 → (i < n_steps)%nat →
  cls a' = cls a0 → well_formed (action_count e) a' →
  (action < action_count e)%nat →
  np_max (_probs e) = inr optimal → (reward = 0 ∨ reward = 1) →
  ∃ st', settle trial i optimal j st action a' reward e = Ret st'
    ∧ history st' = history st ++
        [{| ev_trial := trial; ev_step := i; ev_agent := j;
            ev_optimal := optimal; ev_reward := reward |}]
    ∧ loop_inv e agents0 n_steps (keys ++ [(trial, i, j)]) st'
    ∧ ready e st'.
Proof.
  intros [Henv Hcls Hscores Hkeys Hevents] Hready Hj Hi Hcls' Hwf Hact Hopt Hrew.
  destruct (update_Ret _ a' action reward Hwf Hact) as (a'' & Hup & Hc'' & Hwf'').
  assert (Hname : name a'' = name a0) by (apply name_cls; congruence).
  assert (Hin : name a0 ∈ name <$> agents0).
  { apply list_elem_of_fmap. exists a0. split; [done|].
    by apply list_elem_of_lookup_2 with j. }
  destruct (Hscores _ Hin) as (bucket & Hb & Hlen & Hbucket).
  unfold settle. rewrite Hup. cbn. rewrite Hname.
  erewrite credit_Ret; [|exact Hb|by apply Hbucket].
  eexists. split; [reflexivity|].
  set (ev := {| ev_trial := trial; ev_step := i; ev_agent := j;
                ev_optimal := optimal; ev_reward := reward |}).
  split; [done|].
  split; [split|];
    cbn [history record set_scores set_agents set_env env agents scores].
  - done.
  - rewrite list_fmap_insert, Hcls. apply list_insert_id.
    rewrite list_lookup_fmap, Hj. cbn. congruence.
  - intros key Hkey. destruct (decide (key = name a0)) as [->|Hne].
    + rewrite lookup_insert_eq. eexists. split; [done|].
      split; [by rewrite length_insert|].
      intros i' Hi'. rewrite credited_snoc. cbn [ev_agent ev_step ev].
      destruct (decide (i' = i)) as [->|Hni].
      * rewrite list_lookup_insert_eq by lia.
        rewrite decide_True by (by rewrite Hj).
        done.
      * rewrite list_lookup_insert_ne by done.
        rewrite decide_False by (intros [_ ?]; congruence).
        rewrite Qcplus_0_r. by apply Hbucket.
    + rewrite lookup_insert_ne by done.
      destruct (Hscores _ Hkey) as (l & Hl & Hlen' & Hl').
      exists l. split; [done|]. split; [done|].
      intros i' Hi'. rewrite credited_snoc. cbn [ev_agent ev_step ev].
      rewrite decide_False; [rewrite Qcplus_0_r; by apply Hl'|].
      rewrite Hj. cbn. intros [? _]. congruence.
  - by rewrite fmap_app, Hkeys.
  - intros ev' [Hev'|Hev']%elem_of_app; [by apply Hevents|].
    apply list_elem_of_singleton in Hev' as ->. done.
  - unfold ready in *. by apply Forall_insert.
Qed.

End turn.

Section loops.
Context `{Numpy}.
Variables (e : BernoulliBandit) (agents0 : list agent) (n_steps : nat).
Hypothesis arms : (1 ≤ action_count e)%nat.

Lemma loop_inv_agent (keys : list (nat * nat * nat)) (st : frame) (j : nat)
    (a0 : agent) :
  loop_inv e agents0 n_steps keys st → agents0 !! j = Some a0 →
  ∃ a, agents st !! j = Some a ∧ cls a = cls a0.
Proof.
  intros [_ Hcls _ _ _] Hj.
  assert (Hl : (cls <$> agents st) !! j = Some (cls a0)).
  { by rewrite Hcls, list_lookup_fmap, Hj. }
  rewrite list_lookup_fmap in Hl.
  destruct (agents st !! j) as [a|]; simplify_eq/=. eauto.
Qed.

Lemma loop_inv_length (keys : list (nat * nat * nat)) (st : frame) :
  loop_inv e agents0 n_steps keys st → length (agents st) = length agents0.
Proof.
  intros [_ Hcls _ _ _]. by rewrite <- (length_fmap cls), Hcls, length_fmap.
Qed.

Lemma agent_turn_returns (keys : list (nat * nat * nat)) (st : frame)
    (trial i j : nat) (optimal : Qc) :
  loop_inv e agents0 n_steps keys st → ready e st →
  (j < length agents0)%nat → (i < n_steps)%nat →
  np_max (_probs e) = inr optimal →
  returns (λ st', loop_inv e agents0 n_steps (keys ++ [(trial, i, j)]) st'
                  ∧ ready e st')
    (agent_turn trial i optimal j st).
Proof.
  intros Hinv Hready Hj Hi Hopt.
  destruct (lookup_lt_is_Some_2 agents0 j Hj) as [a0 Ha0].
  destruct (loop_inv_agent _ _ _ _ Hinv Ha0) as (a & Ha & Hcls).
  assert (Hwf : well_formed (action_count e) a).
  { unfold ready in Hready. rewrite Forall_lookup in Hready. eauto. }
  unfold agent_turn. rewrite (index_Some _ _ _ Ha). prog_step.
  eapply returns_bind; [by apply get_action_returns|].
  intros [action a'] (Hact & Hcls' & Hwf'). cbn [fst snd] in *.
  rewrite (inv_env _ _ _ _ _ Hinv).
  destruct (index_lt (_probs e) action Hact) as (p & Hp & _).
  destruct (pull_Random e action p Hp) as (k & Hpull & Hk).
  rewrite Hpull. prog_step. constructor. intros u. rewrite Hk. prog_step.
  destruct (settle_Ret e agents0 n_steps keys st trial i j action optimal
              (if bool_decide (u ≤ p) then 1 else 0) a0 a')
    as (st' & Hst' & _ & Hinv' & Hready'); try done.
  { congruence. }
  { case_bool_decide; auto. }
  rewrite Hst'. by constructor.
Qed.

(** One step of a trial: a turn for each agent, in the order of the list. *)
Lemma step_body_returns (keys : list (nat * nat * nat)) (st : frame)
    (trial i : nat) :
  loop_inv e agents0 n_steps keys st → ready e st → (i < n_steps)%nat →
  returns (λ st', loop_inv e agents0 n_steps
                    (keys ++ step_visits (length agents0) trial i) st'
                  ∧ ready e st')
    (step_body trial i st).
Proof.
  intros Hinv Hready Hi. unfold step_body, optimal_reward.
  destruct (np_max (_probs e)) as [err|optimal] eqn:Hopt.
  { unfold np_max in Hopt. unfold action_count in arms.
    destruct (_probs e); [cbn in arms; lia | done]. }
  rewrite (inv_env _ _ _ _ _ Hinv), Hopt. prog_step.
  eapply returns_bind.
  - rewrite (loop_inv_length _ _ Hinv).
    apply returns_for_each_prefix
      with (I := λ seen st', loop_inv e agents0 n_steps
                   (keys ++ ((λ j, (trial, i, j)) <$> seen)) st'
                 ∧ ready e st').
    + intros seen j st' [rest Hrest] [Hinv' Hready'].
      rewrite fmap_app, app_assoc. apply agent_turn_returns; try done.
      assert (Hin : j ∈ range (length agents0)).
      { rewrite Hrest. apply elem_of_app. right. left. }
      apply elem_of_seq in Hin. lia.
    + rewrite app_nil_r. split; [|done].
      destruct Hinv. by split.
  - intros st' [Hinv' Hready']. unfold step. prog_step. constructor.
    split; [|done]. destruct Hinv' as [Henv ? ? ? ?]. split; try done.
Qed.

End loops.

Section evaluation.
Context `{Numpy}.
Variables (e : BernoulliBandit) (agents0 : list agent) (n_steps : nat).
Hypothesis arms : (1 ≤ action_count e)%nat.

Lemma trial_body_returns (keys : list (nat * nat * nat)) (st : frame)
    (trial : nat) :
  loop_inv e agents0 n_steps keys st →
  returns (loop_inv e agents0 n_steps
             (keys ++ trial_visits n_steps (length agents0) trial))
    (trial_body n_steps trial st).
Proof.
  intros Hinv. unfold trial_body, reset. prog_step.
  eapply returns_mono.
  - apply returns_for_each_prefix
      with (I := λ seen st', loop_inv e agents0 n_steps
                   (keys ++ (seen ≫= step_visits (length agents0) trial)) st'
                 ∧ ready e st').
    + intros seen i st' [rest Hrest] [Hinv' Hready'].
      rewrite bind_app, bind_singleton, app_assoc.
      apply step_body_returns; try done.
      assert (Hin : i ∈ range n_steps).
      { rewrite Hrest. apply elem_of_app. right. left. }
      apply elem_of_seq in Hin. lia.
    + cbn [mbind list_bind]. rewrite app_nil_r.
      destruct Hinv as [Henv Hcls Hscores Hkeys Hevents]. split; [split|]; cbn.
      * done.
      * rewrite <- Hcls, <- list_fmap_compose. by apply list_fmap_ext.
      * done.
      * done.
      * done.
      * unfold ready. cbn. apply Forall_fmap, Forall_true.
        intros a. unfold well_formed. cbn. rewrite !length_replicate.
        by rewrite Henv.
  - intros st' [Hinv' _]. done.
Qed.

Lemma new_scores_lookup (agents : list agent) (key : string) :
  key ∈ name <$> agents →
  new_scores agents n_steps !! key = Some (replicate n_steps (Fin 0)).
Proof.
  unfold new_scores. generalize (∅ : gmap string (list npfloat)).
  induction agents as [|a agents IH] using rev_ind; intros d Hkey.
  - by apply elem_of_nil in Hkey.
  - rewrite foldl_app. cbn. destruct (decide (key = name a)) as [->|Hne].
    + by rewrite lookup_insert_eq.
    + rewrite lookup_insert_ne by done. apply IH.
      rewrite fmap_app in Hkey. apply elem_of_app in Hkey as [Hkey|Hkey]; [done|].
      apply list_elem_of_singleton in Hkey. done.
Qed.

Lemma loop_inv_start :
  loop_inv e agents0 n_steps []
    {| env := e; agents := agents0; scores := new_scores agents0 n_steps;
       history := [] |}.
Proof.
  split; cbn; try done.
  - intros key Hkey. exists (replicate n_steps (Fin 0)).
    split; [by apply new_scores_lookup|]. split; [by rewrite length_replicate|].
    intros i Hi. by rewrite lookup_replicate_2.
  - intros ev Hev. by apply elem_of_nil in Hev.
Qed.

Lemma trials_return (n_trials : nat) :
  returns (loop_inv e agents0 n_steps (schedule n_trials n_steps (length agents0)))
    (for_each (range n_trials) (trial_body n_steps)
       {| env := e; agents := agents0; scores := new_scores agents0 n_steps;
          history := [] |}).
Proof.
  apply returns_for_each_prefix
    with (I := λ seen st, loop_inv e agents0 n_steps
                 (seen ≫= trial_visits n_steps (length agents0)) st).
  - intros seen trial st _ Hinv.
    rewrite bind_app, bind_singleton. by apply trial_body_returns.
  - apply loop_inv_start.
Qed.

Lemma times_named_snoc (key : string) (seen : list nat) (j : nat) :
  times_named agents0 key (seen ++ [j])
  = (times_named agents0 key seen
     + if decide (name <$> agents0 !! j = Some key) then 1 else 0)%nat.
Proof.
  unfold times_named. rewrite filter_app, length_app. f_equal.
  rewrite filter_cons, filter_nil. by case_decide.
Qed.

Lemma finish_returns (n_trials : nat) (seen : list nat) (j : nat) (st : frame) :
  finish_inv e agents0 n_steps n_trials seen st → (j < length agents0)%nat →
  returns (finish_inv e agents0 n_steps n_trials (seen ++ [j]))
    (finish n_trials j st).
Proof.
  intros [Hcls Hhist Hscores] Hj.
  destruct (lookup_lt_is_Some_2 agents0 j Hj) as [a0 Ha0].
  assert (Ha : ∃ a, agents st !! j = Some a ∧ cls a = cls a0).
  { assert (Hl : (cls <$> agents st) !! j = Some (cls a0)).
    { by rewrite Hcls, list_lookup_fmap, Ha0. }
    rewrite list_lookup_fmap in Hl.
    destruct (agents st !! j) as [a|]; simplify_eq/=. eauto. }
  destruct Ha as (a & Ha & Hca).
  assert (Hname : name a = name a0) by (by apply name_cls).
  assert (Hin : name a0 ∈ name <$> agents0).
  { apply list_elem_of_fmap. exists a0. split; [done|].
    by apply list_elem_of_lookup_2 with j. }
  destruct (Hscores _ Hin) as (l0 & Hlen0 & Hl0 & Hs0).
  unfold finish. rewrite (index_Some _ _ _ Ha). prog_step.
  rewrite Hname. unfold getitem. rewrite Hs0. prog_step. constructor.
  split; cbn [agents history scores set_scores]; try done.
  intros key Hkey. rewrite times_named_snoc, Ha0. cbn [fmap option_fmap option_map].
  destruct (decide (key = name a0)) as [->|Hne].
  - rewrite lookup_insert_eq. exists l0. split; [done|]. split; [done|].
    rewrite decide_True by done. by rewrite Nat.add_1_r.
  - rewrite lookup_insert_ne by done.
    destruct (Hscores _ Hkey) as (l & Hlen & Hl & Hs).
    exists l. split; [done|]. split; [done|].
    rewrite decide_False by congruence. by rewrite Nat.add_0_r.
Qed.

(** The whole evaluation: it raises nothing; the history is the record of
    every pull; and the entry of each name holds the per-step regrets of
    the agents of that name, cumulated and divided by the number of trials
    once for each agent of that name. *)
Lemma get_regret_frame_returns (n_trials : nat) :
  returns (finish_inv e agents0 n_steps n_trials (range (length agents0)))
    (get_regret_frame e agents0 n_steps n_trials).
Proof.
  unfold get_regret_frame. eapply returns_bind; [apply trials_return|].
  intros st [Henv Hcls Hscores Hkeys Hevents].
  apply returns_for_each_prefix
    with (I := finish_inv e agents0 n_steps n_trials).
  - intros seen j st' [rest Hrest] Hinv. apply finish_returns; [done|].
    assert (Hin : j ∈ range (length agents0)).
    { rewrite Hrest. apply elem_of_app. right. left. }
    apply elem_of_seq in Hin. lia.
  - split; [done|by split|].
    intros key Hkey. destruct (Hscores _ Hkey) as (l & Hl & Hlen & Hl').
    exists l. by repeat split.
Qed.

End evaluation.

(** ** Cumulated sums *)

Lemma w_map_fst {A B} (f : A → W B) (l : list A) :
  (w_map f l).1 = (λ x, (f x).1) <$> l.
Proof.
  induction l as [|x l IH]; [done|]. cbn. unfold w_bind. cbn.
  destruct (f x) as [y w]. cbn. destruct (w_map f l) as [ys w']. cbn in *.
  by rewrite IH.
Qed.

Lemma Qc_of_nat_nonzero (n : nat) : (1 ≤ n)%nat → Qc_of_nat n ≠ 0.
Proof.
  intros Hn Heq. pose proof (Qc_of_nat_pos n Hn) as Hpos.
  rewrite Heq in Hpos. by apply Qclt_not_eq in Hpos.
Qed.

Lemma true_divide_Fin (c : Qc) (n : nat) :
  (1 ≤ n)%nat → (true_divide (Fin c) (float_of_nat n)).1 = Fin (c / Qc_of_nat n).
Proof.
  intros Hn. unfold true_divide, float_of_nat.
  fold (Qc_of_nat n). by rewrite decide_False by (by apply Qc_of_nat_nonzero).
Qed.

Lemma cumsum_from_Fin (bs : list Qc) (acc : Qc) (t : nat) :
  (t < length bs)%nat →
  cumsum_from (Fin acc) (Fin <$> bs) !! t
  = Some (Fin (acc + sum_Qc (take (S t) bs))).
Proof.
  revert acc t. induction bs as [|b bs IH]; intros acc t Ht; cbn in Ht; [lia|].
  destruct t as [|t]; cbn.
  - rewrite take_0. unfold sum_Qc. cbn. do 2 f_equal. ring.
  - rewrite IH by lia. unfold sum_Qc. cbn. do 2 f_equal. ring.
Qed.

Lemma cumsum_Fin (bs : list Qc) (t : nat) :
  (t < length bs)%nat →
  cumsum (Fin <$> bs) !! t = Some (Fin (sum_Qc (take (S t) bs))).
Proof.
  destruct bs as [|b bs]; cbn; [lia|]. intros Ht. destruct t as [|t]; cbn.
  - rewrite take_0. unfold sum_Qc. cbn. do 2 f_equal. ring.
  - rewrite cumsum_from_Fin by lia. done.
Qed.

Lemma cumsum_length (l : list npfloat) : length (cumsum l) = length l.
Proof.
  destruct l as [|x l]; [done|]. cbn. f_equal.
  generalize x. induction l as [|y l IH]; intros acc; cbn; [done|].
  by rewrite IH.
Qed.

Lemma cumsum_over_length (n : nat) (l : list npfloat) :
  length (cumsum_over n l) = length l.
Proof. unfold cumsum_over. by rewrite w_map_length, cumsum_length. Qed.

Lemma cumsum_over_Fin (n : nat) (bs : list Qc) (t : nat) :
  (1 ≤ n)%nat → (t < length bs)%nat →
  cumsum_over n (Fin <$> bs) !! t
  = Some (Fin (sum_Qc (take (S t) bs) / Qc_of_nat n)).
Proof.
  intros Hn Ht. unfold cumsum_over.
  rewrite w_map_fst, list_lookup_fmap, cumsum_Fin by done.
  cbn [fmap option_fmap option_map]. by rewrite true_divide_Fin.
Qed.

Lemma pointwise_Fin (l : list npfloat) (n : nat) (b : nat → Qc) :
  length l = n → (∀ i, (i < n)%nat → l !! i = Some (Fin (b i))) →
  l = Fin <$> (b <$> range n).
Proof.
  intros Hlen Hl. apply list_eq. intros i.
  destruct (decide (i < n)%nat) as [Hi|Hi].
  - rewrite Hl by done. rewrite !list_lookup_fmap. unfold range.
    by rewrite lookup_seq_lt.
  - rewrite !lookup_ge_None_2; [done| |lia].
    rewrite !length_fmap. unfold range. rewrite length_seq. lia.
Qed.

Lemma take_fmap_range {A} (b : nat → A) (n t : nat) :
  (t ≤ n)%nat → take t (b <$> range n) = b <$> range t.
Proof.
  intros Ht. unfold range. rewrite <- fmap_take, take_seq. f_equal. f_equal. lia.
Qed.

Section sums.
Context (P : pull_event → Prop) `{!∀ ev, Decision (P ev)}.

Lemma regret_upto_S (h : list pull_event) (t : nat) :
  regret_upto P h (S t) = regret_upto P h t + regret_at P h (S t).
Proof.
  unfold regret_upto, regret_at. induction h as [|ev h IH]; [done|].
  rewrite !filter_cons.
  destruct (decide (P ev ∧ (ev_step ev ≤ S t)%nat)) as [[HP Hle]|Hn];
    destruct (decide (P ev ∧ (ev_step ev ≤ t)%nat)) as [[HP' Hle']|Hn'];
    destruct (decide (P ev ∧ ev_step ev = S t)) as [[HP'' Heq]|Hn''];
    try (exfalso; intuition lia);
    rewrite ?fmap_cons; unfold sum_Qc in *; cbn [foldr]; rewrite IH; ring.
Qed.

Lemma regret_upto_0 (h : list pull_event) :
  regret_upto P h 0 = regret_at P h 0.
Proof.
  unfold regret_upto, regret_at. do 2 f_equal. apply list_filter_iff.
  intros ev. split; intros [? ?]; split; (done || lia).
Qed.

Lemma sum_regret_at (h : list pull_event) (t : nat) :
  sum_Qc (regret_at P h <$> range (S t)) = regret_upto P h t.
Proof.
  induction t as [|t IH].
  - rewrite regret_upto_0. unfold sum_Qc. cbn. ring.
  - unfold range in *.
    rewrite seq_S, fmap_app, sum_Qc_app, IH, regret_upto_S.
    unfold sum_Qc. cbn. ring.
Qed.

End sums.

Lemma filter_none {A} (P : A → Prop) `{!∀ x, Decision (P x)} (l : list A) :
  (∀ x, x ∈ l → ¬ P x) → filter P l = [].
Proof.
  induction l as [|y l IH]; intros Hl; [done|].
  rewrite filter_cons_False by (apply Hl; left). apply IH.
  intros x Hx. apply Hl. by right.
Qed.

Lemma filter_unique {A} (P : A → Prop) `{!∀ x, Decision (P x)} (l : list A)
    (x : A) :
  NoDup l → x ∈ l → P x → (∀ y, y ∈ l → P y → y = x) →
  length (filter P l) = 1%nat.
Proof.
  intros Hnd. induction Hnd as [|y l Hy Hnd IH]; intros Hx HP Huniq.
  - by apply elem_of_nil in Hx.
  - apply elem_of_cons in Hx as [->|Hx].
    + rewrite filter_cons_True by done. cbn. f_equal.
      rewrite filter_none; [done|]. intros z Hz HPz.
      assert (z = y) as -> by (apply Huniq; [by right|done]). done.
    + rewrite filter_cons_False.
      * apply IH; [done|done|]. intros z Hz. apply Huniq. by right.
      * intros HPy. assert (y = x) as -> by (apply Huniq; [left|done]). done.
Qed.

(** ** The regret curves *)

Section curves.
Context `{Numpy}.
Variables (e : BernoulliBandit) (agents0 : list agent) (n_steps n_trials : nat).
Hypothesis distinct : NoDup (name <$> agents0).

Lemma same_name_same_agent (j j' : nat) (a : agent) :
  agents0 !! j = Some a →
  name <$> agents0 !! j' = Some (name a) ↔ j' = j.
Proof.
  intros Hj. split; [|intros ->; by rewrite Hj].
  intros Hj'. apply (NoDup_lookup (name <$> agents0) j' j (name a)); [done| |].
  - by rewrite list_lookup_fmap.
  - by rewrite list_lookup_fmap, Hj.
Qed.

Lemma times_named_once (j : nat) (a : agent) :
  agents0 !! j = Some a →
  times_named agents0 (name a) (range (length agents0)) = 1%nat.
Proof.
  intros Hj. unfold times_named.
  apply filter_unique with (x := j).
  - apply NoDup_seq.
  - apply elem_of_seq. apply lookup_lt_Some in Hj. lia.
  - by rewrite Hj.
  - intros j' _ Hj'. by apply (same_name_same_agent j j' a).
Qed.

Lemma finish_inv_regret_curves (st : frame) :
  (1 ≤ n_trials)%nat →
  finish_inv e agents0 n_steps n_trials (range (length agents0)) st →
  regret_curves agents0 n_steps n_trials (history st) (scores st).
Proof.
  intros Hn [_ _ Hscores] j a Hj.
  assert (Hin : name a ∈ name <$> agents0).
  { apply list_elem_of_fmap. exists a. split; [done|].
    by apply list_elem_of_lookup_2 with j. }
  destruct (Hscores _ Hin) as (l & Hlen & Hl & Hs).
  rewrite (times_named_once j a Hj) in Hs. cbn [Nat.iter nat_rect] in Hs.
  exists (cumsum_over n_trials l). split; [done|].
  split; [by rewrite cumsum_over_length|].
  intros t Ht.
  rewrite (pointwise_Fin l n_steps _ Hlen Hl).
  rewrite cumsum_over_Fin; [|done|]; last first.
  { rewrite length_fmap. unfold range. rewrite length_seq. lia. }
  rewrite take_fmap_range by lia. unfold mean_cumulative_regret.
  do 3 f_equal.
  etrans; [apply (sum_regret_at
    (λ ev, name <$> agents0 !! ev_agent ev = Some (name a)))|].
  unfold regret_upto.
  unfold pulls_upto. do 2 f_equal. apply list_filter_iff.
  intros ev. by rewrite (same_name_same_agent j (ev_agent ev) a Hj).
Qed.

End curves.

(** C1, for agents with different names.  On every random source whose
    [randint] respects its bounds, for an environment with at least one arm
    and at least one trial, [get_regret] returns; the pulls it has made are
    one per trial, step and agent, each against the best arm and rewarded
    0 or 1; and the mapping it returns gives, for each agent, [n_steps]
    values, the one at [t] being (1/N) times the sum over all trials and
    all steps [i <= t] of [optimal_reward - reward] of that agent. *)
Theorem get_regret_mean_cumulative_regret `{Numpy} {G} (R : rng G) (g : G)
    (e : BernoulliBandit) (agents0 : list agent) (n_steps n_trials : nat) :
  rng_ok R →
  (1 ≤ action_count e)%nat → (1 ≤ n_trials)%nat →
  NoDup (name <$> agents0) →
  ∃ st g',
    run R (get_regret_frame e agents0 n_steps n_trials) g = inr (st, g')
    ∧ run R (get_regret e agents0 n_steps n_trials) g = inr (scores st, g')
    ∧ complete_history e (length agents0) n_steps n_trials (history st)
    ∧ regret_curves agents0 n_steps n_trials (history st) (scores st).
Proof.
  intros HR HK HN Hnd.
  destruct (returns_run R _ _ g HR
              (get_regret_frame_returns e agents0 n_steps HK n_trials))
    as (st & g' & Hrun & Hfin).
  exists st, g'. split; [done|]. split.
  - unfold get_regret. by rewrite run_bind, Hrun.
  - split; [by destruct Hfin|]. by apply (finish_inv_regret_curves e).
Qed.

Lemma demo_rng_ok : rng_ok demo_rng.
Proof.
  intros lo hi g Hlt. cbn.
  pose proof (Nat.mod_upper_bound g (hi - lo)). lia.
Qed.

Lemma get_regret_mean_cumulative_regret_witness :
  ∃ st g',
    run demo_rng
      (get_regret_frame (H := demo_numpy) {| _probs := [half; 1] |}
         [fresh RandomAgent; fresh ThompsonSamplingAgent; fresh UCBAgent;
          fresh (EpsilonGreedyAgent half)] 3 2) 0%nat = inr (st, g')
    ∧ run demo_rng
        (get_regret (H := demo_numpy) {| _probs := [half; 1] |}
           [fresh RandomAgent; fresh ThompsonSamplingAgent; fresh UCBAgent;
            fresh (EpsilonGreedyAgent half)] 3 2) 0%nat = inr (scores st, g')
    ∧ complete_history {| _probs := [half; 1] |} 4 3 2 (history st)
    ∧ regret_curves (H := demo_numpy)
        [fresh RandomAgent; fresh ThompsonSamplingAgent; fresh UCBAgent;
         fresh (EpsilonGreedyAgent half)] 3 2 (history st) (scores st).
Proof.
  apply (get_regret_mean_cumulative_regret (H := demo_numpy) demo_rng 0%nat
           {| _probs := [half; 1] |}
           [fresh RandomAgent; fresh ThompsonSamplingAgent; fresh UCBAgent;
            fresh (EpsilonGreedyAgent half)] 3 2).
  - exact demo_rng_ok.
  - cbn. lia.
  - lia.
  - apply (bool_decide_unpack _). vm_compute. reflexivity.
Defined.

(** C1, as the claim has it, fails for two agents of the same name: they
    share one entry of [scores].  With one arm of probability 1/2, one step
    and one trial, the first [RandomAgent] is rewarded (regret -1/2), the
    second is not (regret 1/2), and the value returned for the name is 0,
    not -1/2. *)
Lemma get_regret_shared_name :
  ∃ st g',
    run demo_rng
      (get_regret_frame (H := demo_numpy) {| _probs := [half] |}
         [fresh RandomAgent; fresh RandomAgent] 1 1) 0%nat = inr (st, g')
    ∧ scores st !! "RandomAgent" = Some [Fin 0]
    ∧ mean_cumulative_regret 1 (history st) 0 0 = - half
    ∧ ¬ regret_curves (H := demo_numpy) [fresh RandomAgent; fresh RandomAgent]
          1 1 (history st) (scores st).
Proof.
  eexists. eexists. split; [vm_compute; reflexivity|].
  assert (Hmean : mean_cumulative_regret 1
    [ {| ev_trial := 0; ev_step := 0; ev_agent := 0;
         ev_optimal := half; ev_reward := 1 |};
      {| ev_trial := 0; ev_step := 0; ev_agent := 1;
         ev_optimal := half; ev_reward := 0 |} ] 0 0 = - half).
  { apply Qc_is_canon. vm_compute. reflexivity. }
  split; [vm_compute; reflexivity|]. split.
  - etrans; [|exact Hmean]. apply Qc_is_canon. vm_compute. reflexivity.
  - intros Hcurves.
    destruct (Hcurves 0%nat (fresh RandomAgent) eq_refl) as (l & Hl & _ & Hval).
    specialize (Hval 0%nat (Nat.lt_0_1)).
    vm_compute in Hl. injection Hl as <-.
    vm_compute in Hval. discriminate.
Qed.

(** C2, as the code has it: [reset] draws nothing and returns the
    environment with the probabilities it had, and [step] likewise; a trial
    is the step loop run on the environment as the trial found it (with the
    agents' counters cleared); so, with at least one arm, every pull of
    every trial of [get_regret] is made against the best arm of the
    probabilities the environment was given when it was built. *)
Theorem reset_keeps_probs `{Numpy} (e : BernoulliBandit) (l : list agent)
    (d : gmap string (list npfloat)) (h : list pull_event)
    (n_steps n_trials trial : nat) :
  (1 ≤ action_count e)%nat →
  reset e = Ret e
  ∧ step e = Ret e
  ∧ trial_body n_steps trial
      {| env := e; agents := l; scores := d; history := h |}
    = for_each (range n_steps) (step_body trial)
        {| env := e;
           agents := (λ a, init_actions a (action_count e)) <$> l;
           scores := d; history := h |}
  ∧ returns
      (λ st, ∀ ev, ev ∈ history st → np_max (_probs e) = inr (ev_optimal ev))
      (get_regret_frame e l n_steps n_trials).
Proof.
  intros HK. split; [done|]. split; [done|]. split; [done|].
  eapply returns_mono; [by apply get_regret_frame_returns|].
  intros st [_ [_ Hevents] _] ev Hev. by apply Hevents.
Qed.

Lemma reset_keeps_probs_witness :
  reset {| _probs := [half; 1] |} = Ret {| _probs := [half; 1] |}
  ∧ returns
      (λ st, ∀ ev, ev ∈ history st → ev_optimal ev = 1)
      (get_regret_frame (H := demo_numpy) {| _probs := [half; 1] |}
         [fresh RandomAgent] 2 2).
Proof.
  destruct (reset_keeps_probs (H := demo_numpy) {| _probs := [half; 1] |}
              [fresh RandomAgent] ∅ [] 2 2 0) as (Hreset & _ & _ & Hret).
  - cbn. lia.
  - split; [exact Hreset|]. eapply returns_mono; [exact Hret|].
    intros st Hst ev Hev. specialize (Hst ev Hev).
    assert (Hmax : np_max (_probs {| _probs := [half; 1] |}) = inr 1)
      by reflexivity.
    congruence.
Defined.

(** C2, as the claim has it, fails: resetting an environment with one arm
    is not the program that draws a probability for it. *)
Lemma reset_does_not_redraw :
  reset {| _probs := [half] |} ≠ BernoulliBandit_init 1
  ∧ run demo_rng (reset {| _probs := [half] |}) 5%nat
    = inr ({| _probs := [half] |}, 5%nat)
  ∧ run demo_rng (BernoulliBandit_init 1) 5%nat
    = inr ({| _probs := [Q2Qc (5 # 16)] |}, 12%nat).
Proof. split; [discriminate|]. split; reflexivity. Qed.

(** ** Configurations with nothing to evaluate *)

Lemma cumsum_from_zeros (n : nat) :
  cumsum_from (Fin 0) (replicate n (Fin 0)) = replicate n (Fin 0).
Proof.
  induction n as [|n IH]; [done|]. cbn [replicate cumsum_from np_add fst].
  rewrite Qcplus_0_l. cbn zeta. by rewrite IH.
Qed.

Lemma cumsum_from_nans (n : nat) :
  cumsum_from NaN (replicate n NaN) = replicate n NaN.
Proof. induction n as [|n IH]; [done|]. cbn. by rewrite IH. Qed.

Lemma divide_all_replicate (n_trials n : nat) (x y : npfloat) :
  (true_divide x (float_of_nat n_trials)).1 = y →
  (w_map (λ x, true_divide x (float_of_nat n_trials)) (replicate n x)).1
  = replicate n y.
Proof. intros Hxy. rewrite w_map_fst, fmap_replicate. by rewrite Hxy. Qed.

(** Without steps there is nothing to cumulate; without trials every value
    is 0/0 or nan/0. *)
Lemma cumsum_over_degenerate (n_steps n_trials : nat) (x : npfloat) :
  (n_steps = 0 ∨ n_trials = 0)%nat → x = Fin 0 ∨ x = NaN →
  cumsum_over n_trials (replicate n_steps x) = replicate n_steps NaN.
Proof.
  intros [->| ->] Hx; [done|]. unfold cumsum_over.
  assert (Hcum : cumsum (replicate n_steps x) = replicate n_steps x).
  { destruct n_steps as [|n]; [done|]. cbn. f_equal.
    destruct Hx as [-> | ->]; [apply cumsum_from_zeros|apply cumsum_from_nans]. }
  rewrite Hcum. apply divide_all_replicate.
  destruct Hx as [-> | ->]; reflexivity.
Qed.

Section degenerate.
Context `{Numpy}.
Variables (e : BernoulliBandit) (agents0 : list agent) (n_steps n_trials : nat).

Lemma trials_degenerate :
  (n_steps = 0 ∨ n_trials = 0)%nat →
  returns (λ st, cls <$> agents st = cls <$> agents0
                 ∧ scores st = new_scores agents0 n_steps)
    (for_each (range n_trials) (trial_body n_steps)
       {| env := e; agents := agents0; scores := new_scores agents0 n_steps;
          history := [] |}).
Proof.
  intros Hdeg. apply returns_for_each; [|done].
  intros trial st Htrial [Hcls Hscores].
  destruct Hdeg as [-> | ->]; [|by apply elem_of_nil in Htrial].
  cbn. constructor. cbn. split; [|done].
  rewrite <- Hcls, <- list_fmap_compose. by apply list_fmap_ext.
Qed.

Lemma finish_degenerate (st : frame) :
  (n_steps = 0 ∨ n_trials = 0)%nat →
  cls <$> agents st = cls <$> agents0 →
  scores st = new_scores agents0 n_steps →
  returns (λ st', ∀ a, a ∈ agents0 →
                    scores st' !! name a = Some (replicate n_steps NaN))
    (for_each (range (length agents0)) (finish n_trials) st).
Proof.
  intros Hdeg Hcls Hscores.
  pose (I := λ (seen : list nat) (st' : frame),
    cls <$> agents st' = cls <$> agents0
    ∧ (∀ key, key ∈ name <$> agents0 →
         scores st' !! key = Some (replicate n_steps (Fin 0))
         ∨ scores st' !! key = Some (replicate n_steps NaN))
    ∧ ∀ j a, j ∈ seen → agents0 !! j = Some a →
        scores st' !! name a = Some (replicate n_steps NaN)).
  eapply returns_mono.
  - apply returns_for_each_prefix with (I := I).
    + intros seen j st' [rest Hrest] (Hcls' & Hall & Hseen).
      assert (Hj : (j < length agents0)%nat).
      { assert (Hin : j ∈ range (length agents0)).
        { rewrite Hrest. apply elem_of_app. right. left. }
        apply elem_of_seq in Hin. lia. }
      destruct (lookup_lt_is_Some_2 agents0 j Hj) as [a0 Ha0].
      assert (Ha : ∃ a, agents st' !! j = Some a ∧ cls a = cls a0).
      { assert (Hl : (cls <$> agents st') !! j = Some (cls a0)).
        { by rewrite Hcls', list_lookup_fmap, Ha0. }
        rewrite list_lookup_fmap in Hl.
        destruct (agents st' !! j) as [a|]; simplify_eq/=. eauto. }
      destruct Ha as (a & Ha & Hca).
      assert (Hname : name a = name a0) by (by apply name_cls).
      assert (Hin : name a0 ∈ name <$> agents0).
      { apply list_elem_of_fmap. exists a0. split; [done|].
        by apply list_elem_of_lookup_2 with j. }
      assert (Hnew : ∃ l, scores st' !! name a0 = Some l
                ∧ cumsum_over n_trials l = replicate n_steps NaN).
      { destruct (Hall _ Hin) as [Hl|Hl]; eexists; (split; [exact Hl|]);
          apply cumsum_over_degenerate; auto. }
      destruct Hnew as (l & Hl & Hcum).
      unfold finish. rewrite (index_Some _ _ _ Ha). prog_step.
      rewrite Hname. unfold getitem. rewrite Hl. prog_step. constructor.
      rewrite Hcum. split; [done|]. split; cbn [scores set_scores].
      * intros key Hkey. destruct (decide (key = name a0)) as [->|Hne].
        -- right. by rewrite lookup_insert_eq.
        -- rewrite lookup_insert_ne by done. by apply Hall.
      * intros j' a' [Hj'|Hj']%elem_of_app Ha'.
        -- destruct (decide (name a' = name a0)) as [->|Hne].
           ++ by rewrite lookup_insert_eq.
           ++ rewrite lookup_insert_ne by done. by apply (Hseen j').
        -- apply list_elem_of_singleton in Hj' as ->.
           assert (a' = a0) as -> by congruence. by rewrite lookup_insert_eq.
    + split; [done|]. split.
      * intros key Hkey. left. rewrite Hscores. by apply new_scores_lookup.
      * intros j a Hj. by apply elem_of_nil in Hj.
  - intros st' (_ & _ & Hseen) a Ha.
    apply list_elem_of_lookup in Ha as [j Hj].
    apply (Hseen j a); [|done].
    apply elem_of_seq. apply lookup_lt_Some in Hj. lia.
Qed.

End degenerate.

(** C6, as the code has it: no configuration is checked.  Without steps or
    without trials [get_regret] raises nothing and returns, for every agent,
    [n_steps] values that are all nan (none at all when there is no step);
    with steps and trials but no arm it stops at the first step, on the
    ValueError of [np.max] applied to the empty array of probabilities. *)
Theorem get_regret_unvalidated `{Numpy} (e : BernoulliBandit)
    (agents0 : list agent) (n_steps n_trials : nat) :
  (action_count e = 0 ∨ n_steps = 0 ∨ n_trials = 0)%nat →
  if decide (n_steps = 0 ∨ n_trials = 0)%nat
  then returns (λ d, ∀ a, a ∈ agents0 →
                  d !! name a = Some (replicate n_steps NaN))
         (get_regret e agents0 n_steps n_trials)
  else get_regret e agents0 n_steps n_trials
       = Raise (ValueError
           "zero-size array to reduction operation maximum which has no identity").
Proof.
  intros Hbad. destruct (decide (n_steps = 0 ∨ n_trials = 0)%nat) as [Hdeg|Hok].
  - unfold get_regret, get_regret_frame.
    eapply returns_bind; [|intros st Hst; constructor; exact Hst].
    eapply returns_bind; [by apply trials_degenerate|].
    intros st [Hcls Hscores]. by apply finish_degenerate.
  - destruct Hbad as [HK|Hbad]; [|done].
    destruct n_steps as [|T]; [exfalso; auto|].
    destruct n_trials as [|N]; [exfalso; auto|].
    destruct e as [probs]. destruct probs as [|p probs]; [|done].
    reflexivity.
Qed.

Lemma get_regret_unvalidated_witness :
  returns (λ d, ∀ a, a ∈ [fresh UCBAgent; fresh RandomAgent] →
             d !! name (H := demo_numpy) a = Some (replicate 2 NaN))
    (get_regret (H := demo_numpy) {| _probs := [half] |}
       [fresh UCBAgent; fresh RandomAgent] 2 0).
Proof.
  apply (get_regret_unvalidated (H := demo_numpy) {| _probs := [half] |}
           [fresh UCBAgent; fresh RandomAgent] 2 0).
  right. right. reflexivity.
Defined.

(** C6, as the claim has it, fails: an environment without arms is built
    without an error, and an evaluation without steps or without trials
    returns a mapping (of empty or of nan sequences) instead of failing. *)
Lemma get_regret_accepts_empty_configuration :
  BernoulliBandit_init 0 = Ret {| _probs := [] |}
  ∧ get_regret (H := demo_numpy) {| _probs := [] |} [fresh RandomAgent] 0 0
    = Ret {[ "RandomAgent" := [] ]}
  ∧ get_regret (H := demo_numpy) {| _probs := [half] |} [fresh RandomAgent] 0 3
    = Ret {[ "RandomAgent" := [] ]}
  ∧ get_regret (H := demo_numpy) {| _probs := [half] |} [fresh RandomAgent] 2 0
    = Ret {[ "RandomAgent" := [NaN; NaN] ]}.
Proof. repeat split; vm_compute; reflexivity. Qed.

(** ** Expected values *)

Lemma sum_Qc_le (l1 l2 : list Qc) : Forall2 Qcle l1 l2 → sum_Qc l1 ≤ sum_Qc l2.
Proof.
  unfold sum_Qc. induction 1 as [|x y l1 l2 Hxy _ IH]; cbn.
  - apply Qcle_refl.
  - by apply Qcplus_le_compat.
Qed.

Lemma sum_Qc_nonneg (l : list Qc) : Forall (Qcle 0) l → 0 ≤ sum_Qc l.
Proof.
  unfold sum_Qc. induction 1 as [|x l Hx _ IH]; cbn.
  - apply Qcle_refl.
  - by apply Qcplus_nonneg_nonneg.
Qed.

Lemma sum_Qc_plus {A} (f g : A → Qc) (l : list A) :
  sum_Qc ((λ x, f x + g x) <$> l) = sum_Qc (f <$> l) + sum_Qc (g <$> l).
Proof.
  unfold sum_Qc. induction l as [|x l IH]; cbn.
  - ring.
  - rewrite IH. ring.
Qed.

Lemma sum_Qc_scale {A} (c : Qc) (f : A → Qc) (l : list A) :
  sum_Qc ((λ x, c * f x) <$> l) = c * sum_Qc (f <$> l).
Proof.
  unfold sum_Qc. induction l as [|x l IH]; cbn.
  - ring.
  - rewrite IH. ring.
Qed.

Lemma sum_Qc_const {A} (c : Qc) (l : list A) :
  sum_Qc ((λ _, c) <$> l) = Qc_of_nat (length l) * c.
Proof.
  unfold sum_Qc. induction l as [|x l IH]; cbn [fmap list_fmap foldr length].
  - unfold Qc_of_nat. change (Z.of_nat 0) with 0%Z. rewrite Z2Qc_inj_0. ring.
  - rewrite IH. unfold Qc_of_nat. rewrite Nat2Z.inj_succ, <- Z.add_1_r.
    rewrite Z2Qc_inj_add, Z2Qc_inj_1. ring.
Qed.

Lemma Qc_of_nat_nonneg (n : nat) : 0 ≤ Qc_of_nat n.
Proof.
  unfold Qc_of_nat. rewrite <- Z2Qc_inj_0.
  apply (proj1 (Z2Qc_inj_le 0 (Z.of_nat n))). lia.
Qed.

Lemma Qcinv_nonneg (x : Qc) : 0 ≤ x → 0 ≤ / x.
Proof.
  intros Hx. destruct (Qcle_lt_or_eq _ _ Hx) as [Hpos|<-].
  - by apply Qclt_le_weak, Qcinv_pos.
  - done.
Qed.

Lemma Qcdiv_le_nat (x y : Qc) (n : nat) :
  x ≤ y → x / Qc_of_nat n ≤ y / Qc_of_nat n.
Proof.
  intros Hxy. apply Qcmult_le_compat_r; [done|].
  apply Qcinv_nonneg, Qc_of_nat_nonneg.
Qed.

Lemma mean_le (l1 l2 : list Qc) : Forall2 Qcle l1 l2 → mean l1 ≤ mean l2.
Proof.
  intros Hl. unfold mean. rewrite (Forall2_length _ _ _ Hl).
  by apply Qcdiv_le_nat, sum_Qc_le.
Qed.

Lemma mean_const {A} (c : Qc) (l : list A) :
  (0 < length l)%nat → mean ((λ _, c) <$> l) = c.
Proof.
  intros Hl. unfold mean. rewrite sum_Qc_const, length_fmap.
  field. apply Qc_of_nat_nonzero. lia.
Qed.

Section expect.
Variables (L : laws).
Hypothesis random_law : integral (law_random L).
Hypothesis beta_laws : ∀ a b, integral (law_beta L a b).

Lemma integral_const (I : (Qc → Qc) → Qc) (c : Qc) :
  integral I → I (λ _, c) = c.
Proof.
  intros HI. rewrite (int_ext I HI _ (λ x, c * (λ _, 1) x)).
  - rewrite (int_scale I HI), (int_one I HI). ring.
  - intros x. ring.
Qed.

Lemma expect_bind {A B} (m : prog A) (f : A → prog B) (φ : B → Qc) :
  expect L (m ≫= f) φ = expect L m (λ a, expect L (f a) φ).
Proof.
  induction m as [a|err|k IH|lo hi k IH|a b k IH]; cbn.
  - done.
  - done.
  - by apply (int_ext _ random_law).
  - f_equal. by apply list_fmap_ext.
  - by apply (int_ext _ (beta_laws a b)).
Qed.

Lemma expect_mono {A} (P : A → Prop) (m : prog A) (φ ψ : A → Qc) :
  returns P m → (∀ a, P a → φ a ≤ ψ a) → expect L m φ ≤ expect L m ψ.
Proof.
  intros Hm Hle. induction Hm as [a Ha|k _ IH|lo hi k Hlt _ IH|a b k _ IH]; cbn.
  - by apply Hle.
  - by apply (int_mono _ random_law).
  - apply mean_le. apply Forall2_fmap, Forall_Forall2_diag, Forall_forall.
    intros n Hn. apply IH. apply elem_of_seq in Hn. lia.
  - by apply (int_mono _ (beta_laws a b)).
Qed.

Lemma expect_ext {A} (P : A → Prop) (m : prog A) (φ ψ : A → Qc) :
  returns P m → (∀ a, P a → φ a = ψ a) → expect L m φ = expect L m ψ.
Proof.
  intros Hm Heq. apply Qcle_antisym.
  - apply (expect_mono P); [done|]. intros a Ha. rewrite (Heq a Ha).
    apply Qcle_refl.
  - apply (expect_mono P); [done|]. intros a Ha. rewrite (Heq a Ha).
    apply Qcle_refl.
Qed.

Lemma expect_const {A} (P : A → Prop) (m : prog A) (c : Qc) :
  returns P m → expect L m (λ _, c) = c.
Proof.
  intros Hm. induction Hm as [a Ha|k _ IH|lo hi k Hlt _ IH|a b k _ IH]; cbn.
  - done.
  - rewrite (int_ext _ random_law _ (λ _, c)) by done.
    by apply integral_const.
  - erewrite list_fmap_ext; [apply mean_const; rewrite length_seq; lia|].
    intros i n Hn. apply IH. apply lookup_seq in Hn. lia.
  - rewrite (int_ext _ (beta_laws a b) _ (λ _, c)) by done.
    by apply integral_const.
Qed.

Lemma expect_plus {A} (P : A → Prop) (m : prog A) (φ ψ : A → Qc) :
  returns P m →
  expect L m (λ a, φ a + ψ a) = expect L m φ + expect L m ψ.
Proof.
  intros Hm. induction Hm as [a Ha|k _ IH|lo hi k Hlt _ IH|a b k _ IH]; cbn.
  - done.
  - rewrite <- (int_plus _ random_law). by apply (int_ext _ random_law).
  - unfold mean. rewrite !length_fmap. unfold Qcdiv.
    rewrite <- Qcmult_plus_distr_l, <- sum_Qc_plus. do 2 f_equal.
    apply list_fmap_ext. intros i n Hn. apply IH. apply lookup_seq in Hn. lia.
  - rewrite <- (int_plus _ (beta_laws a b)). by apply (int_ext _ (beta_laws a b)).
Qed.

Lemma expect_scale {A} (m : prog A) (c : Qc) (φ : A → Qc) :
  expect L m (λ a, c * φ a) = c * expect L m φ.
Proof.
  induction m as [a|err|k IH|lo hi k IH|a b k IH]; cbn.
  - done.
  - ring.
  - rewrite <- (int_scale _ random_law). by apply (int_ext _ random_law).
  - unfold mean. rewrite !length_fmap.
    rewrite (list_fmap_ext _ (λ n, c * expect L (k n) φ) (seq lo (hi - lo)))
      by (intros; apply IH).
    rewrite sum_Qc_scale. unfold Qcdiv. ring.
  - rewrite <- (int_scale _ (beta_laws a b)).
    by apply (int_ext _ (beta_laws a b)).
Qed.

Lemma expect_sum {A I} (P : A → Prop) (m : prog A) (f : I → A → Qc)
    (l : list I) :
  returns P m →
  expect L m (λ a, sum_Qc ((λ i, f i a) <$> l))
  = sum_Qc ((λ i, expect L m (f i)) <$> l).
Proof.
  intros Hm. induction l as [|i l IH].
  - cbn. by apply (expect_const P).
  - cbn [fmap list_fmap]. unfold sum_Qc in *. cbn [foldr].
    rewrite (expect_plus P) by done. by rewrite IH.
Qed.

(** A loop whose rounds do not lower the expected value of [φ] does not
    lower it either. *)
Lemma expect_for_each {A S} (I : S → Prop) (φ : S → Qc) (l : list A)
    (body : A → S → prog S) (s : S) :
  (∀ x s, x ∈ l → I s → returns I (body x s)) →
  (∀ x s, x ∈ l → I s → φ s ≤ expect L (body x s) φ) →
  I s → φ s ≤ expect L (for_each l body s) φ.
Proof.
  revert s. induction l as [|x l IH]; intros s Hret Hle Hs; cbn.
  - apply Qcle_refl.
  - change (φ s ≤ expect L (body x s ≫= for_each l body) φ).
    rewrite expect_bind.
    eapply Qcle_trans; [apply (Hle x s); [left|done]|].
    apply (expect_mono I); [apply Hret; [left|done]|].
    intros s' Hs'. apply IH; [| |done].
    + intros y t Hy. apply Hret. by right.
    + intros y t Hy. apply Hle. by right.
Qed.

End expect.

Lemma foldl_max_ge (l : list Qc) (x : Qc) :
  let m := foldl (λ m y, if bool_decide (m < y) then y else m) x l in
  x ≤ m ∧ ∀ y, y ∈ l → y ≤ m.
Proof.
  revert x. induction l as [|z l IH]; intros x; cbn.
  - split; [apply Qcle_refl|]. intros y Hy. by apply elem_of_nil in Hy.
  - case_bool_decide as Hlt.
    + destruct (IH z) as [Hz Hl]. split.
      * eapply Qcle_trans; [by apply Qclt_le_weak|done].
      * intros y [->|Hy]%elem_of_cons; [done|by apply Hl].
    + destruct (IH x) as [Hx Hl]. split; [done|].
      intros y [->|Hy]%elem_of_cons; [|by apply Hl].
      eapply Qcle_trans; [by apply Qcnot_lt_le|done].
Qed.

(** No arm pays more, in the mean, than [optimal_reward] says. *)
Lemma np_max_ge (l : list Qc) (m p : Qc) :
  np_max l = inr m → p ∈ l → p ≤ m.
Proof.
  destruct l as [|x l]; [done|]. cbn. intros [= <-] Hp.
  destruct (foldl_max_ge l x) as [Hx Hl].
  apply elem_of_cons in Hp as [->|Hp]; [done|by apply Hl].
Qed.

Section submartingale.
Context `{Numpy}.
Variables (L : laws) (e : BernoulliBandit) (agents0 : list agent).
Variables (n_steps : nat) (key : string) (s : nat).
Hypothesis arms : (1 ≤ action_count e)%nat.
Hypothesis draws : fair L e.

Local Abbreviation φ := (credit_at agents0 key s).
Local Abbreviation in_trial := (in_trial e agents0 n_steps).
Local Abbreviation random_law := (fair_random L e draws).
Local Abbreviation beta_laws := (fair_beta L e draws).

Lemma integral_affine (I : (Qc → Qc) → Qc) (c d : Qc) (f : Qc → Qc) :
  integral I → I (λ u, c + d * f u) = c + d * I f.
Proof.
  intros HI. rewrite (int_plus I HI (λ _, c) (λ u, d * f u)).
  by rewrite (integral_const I c HI), (int_scale I HI).
Qed.

(** The turn of an agent does not lower the expected credit: the pull pays
    1 with the probability of the chosen arm, which is at most the best. *)
Lemma agent_turn_expect (st : frame) (trial i j : nat) (optimal : Qc) :
  in_trial st → (j < length agents0)%nat → (i < n_steps)%nat →
  np_max (_probs e) = inr optimal →
  φ st ≤ expect L (agent_turn trial i optimal j st) φ.
Proof.
  intros [[keys Hinv] Hready] Hj Hi Hopt.
  destruct (lookup_lt_is_Some_2 agents0 j Hj) as [a0 Ha0].
  destruct (loop_inv_agent _ _ _ _ _ _ _ Hinv Ha0) as (a & Ha & Hcls).
  assert (Hwf : well_formed (action_count e) a).
  { unfold ready in Hready. rewrite Forall_lookup in Hready. eauto. }
  unfold agent_turn. rewrite (index_Some _ _ _ Ha). prog_step.
  rewrite (expect_bind L random_law beta_laws).
  pose proof (get_action_returns _ a arms Hwf) as Hget.
  rewrite <- (expect_const L random_law beta_laws _ _ (φ st) Hget) at 1.
  apply (expect_mono L random_law beta_laws _ _ _ _ Hget).
  intros [action a'] (Hact & Hcls' & Hwf'). cbn [fst snd] in *.
  rewrite (inv_env _ _ _ _ _ Hinv).
  destruct (index_lt (_probs e) action Hact) as (p & Hp & _).
  destruct (pull_Random e action p Hp) as (k & Hpull & Hk).
  rewrite Hpull. cbn [mbind prog_mbind prog_bind expect].
  set (c := if decide (name <$> agents0 !! j = Some key ∧ i = s)
            then 1 else 0).
  rewrite (int_ext _ random_law _
    (λ u, (φ st + c * optimal)
          + (- c) * (if bool_decide (u ≤ p) then 1 else 0))).
  - rewrite (integral_affine _ _ _ _ random_law).
    rewrite (fair_uniform L e draws p) by (by apply list_elem_of_lookup_2 with action).
    apply Qcle_minus_iff.
    replace (φ st + c * optimal + - c * p + - φ st)
      with (c * (optimal + - p)) by ring.
    apply Qcmult_nonneg_nonneg.
    + unfold c. by destruct (decide (name <$> agents0 !! j = Some key ∧ i = s)).
    + apply -> Qcle_minus_iff. apply (np_max_ge (_probs e)); [done|].
      by apply list_elem_of_lookup_2 with action.
  - intros u. rewrite Hk. prog_step.
    destruct (settle_Ret e agents0 n_steps keys st trial i j action optimal
                (if bool_decide (u ≤ p) then 1 else 0) a0 a')
      as (st' & Hst' & Hhist & _); try done.
    { congruence. }
    { case_bool_decide; auto. }
    rewrite Hst'. cbn [expect]. unfold credit_at. rewrite Hhist, credited_snoc.
    cbn [ev_agent ev_step]. unfold c, regret_of. cbn [ev_optimal ev_reward].
    destruct (decide (name <$> agents0 !! j = Some key ∧ i = s)); ring.
Qed.

Lemma in_trial_set_env (st : frame) :
  in_trial st → in_trial (set_env st e).
Proof.
  intros [[keys [Henv Hcls Hscores Hkeys Hevents]] Hready].
  split; [exists keys; by split|done].
Qed.

Lemma agent_turn_in_trial (st : frame) (trial i j : nat) (optimal : Qc) :
  in_trial st → (j < length agents0)%nat → (i < n_steps)%nat →
  np_max (_probs e) = inr optimal →
  returns in_trial (agent_turn trial i optimal j st).
Proof.
  intros [[keys Hinv] Hready] Hj Hi Hopt.
  eapply returns_mono; [by apply (agent_turn_returns e agents0 n_steps arms keys)|].
  intros st' [Hinv' Hready']. split; [eauto|done].
Qed.

Lemma step_body_in_trial (st : frame) (trial i : nat) :
  in_trial st → (i < n_steps)%nat → returns in_trial (step_body trial i st).
Proof.
  intros [[keys Hinv] Hready] Hi.
  eapply returns_mono; [by apply (step_body_returns e agents0 n_steps arms keys)|].
  intros st' [Hinv' Hready']. split; [eauto|done].
Qed.

Lemma step_body_expect (st : frame) (trial i : nat) :
  in_trial st → (i < n_steps)%nat →
  φ st ≤ expect L (step_body trial i st) φ.
Proof.
  intros Hst Hi. pose proof Hst as [[keys Hinv] Hready].
  unfold step_body, optimal_reward.
  destruct (np_max (_probs e)) as [err|optimal] eqn:Hopt.
  { unfold np_max in Hopt. unfold action_count in arms.
    destruct (_probs e); [cbn in arms; lia | done]. }
  rewrite (inv_env _ _ _ _ _ Hinv), Hopt. prog_step.
  rewrite (expect_bind L random_law beta_laws).
  rewrite (loop_inv_length _ _ _ _ _ Hinv).
  apply (expect_for_each L random_law beta_laws in_trial φ
           (range (length agents0)) (agent_turn trial i optimal)
           (set_env st e)).
  - intros j st' Hj Hst'. apply agent_turn_in_trial; try done.
    apply elem_of_seq in Hj. lia.
  - intros j st' Hj Hst'. apply agent_turn_expect; try done.
    apply elem_of_seq in Hj. lia.
  - by apply in_trial_set_env.
Qed.

Lemma trial_body_start (st : frame) :
  (∃ keys, loop_inv e agents0 n_steps keys st) →
  in_trial
    (set_agents (set_env st (env st))
       ((λ a, init_actions a (action_count (env (set_env st (env st)))))
          <$> agents (set_env st (env st)))).
Proof.
  intros [keys [Henv Hcls Hscores Hkeys Hevents]]. split.
  - exists keys. split; cbn; try done.
    rewrite <- Hcls, <- list_fmap_compose. by apply list_fmap_ext.
  - unfold ready. cbn. apply Forall_fmap, Forall_true.
    intros a. unfold well_formed. cbn. rewrite !length_replicate.
    by rewrite Henv.
Qed.

Lemma trial_body_expect (st : frame) (trial : nat) :
  (∃ keys, loop_inv e agents0 n_steps keys st) →
  φ st ≤ expect L (trial_body n_steps trial st) φ.
Proof.
  intros Hst. unfold trial_body, reset. prog_step.
  match goal with
  | |- _ ≤ expect _ (for_each _ _ ?s0) _ =>
      change (φ s0 ≤ expect L (for_each (range n_steps) (step_body trial) s0) φ)
  end.
  apply (expect_for_each L random_law beta_laws in_trial φ
           (range n_steps) (step_body trial)).
  - intros i st' Hi Hst'. apply step_body_in_trial; [done|].
    apply elem_of_seq in Hi. lia.
  - intros i st' Hi Hst'. apply step_body_expect; [done|].
    apply elem_of_seq in Hi. lia.
  - by apply trial_body_start.
Qed.

Lemma trials_expect (n_trials : nat) :
  0 ≤ expect L
        (for_each (range n_trials) (trial_body n_steps)
           {| env := e; agents := agents0;
              scores := new_scores agents0 n_steps; history := [] |}) φ.
Proof.
  match goal with
  | |- _ ≤ expect _ (for_each _ _ ?s0) _ =>
      change (φ s0 ≤ expect L (for_each (range n_trials) (trial_body n_steps) s0) φ)
  end.
  apply (expect_for_each L random_law beta_laws
           (λ st, ∃ keys, loop_inv e agents0 n_steps keys st) φ
           (range n_trials) (trial_body n_steps)).
  - intros trial st _ [keys Hinv].
    eapply returns_mono; [by apply (trial_body_returns e agents0 n_steps arms keys)|].
    intros st' Hst'. eauto.
  - intros trial st _ Hst. by apply trial_body_expect.
  - exists []. apply loop_inv_start.
Qed.

Lemma finish_history (n_trials : nat) (seen : list nat) (j : nat) (st : frame) :
  finish_inv e agents0 n_steps n_trials seen st → (j < length agents0)%nat →
  returns (λ st', history st' = history st) (finish n_trials j st).
Proof.
  clear arms draws. intros [Hcls Hhist Hscores] Hj.
  destruct (lookup_lt_is_Some_2 agents0 j Hj) as [a0 Ha0].
  assert (Ha : ∃ a, agents st !! j = Some a ∧ cls a = cls a0).
  { assert (Hl : (cls <$> agents st) !! j = Some (cls a0)).
    { by rewrite Hcls, list_lookup_fmap, Ha0. }
    rewrite list_lookup_fmap in Hl.
    destruct (agents st !! j) as [a|]; simplify_eq/=. eauto. }
  destruct Ha as (a & Ha & Hca).
  assert (Hin : name a ∈ name <$> agents0).
  { rewrite (name_cls a a0 Hca). apply list_elem_of_fmap. exists a0.
    split; [done|]. by apply list_elem_of_lookup_2 with j. }
  destruct (Hscores _ Hin) as (l0 & _ & _ & Hs0).
  unfold finish. rewrite (index_Some _ _ _ Ha). prog_step.
  unfold getitem. rewrite Hs0. prog_step. by constructor.
Qed.

(** The last loop leaves the history as it is. *)
Lemma finals_keep_history (n_trials : nat) (st : frame) :
  loop_inv e agents0 n_steps (schedule n_trials n_steps (length agents0)) st →
  returns (λ st', history st' = history st)
    (for_each (range (length agents0)) (finish n_trials) st).
Proof.
  clear arms draws. intros [Henv Hcls Hscores Hkeys Hevents].
  eapply returns_mono.
  - apply returns_for_each_prefix
      with (I := λ seen st', finish_inv e agents0 n_steps n_trials seen st'
                             ∧ history st' = history st).
    + intros seen j st' [rest Hrest] [Hinv Hhist].
      assert (Hj : (j < length agents0)%nat).
      { assert (Hin : j ∈ range (length agents0)).
        { rewrite Hrest. apply elem_of_app. right. left. }
        apply elem_of_seq in Hin. lia. }
      eapply returns_mono.
      * apply returns_and; [by apply finish_returns|by apply (finish_history _ seen)].
      * intros st'' [Hinv'' Hhist'']. split; [done|congruence].
    + split; [|done]. split; [done|by split|].
      intros k Hk. destruct (Hscores _ Hk) as (l & Hl & Hlen & Hl').
      exists l. by repeat split.
  - by intros st' [_ Hhist].
Qed.

(** Over the whole evaluation the expected credit of a bucket is not
    negative. *)
Lemma frame_expect (n_trials : nat) :
  0 ≤ expect L (get_regret_frame e agents0 n_steps n_trials) φ.
Proof.
  unfold get_regret_frame. cbv zeta.
  rewrite (expect_bind L random_law beta_laws).
  rewrite (expect_ext L random_law beta_laws _ _ _ φ
             (trials_return e agents0 n_steps arms n_trials)).
  - apply trials_expect.
  - intros st Hst.
    pose proof (finals_keep_history n_trials st Hst) as Hfin.
    rewrite (expect_ext L random_law beta_laws _ _ _ (λ _, φ st) Hfin).
    + by apply (expect_const L random_law beta_laws _ _ _ Hfin).
    + intros st' Hst'. unfold credit_at. by rewrite Hst'.
Qed.

End submartingale.

(** ** The expected curve does not go down *)

Lemma cumulate_S (n : nat) (b : nat → Qc) (t : nat) :
  cumulate n b (S t) = cumulate n b t + / Qc_of_nat n * b (S t).
Proof.
  unfold cumulate, range. rewrite (seq_S (S t)), fmap_app, sum_Qc_app.
  unfold sum_Qc at 2. cbn. unfold Qcdiv. ring.
Qed.

Lemma times_named_pos `{Numpy} (agents0 : list agent) (a : agent) :
  a ∈ agents0 →
  (1 ≤ times_named agents0 (name a) (range (length agents0)))%nat.
Proof.
  intros [j Hj]%list_elem_of_lookup. unfold times_named.
  assert (Hin : j ∈ filter (λ j, name <$> agents0 !! j = Some (name a))
                     (range (length agents0))).
  { apply list_elem_of_filter. split; [by rewrite Hj|].
    apply elem_of_seq. apply lookup_lt_Some in Hj. lia. }
  destruct (filter _ _); [by apply elem_of_nil in Hin|cbn; lia].
Qed.

Lemma cumsum_over_cumulate (n_steps n_trials : nat) (b : nat → Qc) :
  (1 ≤ n_trials)%nat →
  cumsum_over n_trials (Fin <$> (b <$> range n_steps))
  = Fin <$> (cumulate n_trials b <$> range n_steps).
Proof.
  intros Hn. apply list_eq. intros t.
  destruct (decide (t < n_steps)%nat) as [Ht|Ht].
  - rewrite cumsum_over_Fin; [|done|]; last first.
    { rewrite length_fmap. unfold range. rewrite length_seq. lia. }
    rewrite take_fmap_range by lia. rewrite !list_lookup_fmap. unfold range.
    by rewrite lookup_seq_lt.
  - rewrite !lookup_ge_None_2; [done| |].
    + rewrite !length_fmap. unfold range. rewrite length_seq. lia.
    + rewrite cumsum_over_length, !length_fmap. unfold range.
      rewrite length_seq. lia.
Qed.

Lemma iter_cumsum_over (n_steps n_trials m : nat) (b : nat → Qc) :
  (1 ≤ n_trials)%nat →
  Nat.iter m (cumsum_over n_trials) (Fin <$> (b <$> range n_steps))
  = Fin <$> (Nat.iter m (cumulate n_trials) b <$> range n_steps).
Proof.
  intros Hn. induction m as [|m IH]; [done|]. rewrite !Nat.iter_succ, IH.
  by apply cumsum_over_cumulate.
Qed.

(** What [get_regret] returns at step [t] for a name: the regret credited
    to the buckets of the name, cumulated once for each agent of the name. *)
Lemma value_at_final `{Numpy} (e : BernoulliBandit) (agents0 : list agent)
    (n_steps n_trials : nat) (st : frame) (key : string) (t : nat) :
  (1 ≤ n_trials)%nat →
  finish_inv e agents0 n_steps n_trials (range (length agents0)) st →
  key ∈ name <$> agents0 → (t < n_steps)%nat →
  value_at key t (scores st)
  = Nat.iter (times_named agents0 key (range (length agents0)))
      (cumulate n_trials) (credited agents0 (history st) key) t.
Proof.
  intros Hn [_ _ Hscores] Hkey Ht.
  destruct (Hscores _ Hkey) as (l & Hlen & Hl & Hs).
  rewrite (pointwise_Fin l n_steps _ Hlen Hl), iter_cumsum_over in Hs by done.
  unfold value_at. rewrite Hs, !list_lookup_fmap. unfold range.
  by rewrite lookup_seq_lt.
Qed.

(** Cumulating keeps the expected values of the buckets non-negative. *)
Lemma iter_expect_nonneg `{Numpy} (L : laws) (e : BernoulliBandit)
    (agents0 : list agent) (n_steps n_trials k : nat) (key : string) (s : nat) :
  (1 ≤ action_count e)%nat → fair L e →
  0 ≤ expect L (get_regret_frame e agents0 n_steps n_trials)
        (λ st, Nat.iter k (cumulate n_trials)
                 (credited agents0 (history st) key) s).
Proof.
  intros arms draws.
  pose proof (fair_random L e draws) as random_law.
  pose proof (fair_beta L e draws) as beta_laws.
  pose proof (get_regret_frame_returns e agents0 n_steps arms n_trials)
    as frame_returns.
  revert s. induction k as [|k IH]; intros s.
  - by apply (frame_expect L e agents0 n_steps key s).
  - rewrite (expect_ext L random_law beta_laws _ _ _
      (λ st, / Qc_of_nat n_trials
             * sum_Qc ((λ i, Nat.iter k (cumulate n_trials)
                               (credited agents0 (history st) key) i)
                       <$> range (S s))) frame_returns).
    + rewrite expect_scale by done.
      rewrite (expect_sum L random_law beta_laws _ _ _ _ frame_returns).
      apply Qcmult_nonneg_nonneg.
      * apply Qcinv_nonneg, Qc_of_nat_nonneg.
      * apply sum_Qc_nonneg, Forall_fmap, Forall_forall. intros i _. apply IH.
    + intros st _. rewrite Nat.iter_succ. unfold cumulate at 1.
      unfold Qcdiv. apply Qcmult_comm.
Qed.

(** C9. When the draws follow probability laws under which a pull of an arm
    succeeds with the probability of the arm, the expected value of the
    curve [get_regret] returns for an agent does not go down from a step to
    the next: the difference is the expected regret of a step, over [N],
    and no arm pays more in the mean than the best one. *)
Theorem expected_regret_monotone `{Numpy} (L : laws) (e : BernoulliBandit)
    (agents0 : list agent) (n_steps n_trials : nat) (a : agent) (t : nat) :
  fair L e →
  (1 ≤ action_count e)%nat → (1 ≤ n_trials)%nat →
  a ∈ agents0 → (S t < n_steps)%nat →
  expect L (get_regret e agents0 n_steps n_trials) (value_at (name a) t)
  ≤ expect L (get_regret e agents0 n_steps n_trials)
      (value_at (name a) (S t)).
Proof.
  intros Hfair HK HN Ha Ht.
  pose proof (fair_random L e Hfair) as Hrandom.
  pose proof (fair_beta L e Hfair) as Hbeta.
  pose proof (get_regret_frame_returns e agents0 n_steps HK n_trials) as Hret.
  assert (Hkey : name a ∈ name <$> agents0).
  { apply list_elem_of_fmap. eauto. }
  pose proof (times_named_pos agents0 a Ha) as Hm.
  destruct (times_named agents0 (name a) (range (length agents0)))
    as [|m] eqn:Htimes; [lia|].
  unfold get_regret. rewrite !(expect_bind L Hrandom Hbeta). cbn [expect].
  set (It := λ k s (st : frame),
         Nat.iter k (cumulate n_trials)
           (credited agents0 (history st) (name a)) s).
  rewrite (expect_ext L Hrandom Hbeta _ _ _ (It (S m) t) Hret); last first.
  { intros st Hst. rewrite (value_at_final e agents0 n_steps n_trials st)
      by (done || lia). by rewrite Htimes. }
  rewrite (expect_ext L Hrandom Hbeta _ _
             (λ st, value_at (name a) (S t) (scores st))
             (λ st, It (S m) t st + / Qc_of_nat n_trials * It m (S t) st)
             Hret); last first.
  { intros st Hst. rewrite (value_at_final e agents0 n_steps n_trials st)
      by (done || lia). rewrite Htimes. unfold It. rewrite Nat.iter_succ.
    apply cumulate_S. }
  rewrite (expect_plus L Hrandom Hbeta _ _ _ _ Hret), expect_scale by done.
  apply Qcle_minus_iff.
  match goal with
  | |- 0 ≤ ?x + ?y + - ?x => replace (x + y + - x) with y by ring
  end.
  apply Qcmult_nonneg_nonneg.
  - apply Qcinv_nonneg, Qc_of_nat_nonneg.
  - by apply iter_expect_nonneg.
Qed.

Lemma demo_laws_fair : fair demo_laws {| _probs := [half; 1] |}.
Proof.
  split.
  - split; cbn.
    + intros f g Hfg. by rewrite !Hfg.
    + intros f g. unfold Qcdiv. ring.
    + intros c f. unfold Qcdiv. ring.
    + apply Qc_is_canon. reflexivity.
    + intros f g Hfg. apply Qcmult_le_compat_r; [|done].
      by apply Qcplus_le_compat.
  - intros a b. split; cbn.
    + intros f g Hfg. apply Hfg.
    + done.
    + done.
    + done.
    + intros f g Hfg. apply Hfg.
  - intros p Hp. cbn in Hp.
    apply elem_of_cons in Hp as [->|Hp];
      [|apply list_elem_of_singleton in Hp as ->];
      apply Qc_is_canon; reflexivity.
Qed.

Lemma expected_regret_monotone_witness :
  expect demo_laws
    (get_regret (H := demo_numpy) {| _probs := [half; 1] |}
       [fresh RandomAgent; fresh UCBAgent] 3 2)
    (value_at (name (H := demo_numpy) (fresh UCBAgent)) 1)
  ≤ expect demo_laws
      (get_regret (H := demo_numpy) {| _probs := [half; 1] |}
         [fresh RandomAgent; fresh UCBAgent] 3 2)
      (value_at (name (H := demo_numpy) (fresh UCBAgent)) 2).
Proof.
  apply (expected_regret_monotone (H := demo_numpy) demo_laws
           {| _probs := [half; 1] |} [fresh RandomAgent; fresh UCBAgent]
           3 2 (fresh UCBAgent) 1).
  - exact demo_laws_fair.
  - cbn. lia.
  - lia.
  - right. left.
  - lia.
Defined.

(** * Further properties of the code *)

(** ** The environment *)

Lemma foldl_max_elem (l : list Qc) (x : Qc) :
  foldl (λ m y, if bool_decide (m < y) then y else m) x l ∈ x :: l.
Proof.
  revert x. induction l as [|z l IH]; intros x; cbn.
  - left.
  - case_bool_decide.
    + right. apply IH.
    + specialize (IH x). apply elem_of_cons in IH as [->|IH]; [left|].
      right. by right.
Qed.

(** X1. [optimal_reward] of an environment without arms raises the
    ValueError of [np.max]; otherwise it returns, with the environment as it
    was, one of the probabilities, and none of them is larger. *)
Theorem optimal_reward_max (self : BernoulliBandit) :
  if decide (action_count self = 0)%nat
  then optimal_reward self
       = Raise (ValueError
           "zero-size array to reduction operation maximum which has no identity")
  else ∃ m, optimal_reward self = Ret (m, self)
         ∧ m ∈ _probs self ∧ ∀ p, p ∈ _probs self → p ≤ m.
Proof.
  unfold action_count, optimal_reward. destruct (_probs self) as [|x l] eqn:Hl.
  - done.
  - cbn [length]. destruct (decide (S (length l) = 0)%nat); [lia|].
    destruct (np_max (x :: l)) as [err|m] eqn:Hmax; [done|].
    exists m. split; [done|]. split.
    + cbn in Hmax. injection Hmax as <-. apply foldl_max_elem.
    + intros p Hp. by apply (np_max_ge (x :: l)).
Qed.

Lemma run_random_sample {G} (R : rng G) (n : nat) (g : G) (P : Qc → Prop) :
  (∀ g, P (rng_random R g).1) →
  ∃ us g', run R (random_sample n) g = inr (us, g')
    ∧ length us = n ∧ Forall P us.
Proof.
  intros HP. revert g. induction n as [|n IH]; intros g.
  - exists [], g. by repeat split.
  - cbn [random_sample]. unfold random. prog_step. cbn [run].
    pose proof (HP g) as Hu. destruct (rng_random R g) as [u g1].
    destruct (IH g1) as (us & g' & Hrun & Hlen & Hall).
    change (run R (Ret u ≫= _) g1)
      with (run R (random_sample n ≫= λ us, Ret (u :: us)) g1).
    rewrite run_bind, Hrun. exists (u :: us), g'. cbn.
    split; [done|]. split; [by rewrite Hlen|]. by constructor.
Qed.

(** X2. On a random source whose [random()] answers in [0, 1),
    [BernoulliBandit(n_actions)] returns an environment with [n_actions]
    arms whose probabilities all lie in [0, 1). *)
Theorem BernoulliBandit_init_arms {G} (R : rng G) (n_actions : nat) (g : G) :
  (∀ g, 0 ≤ (rng_random R g).1 < 1) →
  ∃ b g', run R (BernoulliBandit_init n_actions) g = inr (b, g')
    ∧ action_count b = n_actions
    ∧ Forall (λ p, 0 ≤ p < 1) (_probs b).
Proof.
  intros Hunit.
  destruct (run_random_sample R n_actions g (λ p, 0 ≤ p < 1) Hunit)
    as (us & g' & Hrun & Hlen & Hall).
  exists {| _probs := us |}, g'. unfold BernoulliBandit_init.
  rewrite run_bind, Hrun. by repeat split.
Qed.

Lemma demo_rng_unit (g : nat) : 0 ≤ (rng_random demo_rng g).1 < 1.
Proof.
  cbn. pose proof (Nat.mod_upper_bound g 16).
  unfold Qcle, Qclt. cbn. rewrite !Qred_correct.
  change (Qred 0) with (0 # 1). change (Qred 1) with (1 # 1).
  unfold Qle, Qlt. cbn. lia.
Qed.

Lemma BernoulliBandit_init_arms_witness :
  ∃ b g', run demo_rng (BernoulliBandit_init 5) 3%nat = inr (b, g')
    ∧ action_count b = 5%nat
    ∧ Forall (λ p, 0 ≤ p < 1) (_probs b).
Proof.
  apply (BernoulliBandit_init_arms demo_rng 5 3%nat). exact demo_rng_unit.
Defined.

(** ** What [np.argmax] picks *)

Lemma argmax_from_first_nan (l : list npfloat) (k : nat) (mp : npfloat)
    (ind i : nat) :
  l !! k = Some NaN →
  (∀ j x, (j < k)%nat → l !! j = Some x → isnan x = false) →
  argmax_from mp ind i l = (i + k)%nat.
Proof.
  revert k mp ind i. induction l as [|x l IH]; intros k mp ind i Hk Hbefore.
  - done.
  - destruct k as [|k]; cbn in Hk.
    + injection Hk as ->. cbn. destruct mp; cbn; lia.
    + assert (Hx : isnan x = false) by (apply (Hbefore 0%nat); [lia|done]).
      cbn. rewrite Hx.
      assert (Hrest : ∀ j y, (j < k)%nat → l !! j = Some y → isnan y = false).
      { intros j y Hj Hy. apply (Hbefore (S j)); [lia|done]. }
      destruct (np_le x mp); rewrite IH with (k := k) by done; lia.
Qed.

(** With a nan in the array, [np.argmax] returns the place of the first. *)
Lemma argmax_first_nan (l : list npfloat) (k : nat) :
  l !! k = Some NaN →
  (∀ j x, (j < k)%nat → l !! j = Some x → isnan x = false) →
  argmax l = inr k.
Proof.
  intros Hk Hbefore. destruct l as [|x l]; [done|]. cbn.
  destruct k as [|k]; cbn in Hk.
  - by injection Hk as ->.
  - rewrite (Hbefore 0%nat x) by (done || lia). f_equal.
    rewrite (argmax_from_first_nan l k) ; [done|done|].
    intros j y Hj Hy. apply (Hbefore (S j)); [lia|done].
Qed.

Lemma argmax_from_max (qs : list Qc) (v : nat → Qc) (m : Qc) (ind i : nat) :
  (∀ j q, qs !! j = Some q → v (i + j)%nat = q) →
  v ind = m → (ind < i)%nat →
  (∀ j, (j < i)%nat → v j ≤ m ∧ ((j < ind)%nat → v j < m)) →
  first_max (i + length qs) v (argmax_from (Fin m) ind i (Fin <$> qs)).
Proof.
  revert m ind i. induction qs as [|q qs IH]; intros m ind i Hv Hind Hlt Hmax.
  - cbn. rewrite Nat.add_0_r. split; [done|]. intros j Hj.
    rewrite Hind. by apply Hmax.
  - assert (Hq : v i = q).
    { rewrite <- (Hv 0%nat q); [by rewrite Nat.add_0_r|done]. }
    assert (Hrest : ∀ j q', qs !! j = Some q' → v (S i + j)%nat = q').
    { intros j q' Hj. rewrite <- (Hv (S j) q' Hj). f_equal. lia. }
    cbn [fmap list_fmap argmax_from np_le isnan length].
    replace (i + S (length qs))%nat with (S i + length qs)%nat by lia.
    case_bool_decide as Hle.
    + apply IH; [done|done|lia|].
      intros j Hj. destruct (decide (j = i)) as [->|Hne].
      * rewrite Hq. split; [done|lia].
      * apply Hmax. lia.
    + apply Qcnot_le_lt in Hle. apply IH; [done|done|lia|].
      intros j Hj. destruct (decide (j = i)) as [->|Hne].
      * rewrite Hq. split; [apply Qcle_refl|lia].
      * destruct (Hmax j) as [Hjm _]; [lia|].
        assert (v j < q) by (by eapply Qcle_lt_trans).
        split; [by apply Qclt_le_weak|done].
Qed.

(** Without nan, [np.argmax] returns the first place of the largest value. *)
Lemma argmax_first_max (K : nat) (v : nat → Qc) :
  (1 ≤ K)%nat →
  ∃ i, argmax (Fin <$> (v <$> range K)) = inr i ∧ first_max K v i.
Proof.
  intros HK. destruct K as [|K]; [lia|]. unfold range.
  cbn [seq fmap list_fmap argmax isnan]. eexists. split; [reflexivity|].
  pose proof (argmax_from_max (v <$> seq 1 K) v (v 0%nat) 0 1) as Hmax.
  rewrite length_fmap, length_seq in Hmax. apply Hmax.
  - intros j q Hj. rewrite list_lookup_fmap in Hj.
    destruct (seq 1 K !! j) as [n|] eqn:Hn; [|done].
    apply lookup_seq in Hn as [-> _]. by injection Hj.
  - done.
  - lia.
  - intros j Hj. assert (j = 0%nat) as -> by lia.
    split; [apply Qcle_refl|lia].
Qed.

(** ** The exploit expression, arm by arm *)

Lemma w_map_eq {A B} (f : A → W B) (l : list A) :
  w_map f l = ((λ x, (f x).1) <$> l, l ≫= λ x, (f x).2).
Proof.
  induction l as [|x l IH]; [done|]. cbn [w_map]. unfold w_bind, w_ret.
  rewrite IH. cbn. by rewrite app_nil_r.
Qed.

Lemma Qc_of_nat_add (a b : nat) :
  Qc_of_nat (a + b) = Qc_of_nat a + Qc_of_nat b.
Proof. unfold Qc_of_nat. by rewrite Nat2Z.inj_add, Z2Qc_inj_add. Qed.

Lemma Qc_of_nat_0 : Qc_of_nat 0 = 0.
Proof. unfold Qc_of_nat. apply Z2Qc_inj_0. Qed.

Lemma floats_add (s f : nat) :
  np_add (float_of_nat s) (float_of_nat f) = (float_of_nat (s + f), []).
Proof.
  unfold np_add, float_of_nat. fold (Qc_of_nat s) (Qc_of_nat f) (Qc_of_nat (s + f)).
  by rewrite Qc_of_nat_add.
Qed.

Lemma rate_elem (s f : nat) :
  true_divide (float_of_nat s) (float_of_nat (s + f))
  = (rate_of (s, f), rate_warnings (s, f)).
Proof.
  unfold true_divide, float_of_nat, rate_of, rate_warnings. cbn [fst snd].
  fold (Qc_of_nat s) (Qc_of_nat (s + f)).
  destruct (decide (s + f = 0)%nat) as [Hz|Hnz].
  - assert (s = 0%nat) as -> by lia. assert (f = 0%nat) as -> by lia.
    cbn [Nat.add]. rewrite Qc_of_nat_0. by rewrite !decide_True.
  - rewrite decide_False; [done|]. apply Qc_of_nat_nonzero. lia.
Qed.

Lemma zip_fmap_same {A B C} (g1 : A → B) (g2 : A → C) (l : list A) :
  zip (g1 <$> l) (g2 <$> l) = (λ x, (g1 x, g2 x)) <$> l.
Proof. induction l as [|x l IH]; [done|]. cbn. by rewrite IH. Qed.

Lemma zip_floats (s f : list nat) :
  zip (floats s) (floats f)
  = (λ c, (float_of_nat c.1, float_of_nat c.2)) <$> zip s f.
Proof.
  revert f. induction s as [|x s IH]; intros [|y f]; cbn; [done..|].
  by rewrite <- IH.
Qed.

Lemma zip_floats_l {A} (s f : list nat) (g : nat * nat → A) :
  length s = length f →
  zip (floats s) (g <$> zip s f) = (λ c, (float_of_nat c.1, g c)) <$> zip s f.
Proof.
  revert f. induction s as [|x s IH]; intros [|y f] Hlen; cbn in *; [done..|].
  rewrite <- IH by lia. done.
Qed.

Lemma list_bind_nil {A B} (l : list A) : l ≫= (λ _, @nil B) = [].
Proof. induction l as [|x l IH]; [done|]. cbn. by rewrite IH. Qed.

(** [self._successes + self._failures], arm by arm. *)
Lemma pulls_arrays (a : agent) :
  length (_successes a) = length (_failures a) →
  pulls a = inr ((λ c, float_of_nat (c.1 + c.2))
                   <$> zip (_successes a) (_failures a), []).
Proof.
  intros Hlen. unfold pulls, broadcast2.
  rewrite decide_True by (by rewrite !floats_length).
  rewrite w_map_eq, zip_floats, <- list_fmap_compose, list_fmap_bind.
  f_equal. f_equal.
  - apply list_fmap_ext. intros i [s f] _. unfold compose. cbn [fst snd].
    by rewrite floats_add.
  - erewrite list_bind_ext; [apply list_bind_nil| |done].
    intros [s f]. unfold compose. cbn [fst snd]. by rewrite floats_add.
Qed.

(** [self._successes/(self._successes + self._failures)], arm by arm. *)
Lemma success_rate_arrays (a : agent) :
  length (_successes a) = length (_failures a) →
  success_rate a
  = inr (rate_of <$> zip (_successes a) (_failures a),
         zip (_successes a) (_failures a) ≫= rate_warnings).
Proof.
  intros Hlen. unfold success_rate. rewrite (pulls_arrays a Hlen).
  cbn [np_then]. unfold broadcast2.
  rewrite decide_True; last first.
  { rewrite floats_length, length_fmap, length_zip_with. lia. }
  rewrite w_map_eq, zip_floats_l by done.
  rewrite <- list_fmap_compose, list_fmap_bind. cbn [app]. f_equal. f_equal.
  - apply list_fmap_ext. intros i [s f] _. unfold compose. cbn [fst snd].
    by rewrite rate_elem.
  - apply list_bind_ext; [|done]. intros [s f]. unfold compose. cbn [fst snd].
    by rewrite rate_elem.
Qed.



Lemma rate_lookup (K : nat) (a : agent) (k : nat) :
  well_formed K a → (k < K)%nat →
  (rate_of <$> zip (_successes a) (_failures a)) !! k
  = Some (if decide (pulls_of a k = 0)%nat then NaN
          else Fin (success_ratio a k)).
Proof.
  intros [Hs Hf] Hk. rewrite list_lookup_fmap, lookup_zip_with.
  rewrite (list_lookup_lookup_total_lt (_successes a) k) by lia.
  rewrite (list_lookup_lookup_total_lt (_failures a) k) by lia.
  done.
Qed.

Lemma rate_length (K : nat) (a : agent) :
  well_formed K a →
  length (rate_of <$> zip (_successes a) (_failures a)) = K.
Proof. intros [Hs Hf]. rewrite length_fmap, length_zip_with. lia. Qed.

(** The exploit branch, on well-formed counters: the arm [np.argmax] picks
    among the rates. *)
Lemma exploit_branch (K : nat) (epsilon : Qc) (a : agent) (i : nat) :
  well_formed K a →
  argmax (rate_of <$> zip (_successes a) (_failures a)) = inr i →
  ∃ kf, EpsilonGreedyAgent_get_action epsilon a = Random kf
     ∧ (∀ u, epsilon ≤ u → kf u = Ret (i, a))
     ∧ (∀ u, u < epsilon →
          kf u = (action ← randint 0 K; Ret (action, a))).
Proof.
  intros Hwf Hi. eexists. split; [reflexivity|]. split.
  - intros u Hu. prog_step.
    rewrite bool_decide_eq_false_2 by (by apply Qcle_not_lt).
    rewrite success_rate_arrays by (destruct Hwf; congruence).
    cbn [eval]. prog_step. rewrite Hi. by prog_step.
  - intros u Hu. prog_step. rewrite bool_decide_eq_true_2 by done.
    by destruct Hwf as [-> _].
Qed.

(** X4. While some arm has no pull, the exploit branch of
    [EpsilonGreedyAgent.get_action] (the draw is not below epsilon) returns
    the first such arm, and the agent unchanged: the rate of an arm without
    a pull is nan, and [np.argmax] returns the place of the first nan. *)
Theorem EpsilonGreedyAgent_exploit_unpulled (K : nat) (epsilon : Qc)
    (a : agent) (k : nat) :
  well_formed K a → first_unpulled a k →
  ∃ kf, EpsilonGreedyAgent_get_action epsilon a = Random kf
     ∧ ∀ u, epsilon ≤ u → kf u = Ret (k, a).
Proof.
  intros Hwf (Hk & Hzero & Hbefore).
  assert (HkK : (k < K)%nat) by (destruct Hwf; lia).
  destruct (exploit_branch K epsilon a k Hwf) as (kf & Hkf & Hexploit & _).
  - apply argmax_first_nan.
    + rewrite (rate_lookup K) by done. by rewrite decide_True.
    + intros j x Hj Hx. rewrite (rate_lookup K) in Hx by (done || lia).
      rewrite decide_False in Hx by (by apply Hbefore). by injection Hx as <-.
  - eauto.
Qed.

Lemma EpsilonGreedyAgent_exploit_unpulled_witness :
  ∃ kf, EpsilonGreedyAgent_get_action half
          {| cls := EpsilonGreedyAgent half; _successes := [1; 0; 0]%nat;
             _failures := [2; 0; 0]%nat; _total_pulls := 3 |} = Random kf
     ∧ ∀ u, half ≤ u →
         kf u = Ret (1%nat,
                     {| cls := EpsilonGreedyAgent half;
                        _successes := [1; 0; 0]%nat;
                        _failures := [2; 0; 0]%nat; _total_pulls := 3 |}).
Proof.
  apply (EpsilonGreedyAgent_exploit_unpulled 3 half
           {| cls := EpsilonGreedyAgent half; _successes := [1; 0; 0]%nat;
              _failures := [2; 0; 0]%nat; _total_pulls := 3 |} 1).
  - split; reflexivity.
  - split; [cbn; lia|]. split; [reflexivity|].
    intros j Hj. assert (j = 0%nat) as -> by lia. discriminate.
Defined.

(** X5. Once every arm has been pulled, [EpsilonGreedyAgent.get_action]
    makes one draw; when it is not below epsilon it returns the first arm
    whose empirical rate successes/(successes + failures) is largest, and
    otherwise an arm asked from [randint(0, K)]; the agent is unchanged. *)
Theorem EpsilonGreedyAgent_exploit_best (K : nat) (epsilon : Qc) (a : agent) :
  (1 ≤ K)%nat → well_formed K a →
  (∀ k, (k < K)%nat → pulls_of a k ≠ 0%nat) →
  ∃ kf i, EpsilonGreedyAgent_get_action epsilon a = Random kf
     ∧ first_max K (success_ratio a) i
     ∧ (∀ u, epsilon ≤ u → kf u = Ret (i, a))
     ∧ (∀ u, u < epsilon →
          kf u = (action ← randint 0 K; Ret (action, a))).
Proof.
  intros HK Hwf Hpulled.
  destruct (argmax_first_max K (success_ratio a) HK) as (i & Hi & Hmax).
  destruct (exploit_branch K epsilon a i Hwf) as (kf & Hkf & Hexploit & Hexplore).
  - rewrite <- Hi. f_equal.
    apply (pointwise_Fin _ K (success_ratio a)); [by apply rate_length|].
    intros k Hk. rewrite (rate_lookup K) by done.
    by rewrite decide_False by (by apply Hpulled).
  - exists kf, i. eauto.
Qed.

Lemma EpsilonGreedyAgent_exploit_best_witness :
  ∃ kf i, EpsilonGreedyAgent_get_action half
            {| cls := EpsilonGreedyAgent half; _successes := [1; 3]%nat;
               _failures := [2; 1]%nat; _total_pulls := 7 |} = Random kf
     ∧ first_max 2
         (success_ratio
            {| cls := EpsilonGreedyAgent half; _successes := [1; 3]%nat;
               _failures := [2; 1]%nat; _total_pulls := 7 |}) i
     ∧ (∀ u, half ≤ u →
          kf u = Ret (i, {| cls := EpsilonGreedyAgent half;
                            _successes := [1; 3]%nat;
                            _failures := [2; 1]%nat; _total_pulls := 7 |}))
     ∧ (∀ u, u < half →
          kf u = (action ← randint 0 2;
                  Ret (action, {| cls := EpsilonGreedyAgent half;
                                  _successes := [1; 3]%nat;
                                  _failures := [2; 1]%nat;
                                  _total_pulls := 7 |}))).
Proof.
  apply (EpsilonGreedyAgent_exploit_best 2 half
           {| cls := EpsilonGreedyAgent half; _successes := [1; 3]%nat;
              _failures := [2; 1]%nat; _total_pulls := 7 |}).
  - lia.
  - split; reflexivity.
  - intros [|[|k]] Hk; [discriminate|discriminate|lia].
Defined.

(** ** The index of UCB, arm by arm *)

Lemma ucb_bonus_arrays `{Numpy} (a : agent) :
  length (_successes a) = length (_failures a) →
  ∃ w, ucb_bonus a
       = inr ((λ c, (np_sqrt (true_divide
                 (np_multiply (Fin 2)
                    (np_log (float_of_nat (_total_pulls a))).1).1
                 (float_of_nat (c.1 + c.2))).1).1)
                <$> zip (_successes a) (_failures a), w).
Proof.
  intros Hlen. unfold ucb_bonus, np_warn. rewrite (pulls_arrays a Hlen).
  destruct (np_log (float_of_nat (_total_pulls a))) as [lg w0].
  cbn [np_then fst]. destruct (np_multiply (Fin 2) lg) as [two_lg w1].
  cbn [np_then fst]. rewrite !w_map_eq. cbn [np_then fst snd].
  rewrite <- !list_fmap_compose. eexists. reflexivity.
Qed.

Lemma ucb_index_lookup `{Numpy} (K : nat) (a : agent) :
  well_formed K a →
  ∃ l w, ucb_index a = inr (l, w) ∧ length l = K
       ∧ ∀ k, (k < K)%nat → l !! k = Some (ucb_value a k).
Proof.
  intros [Hs Hf]. assert (Hlen : length (_successes a) = length (_failures a))
    by congruence.
  unfold ucb_index. rewrite (success_rate_arrays a Hlen).
  destruct (ucb_bonus_arrays a Hlen) as [w Hbonus]. rewrite Hbonus.
  cbn [np_then]. unfold broadcast2.
  rewrite decide_True by (by rewrite !length_fmap).
  rewrite w_map_eq. eexists _, _. split; [reflexivity|].
  rewrite zip_fmap_same, <- list_fmap_compose.
  split.
  - rewrite length_fmap, length_zip_with. lia.
  - intros k Hk. rewrite list_lookup_fmap, lookup_zip_with.
    rewrite (list_lookup_lookup_total_lt (_successes a) k) by lia.
    rewrite (list_lookup_lookup_total_lt (_failures a) k) by lia.
    done.
Qed.

(** The index of an arm without a pull is nan, whatever the bonus. *)
Lemma ucb_value_unpulled `{Numpy} (a : agent) (k : nat) :
  pulls_of a k = 0%nat → ucb_value a k = NaN.
Proof.
  intros Hk. unfold ucb_value, rate_of. cbn [fst snd].
  unfold pulls_of in Hk. by rewrite decide_True.
Qed.

Lemma ucb_value_pulled `{Numpy} (a : agent) (k : nat) :
  (1 ≤ _total_pulls a)%nat →
  0 ≤ np_ln (Qc_of_nat (_total_pulls a)) →
  pulls_of a k ≠ 0%nat →
  ucb_value a k = Fin (ucb_score a k).
Proof.
  intros Ht Hln Hk. unfold ucb_value, ucb_score, success_ratio, rate_of.
  cbn [fst snd]. fold (pulls_of a k). rewrite decide_False by done.
  unfold np_log, float_of_nat. fold (Qc_of_nat (_total_pulls a)).
  fold (Qc_of_nat (pulls_of a k)).
  rewrite decide_False by (by apply Qc_of_nat_nonzero).
  rewrite bool_decide_eq_false_2; last first.
  { apply Qcle_not_lt, Qc_of_nat_nonneg. }
  cbn [fst np_multiply true_divide].
  rewrite decide_False by (apply Qc_of_nat_nonzero; lia).
  cbn [fst np_sqrt]. rewrite bool_decide_eq_false_2; [done|].
  apply Qcle_not_lt. unfold Qcdiv. apply Qcmult_nonneg_nonneg.
  - apply Qcmult_nonneg_nonneg; [done|done].
  - apply Qcinv_nonneg, Qc_of_nat_nonneg.
Qed.

Lemma sum_list_lookup_le (l : list nat) (k : nat) :
  (l !!! k ≤ sum_list l)%nat.
Proof.
  rewrite list_lookup_total_alt. destruct (l !! k) as [x|] eqn:Hk; cbn.
  - revert k Hk. induction l as [|y l IH]; intros [|k] Hk; cbn in *;
      simplify_eq; [lia|]. specialize (IH k Hk). lia.
  - lia.
Qed.

Lemma consistent_pulled (a : agent) (k : nat) :
  consistent a → pulls_of a k ≠ 0%nat → (1 ≤ _total_pulls a)%nat.
Proof.
  unfold consistent, pulls_of. intros -> Hk.
  pose proof (sum_list_lookup_le (_successes a) k).
  pose proof (sum_list_lookup_le (_failures a) k). lia.
Qed.

Lemma demo_ln_nonneg (n : nat) :
  (1 ≤ n)%nat → 0 ≤ np_ln (Numpy := demo_numpy) (Qc_of_nat n).
Proof.
  intros Hn. cbn. replace n with ((n - 1) + 1)%nat by lia.
  rewrite Qc_of_nat_add.
  replace (Qc_of_nat (n - 1) + Qc_of_nat 1 - 1) with (Qc_of_nat (n - 1)).
  - apply Qc_of_nat_nonneg.
  - assert (Qc_of_nat 1 = 1) as -> by (by apply Qc_is_canon). ring.
Qed.

(** X6. A UCB agent whose counters agree tries every arm before it compares
    indices: while some arm has no pull, [UCBAgent.get_action] returns the
    first such arm and leaves the agent unchanged (the index of an arm
    without a pull is nan, that of a pulled arm is a number as long as
    [np.log] is non-negative from 1 on). *)
Theorem UCBAgent_tries_every_arm `{Numpy} (K : nat) (a : agent) (k : nat) :
  (∀ n, (1 ≤ n)%nat → 0 ≤ np_ln (Qc_of_nat n)) →
  well_formed K a → consistent a → first_unpulled a k →
  UCBAgent_get_action a = Ret (k, a).
Proof.
  intros Hln Hwf Hcons (Hk & Hzero & Hbefore).
  assert (HkK : (k < K)%nat) by (destruct Hwf; lia).
  destruct (ucb_index_lookup K a Hwf) as (l & w & Hl & Hlen & Hval).
  unfold UCBAgent_get_action. rewrite Hl. cbn [eval]. prog_step.
  rewrite (argmax_first_nan l k).
  - by prog_step.
  - rewrite Hval by done. by rewrite ucb_value_unpulled.
  - intros j x Hj Hx. rewrite Hval in Hx by lia.
    pose proof (consistent_pulled a j Hcons (Hbefore j Hj)) as Ht.
    rewrite ucb_value_pulled in Hx by auto. by injection Hx as <-.
Qed.

Lemma UCBAgent_tries_every_arm_witness :
  UCBAgent_get_action (H := demo_numpy)
    {| cls := UCBAgent; _successes := [1; 0; 0]%nat;
       _failures := [1; 0; 0]%nat; _total_pulls := 2 |}
  = Ret (1%nat, {| cls := UCBAgent; _successes := [1; 0; 0]%nat;
                   _failures := [1; 0; 0]%nat; _total_pulls := 2 |}).
Proof.
  apply (UCBAgent_tries_every_arm (H := demo_numpy) 3).
  - exact demo_ln_nonneg.
  - split; reflexivity.
  - reflexivity.
  - split; [cbn; lia|]. split; [reflexivity|].
    intros j Hj. assert (j = 0%nat) as -> by lia. discriminate.
Defined.

(** X7. Once every arm has been pulled (and [np.log] of the total is not
    negative), [UCBAgent.get_action] draws nothing and returns the first arm
    whose index rate + sqrt(2 log(total_pulls) / pulls) is largest; the
    agent is unchanged. *)
Theorem UCBAgent_get_action_best `{Numpy} (K : nat) (a : agent) :
  (1 ≤ K)%nat → well_formed K a →
  (1 ≤ _total_pulls a)%nat →
  0 ≤ np_ln (Qc_of_nat (_total_pulls a)) →
  (∀ k, (k < K)%nat → pulls_of a k ≠ 0%nat) →
  ∃ i, UCBAgent_get_action a = Ret (i, a) ∧ first_max K (ucb_score a) i.
Proof.
  intros HK Hwf Ht Hln Hpulled.
  destruct (ucb_index_lookup K a Hwf) as (l & w & Hl & Hlen & Hval).
  destruct (argmax_first_max K (ucb_score a) HK) as (i & Hi & Hmax).
  exists i. split; [|done].
  unfold UCBAgent_get_action. rewrite Hl. cbn [eval]. prog_step.
  rewrite (pointwise_Fin l K (ucb_score a) Hlen), Hi; [by prog_step|].
  intros k Hk. rewrite Hval by done. by rewrite ucb_value_pulled by auto.
Qed.

Lemma UCBAgent_get_action_best_witness :
  ∃ i, UCBAgent_get_action (H := demo_numpy)
         {| cls := UCBAgent; _successes := [1; 3]%nat;
            _failures := [2; 1]%nat; _total_pulls := 7 |}
       = Ret (i, {| cls := UCBAgent; _successes := [1; 3]%nat;
                    _failures := [2; 1]%nat; _total_pulls := 7 |})
     ∧ first_max 2
         (ucb_score (H := demo_numpy)
            {| cls := UCBAgent; _successes := [1; 3]%nat;
               _failures := [2; 1]%nat; _total_pulls := 7 |}) i.
Proof.
  apply (UCBAgent_get_action_best (H := demo_numpy) 2).
  - lia.
  - split; reflexivity.
  - cbn. lia.
  - apply demo_ln_nonneg. cbn. lia.
  - intros [|[|k]] Hk; [discriminate|discriminate|lia].
Defined.

(** ** Thompson sampling on any counters *)

Lemma thompson_counts_pos (c : nat * nat) :
  ((thompson_counts c).1 * (thompson_counts c).2 ≠ 0)%nat.
Proof. unfold thompson_counts. case_bool_decide; cbn; lia. Qed.

(** A round of the loop on arm [i]: the counts of the arm become
    [thompson_counts], and one sample is drawn with them. *)
Lemma thompson_round_counts (self : agent) (theta : list Qc) (i s f : nat) :
  _successes self !! i = Some s → _failures self !! i = Some f →
  thompson_round i (self, theta)
  = Beta (Qc_of_nat (thompson_counts (s, f)).1)
         (Qc_of_nat (thompson_counts (s, f)).2)
      (λ x, Ret (set_failures
                   (set_successes self
                      (<[i := (thompson_counts (s, f)).1]> (_successes self)))
                   (<[i := (thompson_counts (s, f)).2]> (_failures self)),
                 theta ++ [x])).
Proof.
  intros Hs Hf. unfold thompson_counts. cbn [fst snd].
  destruct (bool_decide (s * f = 0)%nat) eqn:Hz.
  - unfold thompson_round.
    rewrite (index_Some _ _ _ Hs), (index_Some _ _ _ Hf). prog_step.
    rewrite Hz. cbn [set_failures set_successes _successes _failures].
    unfold index. rewrite !list_lookup_insert_eq
      by (by eapply lookup_lt_Some). prog_step.
    fold (Qc_of_nat 1). by rewrite beta_counts by lia.
  - apply bool_decide_eq_false_1 in Hz.
    rewrite (thompson_round_plain self theta i s f Hs Hf Hz). cbn [fst snd].
    rewrite !list_insert_id by done. by destruct self.
Qed.

Lemma splice_next {A} (l' l : list A) (k : nat) (x y : A) :
  l' !! k = Some x → l !! k = Some y →
  <[k := x]> (take k l' ++ drop k l) = take (S k) l' ++ drop (S k) l.
Proof.
  intros Hx Hy. pose proof (lookup_lt_Some _ _ _ Hx) as Hlt.
  rewrite insert_app_r_alt by (rewrite length_take; lia).
  rewrite length_take, Nat.min_l, Nat.sub_diag by lia.
  rewrite (drop_S _ _ _ Hy), (take_S_r _ _ _ Hx). cbn.
  by rewrite <- app_assoc.
Qed.

Lemma splice_lookup {A} (l' l : list A) (k : nat) :
  (k ≤ length l')%nat → (take k l' ++ drop k l) !! k = l !! k.
Proof.
  intros Hk. rewrite lookup_app_r by (rewrite length_take; lia).
  rewrite length_take, Nat.min_l, Nat.sub_diag by lia.
  rewrite lookup_drop. f_equal. lia.
Qed.

Lemma thompson_round_upto (self : agent) (theta : list Qc) (k : nat) :
  length (_successes self) = length (_failures self) →
  (k < length (_successes self))%nat →
  ∃ a b, thompson_params self !! k = Some (a, b)
       ∧ beta a b = Beta a b Ret
       ∧ thompson_round k (thompson_upto k self, theta)
         = Beta a b (λ x, Ret (thompson_upto (S k) self, theta ++ [x])).
Proof.
  intros Hlen Hk.
  destruct (lookup_lt_is_Some_2 (_successes self) k) as [s Hs]; [lia|].
  destruct (lookup_lt_is_Some_2 (_failures self) k) as [f Hf]; [lia|].
  assert (Hz : zip (_successes self) (_failures self) !! k = Some (s, f)).
  { rewrite lookup_zip_with, Hs. cbn. by rewrite Hf. }
  set (counts := thompson_counts <$> zip (_successes self) (_failures self)).
  assert (Hc : counts !! k = Some (thompson_counts (s, f))).
  { unfold counts. by rewrite list_lookup_fmap, Hz. }
  assert (Hclen : length counts = length (_successes self)).
  { unfold counts. rewrite length_fmap, length_zip_with. lia. }
  exists (Qc_of_nat (thompson_counts (s, f)).1),
         (Qc_of_nat (thompson_counts (s, f)).2).
  split.
  { unfold thompson_params. by rewrite list_lookup_fmap, Hz. }
  split; [apply beta_counts, thompson_counts_pos|].
  rewrite (thompson_round_counts _ theta k s f).
  - f_equal. unfold thompson_upto. fold counts.
    cbn [set_failures set_successes _successes _failures cls _total_pulls].
    rewrite (splice_next _ _ _ _ s), (splice_next _ _ _ _ f); [done|..].
    + by rewrite list_lookup_fmap, Hc.
    + done.
    + by rewrite list_lookup_fmap, Hc.
    + done.
  - unfold thompson_upto. fold counts. cbn [_successes].
    rewrite splice_lookup; [done|]. rewrite length_fmap. lia.
  - unfold thompson_upto. fold counts. cbn [_failures].
    rewrite splice_lookup; [done|]. rewrite length_fmap. lia.
Qed.

Lemma thompson_loop_upto {G} (R : rng G) (self : agent) (m k : nat)
    (theta : list Qc) (g : G) :
  length (_successes self) = length (_failures self) →
  (k + m ≤ length (_successes self))%nat →
  run R (for_each (seq k m) thompson_round (thompson_upto k self, theta)) g
  = run R (xs ← sample_betas (take m (drop k (thompson_params self)));
           Ret (thompson_upto (k + m) self, theta ++ xs)) g.
Proof.
  intros Hlen. revert k theta g.
  induction m as [|m IH]; intros k theta g Hkm.
  - rewrite take_0, Nat.add_0_r. cbn. by rewrite app_nil_r.
  - destruct (thompson_round_upto self theta k Hlen)
      as (a & b & Hp & Hbeta & Hround); [lia|].
    rewrite (drop_S _ _ _ Hp), firstn_cons.
    cbn [seq for_each sample_betas]. rewrite Hround, Hbeta. cbn.
    destruct (rng_beta R a b g) as [x g'].
    rewrite IH by lia. rewrite !run_bind.
    destruct (run R (sample_betas _) g') as [e|[xs g'']]; cbn; [done|].
    rewrite <- app_assoc. do 3 f_equal. f_equal. lia.
Qed.

Lemma thompson_upto_0 (self : agent) : thompson_upto 0 self = self.
Proof. unfold thompson_upto. rewrite !take_0, !drop_0. by destruct self. Qed.

Lemma thompson_upto_all (self : agent) :
  length (_successes self) = length (_failures self) →
  thompson_upto (length (_successes self)) self = thompson_agent self.
Proof.
  intros Hlen. unfold thompson_upto, thompson_agent.
  rewrite !take_ge, !drop_ge, !app_nil_r; try done; try lia.
  all: rewrite !length_fmap, length_zip_with; lia.
Qed.

Lemma thompson_get_action_runs (self : agent) :
  length (_successes self) = length (_failures self) →
  same_runs (ThompsonSamplingAgent_get_action self) (thompson_sampling self).
Proof.
  intros Hlen G R g.
  unfold ThompsonSamplingAgent_get_action, thompson_sampling, range.
  rewrite !run_bind. rewrite <- (thompson_upto_0 self) at 2.
  rewrite thompson_loop_upto by (done || lia).
  rewrite run_bind, drop_0.
  rewrite take_ge; last first.
  { unfold thompson_params. rewrite length_fmap, length_zip_with. lia. }
  destruct (run R (sample_betas _) g) as [e|[xs g']]; cbn; [done|].
  rewrite !run_bind. cbn [Nat.add]. by rewrite thompson_upto_all.
Qed.

(** X8. On any counters of equal length,
    [ThompsonSamplingAgent.get_action] is one draw per arm, in the order of
    the arms, of Beta(1, 1) for an arm one of whose counts is zero and of
    Beta(successes, failures) for the others, then the first arm of the
    largest sample; the agent it leaves has both counts of every arm of the
    first kind set to one and everything else as before. *)
Theorem thompson_get_action_sampling (self : agent) :
  length (_successes self) = length (_failures self) →
  same_runs (ThompsonSamplingAgent_get_action self) (thompson_sampling self).
Proof. exact (thompson_get_action_runs self). Qed.

Lemma thompson_get_action_sampling_witness :
  same_runs
    (ThompsonSamplingAgent_get_action
       {| cls := ThompsonSamplingAgent; _successes := [5; 2; 0]%nat;
          _failures := [0; 3; 0]%nat; _total_pulls := 10 |})
    (thompson_sampling
       {| cls := ThompsonSamplingAgent; _successes := [5; 2; 0]%nat;
          _failures := [0; 3; 0]%nat; _total_pulls := 10 |}).
Proof.
  apply (thompson_get_action_sampling
           {| cls := ThompsonSamplingAgent; _successes := [5; 2; 0]%nat;
              _failures := [0; 3; 0]%nat; _total_pulls := 10 |}).
  reflexivity.
Defined.

Lemma run_sample_betas {G} (R : rng G) (ps : list (Qc * Qc)) (g : G) :
  Forall (λ p, beta p.1 p.2 = Beta p.1 p.2 Ret) ps →
  ∃ xs g', run R (sample_betas ps) g = inr (xs, g') ∧ length xs = length ps.
Proof.
  intros Hps. revert g. induction Hps as [|[a b] ps Hp _ IH]; intros g.
  - by exists [], g.
  - cbn [sample_betas]. cbn [fst snd] in Hp. rewrite Hp. cbn.
    destruct (rng_beta R a b g) as [x g1].
    destruct (IH g1) as (xs & g' & Hrun & Hlen).
    change (run R (Ret x ≫= _) g1)
      with (run R (sample_betas ps ≫= λ xs, Ret (x :: xs)) g1).
    rewrite run_bind, Hrun. exists (x :: xs), g'. cbn. by rewrite Hlen.
Qed.

Lemma thompson_params_pos (self : agent) :
  Forall (λ p, beta p.1 p.2 = Beta p.1 p.2 Ret) (thompson_params self).
Proof.
  unfold thompson_params. apply Forall_fmap, Forall_forall. intros c _.
  apply beta_counts, thompson_counts_pos.
Qed.

Lemma list_by_lookup {A} (d : A) (l : list A) :
  l = (λ k, default d (l !! k)) <$> range (length l).
Proof.
  apply list_eq. intros i. rewrite list_lookup_fmap. unfold range.
  destruct (decide (i < length l)%nat) as [Hi|Hi].
  - rewrite lookup_seq_lt by done. cbn.
    by destruct (lookup_lt_is_Some_2 l i Hi) as [x ->].
  - rewrite lookup_seq_ge by lia. by rewrite lookup_ge_None_2 by lia.
Qed.

(** X9. With at least one arm, [ThompsonSamplingAgent.get_action] raises
    nothing on any random source: it consumes exactly the draws of the
    samples, one per arm, and returns the first arm whose sample is largest,
    with the agent whose zero counts have been overwritten. *)
Theorem thompson_get_action_largest_sample {G} (R : rng G) (K : nat)
    (a : agent) (g : G) :
  (1 ≤ K)%nat → well_formed K a →
  ∃ theta i g',
    run R (sample_betas (thompson_params a)) g = inr (theta, g')
    ∧ length theta = K
    ∧ run R (ThompsonSamplingAgent_get_action a) g
      = inr ((i, thompson_agent a), g')
    ∧ first_max K (λ k, default 0 (theta !! k)) i.
Proof.
  intros HK [Hs Hf].
  destruct (run_sample_betas R _ g (thompson_params_pos a))
    as (theta & g' & Hrun & Hlen).
  assert (HlenK : length theta = K).
  { rewrite Hlen. unfold thompson_params.
    rewrite length_fmap, length_zip_with. lia. }
  destruct (argmax_first_max K (λ k, default 0 (theta !! k)) HK) as (i & Hi & Hmax).
  exists theta, i, g'. split; [done|]. split; [done|]. split; [|done].
  rewrite thompson_get_action_runs by congruence.
  unfold thompson_sampling. rewrite run_bind, Hrun. cbn.
  rewrite (list_by_lookup 0 theta) at 1. rewrite HlenK, Hi. done.
Qed.

Lemma thompson_get_action_largest_sample_witness :
  ∃ theta i g',
    run mean_rng (sample_betas (thompson_params two_arms)) ()
    = inr (theta, g')
    ∧ length theta = 2%nat
    ∧ run mean_rng (ThompsonSamplingAgent_get_action two_arms) ()
      = inr ((i, thompson_agent two_arms), g')
    ∧ first_max 2 (λ k, default 0 (theta !! k)) i.
Proof.
  apply (thompson_get_action_largest_sample mean_rng 2 two_arms ()).
  - lia.
  - split; reflexivity.
Defined.

(** ** Agents without arms *)

Lemma no_arms (a : agent) :
  well_formed 0 a → _successes a = [] ∧ _failures a = [].
Proof. intros [Hs Hf]. split; by apply nil_length_inv. Qed.

(** X10. An agent whose counters are empty (after [init_actions(0)])
    cannot choose: on every random source [get_action] raises ValueError,
    from [randint(0, 0)] or from [np.argmax] of an empty array, for each of
    the four classes. *)
Theorem get_action_no_arms `{Numpy} {G} (R : rng G) (a : agent) (g : G) :
  well_formed 0 a →
  ∃ msg, run R (get_action a) g = inl (ValueError msg).
Proof.
  intros Hwf. destruct (no_arms a Hwf) as [Hs Hf].
  unfold get_action. destruct (cls a) as [|epsilon| |].
  - unfold RandomAgent_get_action. rewrite Hs. cbn. eauto.
  - unfold EpsilonGreedyAgent_get_action, success_rate, pulls.
    rewrite Hs, Hf. cbn. destruct (rng_random R g) as [u g'].
    destruct (bool_decide (u < epsilon)); cbn; eauto.
  - destruct (ucb_index_lookup 0 a Hwf) as (l & w & Hl & Hlen & _).
    apply nil_length_inv in Hlen as ->.
    unfold UCBAgent_get_action. rewrite Hl. cbn. eauto.
  - unfold ThompsonSamplingAgent_get_action. rewrite Hs. cbn. eauto.
Qed.

Lemma get_action_no_arms_witness :
  ∃ msg, run demo_rng
           (get_action (H := demo_numpy) (init_actions (fresh UCBAgent) 0))
           3%nat
         = inl (ValueError msg).
Proof.
  apply (get_action_no_arms (H := demo_numpy) demo_rng
           (init_actions (fresh UCBAgent) 0) 3%nat).
  split; reflexivity.
Defined.

(** ** Names *)

Lemma append_length (s t : string) :
  String.length (s +:+ t) = (String.length s + String.length t)%nat.
Proof. induction s as [|c s IH]; [done|]. cbn. by rewrite <- IH. Qed.

Lemma append_inj_r (s1 s2 t : string) : s1 +:+ t = s2 +:+ t → s1 = s2.
Proof.
  revert s2. induction s1 as [|c1 s1 IH]; intros [|c2 s2] Heq.
  - done.
  - apply (f_equal String.length) in Heq.
    rewrite !append_length in Heq. cbn in Heq. lia.
  - apply (f_equal String.length) in Heq.
    rewrite !append_length in Heq. cbn in Heq. lia.
  - change (String c1 (s1 +:+ t) = String c2 (s2 +:+ t)) in Heq.
    injection Heq as -> Heq. f_equal. by apply IH.
Qed.

Lemma name_eq_cases `{Numpy} (a b : agent) :
  name a = name b
  ↔ match cls a, cls b with
    | EpsilonGreedyAgent e1, EpsilonGreedyAgent e2 =>
        py_format e1 = py_format e2
    | c1, c2 => c1 = c2
    end.
Proof.
  unfold name. destruct (cls a) as [|e1| |], (cls b) as [|e2| |];
    (split; [|try by (intros ->)]); try (by intros; discriminate);
    try done.
  intros Heq. apply (append_inj_r _ _ ")").
  unfold String.append in Heq. fold String.append in Heq.
  by simplify_eq.
Qed.

(** X11. Two agents have the same [name], and so share one entry of the
    mapping [get_regret] returns, exactly when they are of the same class
    or are both epsilon-greedy with epsilons that [format] prints alike. *)
Theorem name_shared `{Numpy} (a b : agent) :
  name a = name b
  ↔ match cls a, cls b with
    | EpsilonGreedyAgent e1, EpsilonGreedyAgent e2 =>
        py_format e1 = py_format e2
    | c1, c2 => c1 = c2
    end.
Proof. exact (name_eq_cases a b). Qed.

(** ** The evaluation, whatever the names *)

(** X12. For any list of agents, also with names that repeat: on every
    random source whose [randint] respects its bounds, with at least one
    arm and one trial, [get_regret] raises nothing, makes one pull per
    trial, step and agent, and returns under the name of each agent
    [n_steps] finite values: the regret credited at each step to the agents
    of that name, cumulated over the steps and divided by the number of
    trials once for every agent of that name. *)
Theorem get_regret_by_name `{Numpy} {G} (R : rng G) (g : G)
    (e : BernoulliBandit) (agents0 : list agent) (n_steps n_trials : nat) :
  rng_ok R →
  (1 ≤ action_count e)%nat → (1 ≤ n_trials)%nat →
  ∃ st g',
    run R (get_regret_frame e agents0 n_steps n_trials) g = inr (st, g')
    ∧ run R (get_regret e agents0 n_steps n_trials) g = inr (scores st, g')
    ∧ complete_history e (length agents0) n_steps n_trials (history st)
    ∧ ∀ a, a ∈ agents0 →
        ∃ l, scores st !! name a = Some l ∧ length l = n_steps
           ∧ ∀ t, (t < n_steps)%nat →
               l !! t
               = Some (Fin (Nat.iter
                              (times_named agents0 (name a)
                                 (range (length agents0)))
                              (cumulate n_trials)
                              (credited agents0 (history st) (name a)) t)).
Proof.
  intros HR HK HN.
  destruct (returns_run R _ _ g HR
              (get_regret_frame_returns e agents0 n_steps HK n_trials))
    as (st & g' & Hrun & Hfin).
  exists st, g'. split; [done|]. split.
  { unfold get_regret. by rewrite run_bind, Hrun. }
  split; [by destruct Hfin|].
  intros a Ha. destruct Hfin as [_ _ Hscores].
  destruct (Hscores (name a)) as (l & Hlen & Hl & Hs).
  { apply list_elem_of_fmap. eauto. }
  rewrite (pointwise_Fin l n_steps _ Hlen Hl), iter_cumsum_over in Hs by done.
  eexists. split; [exact Hs|]. split.
  - unfold range. by rewrite !length_fmap, length_seq.
  - intros t Ht. rewrite !list_lookup_fmap. unfold range.
    by rewrite lookup_seq_lt.
Qed.

Lemma get_regret_by_name_witness :
  ∃ st g',
    run demo_rng
      (get_regret_frame (H := demo_numpy) {| _probs := [half; 1] |}
         [fresh RandomAgent; fresh RandomAgent] 2 1) 3%nat
    = inr (st, g')
    ∧ run demo_rng
        (get_regret (H := demo_numpy) {| _probs := [half; 1] |}
           [fresh RandomAgent; fresh RandomAgent] 2 1) 3%nat
      = inr (scores st, g')
    ∧ complete_history {| _probs := [half; 1] |} 2 2 1 (history st)
    ∧ ∀ a, a ∈ [fresh RandomAgent; fresh RandomAgent] →
        ∃ l, scores st !! name (H := demo_numpy) a = Some l
           ∧ length l = 2%nat
           ∧ ∀ t, (t < 2)%nat →
               l !! t
               = Some (Fin (Nat.iter
                              (times_named (H := demo_numpy)
                                 [fresh RandomAgent; fresh RandomAgent]
                                 (name (H := demo_numpy) a) (range 2))
                              (cumulate 1)
                              (credited (H := demo_numpy)
                                 [fresh RandomAgent; fresh RandomAgent]
                                 (history st) (name (H := demo_numpy) a))
                              t)).
Proof.
  apply (get_regret_by_name (H := demo_numpy) demo_rng 3%nat
           {| _probs := [half; 1] |}
           [fresh RandomAgent; fresh RandomAgent] 2 1).
  - exact demo_rng_ok.
  - cbn. lia.
  - lia.
Defined.

(** ** The notebook's evaluation *)

Lemma notebook_names `{Numpy} (epsilon : Qc) :
  NoDup (name <$> [fresh (EpsilonGreedyAgent epsilon); fresh UCBAgent;
                   fresh ThompsonSamplingAgent]).
Proof.
  cbn [fmap list_fmap]. repeat apply NoDup_cons_2.
  - rewrite !not_elem_of_cons. split; [|split].
    + intros Heq. by apply name_eq_cases in Heq.
    + intros Heq. by apply name_eq_cases in Heq.
    + apply not_elem_of_nil.
  - rewrite !not_elem_of_cons. split.
    + intros Heq. by apply name_eq_cases in Heq.
    + apply not_elem_of_nil.
  - apply not_elem_of_nil.
  - apply NoDup_nil_2.
Qed.

(** X13. The evaluation as the notebook runs it:
    [get_regret(BernoulliBandit(n_actions), agents, n_steps, n_trials)] with
    an epsilon-greedy, a UCB and a Thompson-sampling agent.  On a random
    source whose [randint] respects its bounds, with at least one arm and
    one trial, the constructor returns an environment of [n_actions] arms,
    and the evaluation on it raises nothing and returns three curves, one
    under each agent's name: these names never coincide, and each curve is
    the mean cumulative regret of its agent. *)
Theorem notebook_evaluation `{Numpy} {G} (R : rng G) (g : G) (epsilon : Qc)
    (n_actions n_steps n_trials : nat) :
  rng_ok R → (1 ≤ n_actions)%nat → (1 ≤ n_trials)%nat →
  let agents := [fresh (EpsilonGreedyAgent epsilon); fresh UCBAgent;
                 fresh ThompsonSamplingAgent] in
  ∃ e g1 st g',
    run R (BernoulliBandit_init n_actions) g = inr (e, g1)
    ∧ action_count e = n_actions
    ∧ run R (e ← BernoulliBandit_init n_actions;
             get_regret e agents n_steps n_trials) g
      = inr (scores st, g')
    ∧ run R (get_regret_frame e agents n_steps n_trials) g1 = inr (st, g')
    ∧ complete_history e 3 n_steps n_trials (history st)
    ∧ regret_curves agents n_steps n_trials (history st) (scores st).
Proof.
  intros HR HK HN agents.
  destruct (run_random_sample R n_actions g (λ _, True))
    as (us & g1 & Hinit & Hlen & _); [done|].
  set (e := {| _probs := us |}).
  assert (HKe : (1 ≤ action_count e)%nat) by (unfold action_count; cbn; lia).
  destruct (returns_run R _ _ g1 HR
              (get_regret_frame_returns e agents n_steps HKe n_trials))
    as (st & g' & Hrun & Hfin).
  assert (Hnew : run R (BernoulliBandit_init n_actions) g = inr (e, g1)).
  { unfold BernoulliBandit_init. by rewrite run_bind, Hinit. }
  exists e, g1, st, g'. split; [done|]. split; [done|]. split.
  { rewrite run_bind, Hnew. unfold get_regret. by rewrite run_bind, Hrun. }
  split; [done|]. split; [by destruct Hfin|].
  apply (finish_inv_regret_curves e); [apply notebook_names|done|done].
Qed.

Lemma notebook_evaluation_witness :
  ∃ e g1 st g',
    run demo_rng (BernoulliBandit_init 5) 3%nat = inr (e, g1)
    ∧ action_count e = 5%nat
    ∧ run demo_rng
        (e ← BernoulliBandit_init 5;
         get_regret (H := demo_numpy) e
           [fresh (EpsilonGreedyAgent half); fresh UCBAgent;
            fresh ThompsonSamplingAgent] 4 2) 3%nat
      = inr (scores st, g')
    ∧ run demo_rng
        (get_regret_frame (H := demo_numpy) e
           [fresh (EpsilonGreedyAgent half); fresh UCBAgent;
            fresh ThompsonSamplingAgent] 4 2) g1
      = inr (st, g')
    ∧ complete_history e 3 4 2 (history st)
    ∧ regret_curves (H := demo_numpy)
        [fresh (EpsilonGreedyAgent half); fresh UCBAgent;
         fresh ThompsonSamplingAgent] 4 2 (history st) (scores st).
Proof.
  apply (notebook_evaluation (H := demo_numpy) demo_rng 3%nat half 5 4 2).
  - exact demo_rng_ok.
  - lia.
  - lia.
Defined.

(** ** The expected regret of the random agent *)

Lemma mean_affine {A} (c d : Qc) (f : A → Qc) (l : list A) :
  (0 < length l)%nat →
  mean ((λ x, c + d * f x) <$> l) = c + d * mean (f <$> l).
Proof.
  intros Hl. unfold mean. rewrite !length_fmap.
  rewrite (sum_Qc_plus (λ _, c) (λ x, d * f x)), sum_Qc_const, sum_Qc_scale.
  assert (Hne : Qc_of_nat (length l) ≠ 0) by (apply Qc_of_nat_nonzero; lia).
  unfold Qcdiv. rewrite Qcmult_plus_distr_l.
  rewrite <- (Qcmult_assoc _ c), (Qcmult_comm c), Qcmult_assoc.
  rewrite Qcmult_inv_r by done. ring.
Qed.

Lemma sum_Qc_zeros {A} (l : list A) : sum_Qc ((λ _, 0) <$> l) = 0.
Proof. rewrite sum_Qc_const. ring. Qed.

Lemma sum_Qc_at (c : Qc) (s n : nat) :
  sum_Qc ((λ i, if decide (i = s) then c else 0) <$> seq 0 n)
  = if decide (s < n)%nat then c else 0.
Proof.
  induction n as [|n IH]; [done|].
  rewrite seq_S, fmap_app, sum_Qc_app, IH. cbn [fmap list_fmap Nat.add].
  unfold sum_Qc at 1. cbn [foldr].
  repeat case_decide; try lia; ring.
Qed.

Lemma sum_Qc_filter {A} (P : A → Prop) `{!∀ x, Decision (P x)} (c : Qc)
    (l : list A) :
  sum_Qc ((λ x, if decide (P x) then c else 0) <$> l)
  = Qc_of_nat (length (filter P l)) * c.
Proof.
  induction l as [|x l IH].
  - cbn. unfold sum_Qc. cbn. rewrite Qc_of_nat_0. ring.
  - rewrite fmap_cons, filter_cons. unfold sum_Qc in *. cbn [foldr].
    rewrite IH. destruct (decide (P x)); [|ring].
    cbn [length]. replace (S (length (filter P l)))
      with (length (filter P l) + 1)%nat by lia.
    rewrite Qc_of_nat_add.
    assert (Qc_of_nat 1 = 1) as -> by (by apply Qc_is_canon). ring.
Qed.

Section uniform.
Context `{Numpy}.
Variables (L : laws) (e : BernoulliBandit) (agents0 : list agent).
Variables (n_steps : nat) (key : string) (s : nat) (optimal : Qc).
Hypothesis arms : (1 ≤ action_count e)%nat.
Hypothesis draws : fair L e.
Hypothesis best : np_max (_probs e) = inr optimal.
Hypothesis random_key :
  ∀ j a0, agents0 !! j = Some a0 → name a0 = key → cls a0 = RandomAgent.

Local Abbreviation φ := (credit_at agents0 key s).
Local Abbreviation in_trial := (in_trial e agents0 n_steps).
Local Abbreviation random_law := (fair_random L e draws).
Local Abbreviation beta_laws := (fair_beta L e draws).
Local Abbreviation named j := (name <$> agents0 !! j = Some key).

(** A loop whose rounds add [δ] to the expected value of [φ] adds the sum. *)
Lemma expect_for_each_add {A S} (I : S → Prop) (ψ : S → Qc) (δ : A → Qc)
    (l : list A) (body : A → S → prog S) (st : S) :
  (∀ x st, x ∈ l → I st → returns I (body x st)) →
  (∀ x st, x ∈ l → I st → expect L (body x st) ψ = ψ st + δ x) →
  I st → expect L (for_each l body st) ψ = ψ st + sum_Qc (δ <$> l).
Proof.
  clear arms best random_key.
  revert st. induction l as [|x l IH]; intros st Hret Hadd Hst.
  - cbn. unfold sum_Qc. cbn. ring.
  - cbn [for_each]. rewrite (expect_bind L random_law beta_laws).
    rewrite (expect_ext L random_law beta_laws I _ _
               (λ st', ψ st' + sum_Qc (δ <$> l))); last first.
    + intros st' Hst'. apply IH; [| |done].
      * intros y t Hy. apply Hret. by right.
      * intros y t Hy. apply Hadd. by right.
    + apply Hret; [left|done].
    + rewrite (expect_plus L random_law beta_laws I); last first.
      { apply Hret; [left|done]. }
      rewrite (expect_const L random_law beta_laws I); last first.
      { apply Hret; [left|done]. }
      rewrite Hadd by (done || left). rewrite fmap_cons.
      unfold sum_Qc. cbn [foldr]. ring.
Qed.

(** The end of a turn, from the pull on: the credit grows in the mean by
    [optimal] minus the probability of the arm, for the agents named [key]
    at step [s], and by nothing for the others. *)
Lemma pull_settle_expect (st : frame) (keys : list (nat * nat * nat))
    (trial i j action : nat) (a0 a' : agent) (p : Qc) :
  loop_inv e agents0 n_steps keys st → ready e st →
  agents0 !! j = Some a0 → (i < n_steps)%nat →
  cls a' = cls a0 → well_formed (action_count e) a' →
  _probs e !! action = Some p →
  expect L ('(reward, e') ← pull (env st) action;
            settle trial i optimal j st action a' reward e') φ
  = φ st + (if decide (named j ∧ i = s) then optimal - p else 0).
Proof.
  clear random_key.
  intros Hinv Hready Ha0 Hi Hcls Hwf Hp.
  rewrite (inv_env _ _ _ _ _ Hinv).
  destruct (pull_Random e action p Hp) as (k & Hpull & Hk).
  rewrite Hpull. cbn [mbind prog_mbind prog_bind expect].
  set (c := if decide (named j ∧ i = s) then 1 else 0).
  rewrite (int_ext _ random_law _
    (λ u, (φ st + c * optimal)
          + (- c) * (if bool_decide (u ≤ p) then 1 else 0))).
  - rewrite (integral_affine _ _ _ _ random_law).
    rewrite (fair_uniform L e draws p)
      by (by apply list_elem_of_lookup_2 with action).
    unfold c. destruct (decide (named j ∧ i = s)); ring.
  - intros u. rewrite Hk. prog_step.
    destruct (settle_Ret e agents0 n_steps keys st trial i j action optimal
                (if bool_decide (u ≤ p) then 1 else 0) a0 a')
      as (st' & Hst' & Hhist & _); try done.
    { by apply lookup_lt_Some in Hp. }
    { case_bool_decide; auto. }
    rewrite Hst'. cbn [expect]. unfold credit_at. rewrite Hhist, credited_snoc.
    cbn [ev_agent ev_step]. unfold c, regret_of. cbn [ev_optimal ev_reward].
    destruct (decide (named j ∧ i = s)); ring.
Qed.

(** The turn of an agent: for a random agent the arm is uniform, and the
    probability of the arm is, in the mean, the mean of the probabilities. *)
Lemma agent_turn_drift (st : frame) (trial i j : nat) :
  in_trial st → (j < length agents0)%nat → (i < n_steps)%nat →
  expect L (agent_turn trial i optimal j st) φ
  = φ st + (if decide (named j ∧ i = s)
            then optimal - mean (_probs e) else 0).
Proof.
  intros [[keys Hinv] Hready] Hj Hi.
  destruct (lookup_lt_is_Some_2 agents0 j Hj) as [a0 Ha0].
  destruct (loop_inv_agent _ _ _ _ _ _ _ Hinv Ha0) as (a & Ha & Hcls).
  assert (Hwf : well_formed (action_count e) a).
  { unfold ready in Hready. rewrite Forall_lookup in Hready. eauto. }
  unfold agent_turn. rewrite (index_Some _ _ _ Ha). prog_step.
  rewrite (expect_bind L random_law beta_laws).
  destruct (decide (named j ∧ i = s)) as [[Hnamed ->]|Hother].
  - assert (Hrandom : cls a = RandomAgent).
    { rewrite Hcls. apply (random_key j); [done|].
      rewrite Ha0 in Hnamed. by injection Hnamed. }
    unfold get_action. rewrite Hrandom. unfold RandomAgent_get_action.
    destruct Hwf as [Hs Hf]. rewrite Hs. unfold randint.
    rewrite decide_True by lia. cbn [mbind prog_mbind prog_bind expect].
    rewrite Nat.sub_0_r.
    rewrite (list_fmap_ext _
      (λ n, (φ st + optimal) + (-(1)) * default 0 (_probs e !! n))
      (seq 0 (action_count e))).
    + rewrite mean_affine by (rewrite length_seq; lia).
      unfold action_count. fold (range (length (_probs e))).
      rewrite <- (list_by_lookup 0 (_probs e)). ring.
    + intros k n Hn. apply lookup_seq in Hn as [-> Hk]. cbn [Nat.add].
      destruct (lookup_lt_is_Some_2 (_probs e) k Hk) as [p Hp].
      cbn [expect]. rewrite (pull_settle_expect st keys trial s j k a0 a p)
        by (done || by split).
      rewrite Hp, decide_True by done. cbn. ring.
  - pose proof (get_action_returns _ a arms Hwf) as Hget.
    rewrite (expect_ext L random_law beta_laws _ _ _ (λ _, φ st) Hget).
    + rewrite (expect_const L random_law beta_laws _ _ _ Hget). ring.
    + intros [action a'] (Hact & Hcls' & Hwf'). cbn [fst snd] in *.
      destruct (lookup_lt_is_Some_2 (_probs e) action Hact) as [p Hp].
      rewrite (pull_settle_expect st keys trial i j action a0 a' p)
        by (done || congruence).
      rewrite decide_False by done. ring.
Qed.

Local Abbreviation pace :=
  (Qc_of_nat (times_named agents0 key (range (length agents0)))
   * (optimal - mean (_probs e))).

Lemma step_body_drift (st : frame) (trial i : nat) :
  in_trial st → (i < n_steps)%nat →
  expect L (step_body trial i st) φ
  = φ st + (if decide (i = s) then pace else 0).
Proof.
  intros Hst Hi. pose proof Hst as [[keys Hinv] Hready].
  unfold step_body, optimal_reward.
  rewrite (inv_env _ _ _ _ _ Hinv), best. prog_step.
  rewrite (expect_bind L random_law beta_laws).
  rewrite (loop_inv_length _ _ _ _ _ Hinv).
  match goal with
  | |- expect _ (for_each ?l ?b ?s0) _ = ?rhs =>
      change (expect L (for_each l b s0) φ = rhs)
  end.
  rewrite (expect_for_each_add in_trial φ
             (λ j, if decide (named j ∧ i = s)
                   then optimal - mean (_probs e) else 0)).
  - change (φ (set_env st e)) with (φ st). f_equal.
    destruct (decide (i = s)) as [->|Hne].
    + unfold times_named. rewrite <- (sum_Qc_filter (λ j, named j)). f_equal.
      apply list_fmap_ext. intros k j _.
      destruct (decide (named j)).
      * by rewrite decide_True.
      * rewrite decide_False; [done|]. by intros [? _].
    + transitivity (sum_Qc ((λ _ : nat, 0) <$> range (length agents0)));
        [|apply sum_Qc_zeros].
      f_equal. apply list_fmap_ext. intros k j _.
      rewrite decide_False; [done|]. by intros [_ ?].
  - intros j st' Hj Hst'. apply agent_turn_in_trial; try done.
    apply elem_of_seq in Hj. lia.
  - intros j st' Hj Hst'. apply agent_turn_drift; try done.
    apply elem_of_seq in Hj. lia.
  - by apply in_trial_set_env.
Qed.

Lemma trial_body_drift (st : frame) (trial : nat) :
  (∃ keys, loop_inv e agents0 n_steps keys st) → (s < n_steps)%nat →
  expect L (trial_body n_steps trial st) φ = φ st + pace.
Proof.
  intros Hst Hs. unfold trial_body, reset. prog_step.
  match goal with
  | |- expect _ (for_each _ _ ?s0) _ = _ =>
      change (expect L (for_each (range n_steps) (step_body trial) s0) φ
              = φ s0 + pace)
  end.
  rewrite (expect_for_each_add in_trial φ
             (λ i, if decide (i = s) then pace else 0)).
  - f_equal. unfold range. rewrite sum_Qc_at. by rewrite decide_True.
  - intros i st' Hi Hst'. apply step_body_in_trial; [done|done|].
    apply elem_of_seq in Hi. lia.
  - intros i st' Hi Hst'. apply step_body_drift; [done|].
    apply elem_of_seq in Hi. lia.
  - by apply trial_body_start.
Qed.

(** Over the whole evaluation, the expected credit of a bucket of the
    random agents is one pace per trial. *)
Lemma frame_drift (n_trials : nat) :
  (s < n_steps)%nat →
  expect L (get_regret_frame e agents0 n_steps n_trials) φ
  = Qc_of_nat n_trials * pace.
Proof.
  intros Hs. unfold get_regret_frame. cbv zeta.
  rewrite (expect_bind L random_law beta_laws).
  rewrite (expect_ext L random_law beta_laws _ _ _ φ
             (trials_return e agents0 n_steps arms n_trials)).
  - match goal with
    | |- expect _ (for_each _ _ ?s0) _ = _ =>
        replace (Qc_of_nat n_trials * pace)
          with (φ s0 + sum_Qc ((λ _, pace) <$> range n_trials))
    end.
    + apply (expect_for_each_add
               (λ st, ∃ keys, loop_inv e agents0 n_steps keys st)).
      * intros trial st _ [keys Hinv].
        eapply returns_mono;
          [by apply (trial_body_returns e agents0 n_steps arms keys)|].
        intros st' Hst'. eauto.
      * intros trial st _ Hst. by apply trial_body_drift.
      * exists []. apply loop_inv_start.
    + rewrite sum_Qc_const. unfold range. rewrite length_seq.
      unfold credit_at, credited. cbn. unfold sum_Qc. cbn. ring.
  - intros st Hst.
    pose proof (finals_keep_history e agents0 n_steps n_trials st Hst) as Hfin.
    rewrite (expect_ext L random_law beta_laws _ _ _ (λ _, φ st) Hfin).
    + by apply (expect_const L random_law beta_laws _ _ _ Hfin).
    + intros st' Hst'. unfold credit_at. by rewrite Hst'.
Qed.

End uniform.

Lemma sum_Qc_replicate {A} (c : Qc) (l : list A) (f : A → Qc) :
  (∀ x, x ∈ l → f x = c) → sum_Qc (f <$> l) = Qc_of_nat (length l) * c.
Proof.
  intros Hf. rewrite <- sum_Qc_const. f_equal. apply list_fmap_ext.
  intros i x Hx. apply Hf. by apply list_elem_of_lookup_2 with i.
Qed.

(** X14. The regret of the random agent grows linearly in the mean: when
    the draws follow probability laws under which a pull of an arm succeeds
    with the probability of the arm, and the names of the agents differ, the
    expected value at step [t] of the curve [get_regret] returns for a
    [RandomAgent] is (t + 1) times the gap between the best probability and
    the mean of the probabilities, whatever the other agents do. *)
Theorem random_agent_expected_regret `{Numpy} (L : laws) (e : BernoulliBandit)
    (agents0 : list agent) (n_steps n_trials : nat) (a : agent) (t : nat)
    (optimal : Qc) :
  fair L e →
  (1 ≤ action_count e)%nat → (1 ≤ n_trials)%nat →
  NoDup (name <$> agents0) →
  a ∈ agents0 → cls a = RandomAgent → (t < n_steps)%nat →
  np_max (_probs e) = inr optimal →
  expect L (get_regret e agents0 n_steps n_trials) (value_at (name a) t)
  = Qc_of_nat (S t) * (optimal - mean (_probs e)).
Proof.
  intros Hfair HK HN Hnd Ha Hcls Ht Hbest.
  pose proof (fair_random L e Hfair) as Hrandom.
  pose proof (fair_beta L e Hfair) as Hbeta.
  pose proof (get_regret_frame_returns e agents0 n_steps HK n_trials) as Hret.
  assert (Hkey : name a ∈ name <$> agents0).
  { apply list_elem_of_fmap. eauto. }
  assert (Hrandom_key : ∀ j a0, agents0 !! j = Some a0 →
            name a0 = name a → cls a0 = RandomAgent).
  { intros j a0 _ Hname. apply name_eq_cases in Hname.
    rewrite Hcls in Hname. by destruct (cls a0). }
  apply list_elem_of_lookup in Ha as [j Hj].
  pose proof (times_named_once agents0 Hnd j a Hj) as Htimes.
  unfold get_regret. rewrite (expect_bind L Hrandom Hbeta). cbn [expect].
  rewrite (expect_ext L Hrandom Hbeta _ _ _
    (λ st, / Qc_of_nat n_trials
           * sum_Qc ((λ i, credit_at agents0 (name a) i st)
                       <$> range (S t))) Hret); last first.
  { intros st Hst. rewrite (value_at_final e agents0 n_steps n_trials st)
      by (done || lia). rewrite Htimes. cbn [Nat.iter nat_rect].
    unfold cumulate, Qcdiv. apply Qcmult_comm. }
  rewrite expect_scale by done.
  rewrite (expect_sum L Hrandom Hbeta _ _ _ _ Hret).
  rewrite (sum_Qc_replicate
             (Qc_of_nat n_trials * (optimal - mean (_probs e)))).
  - unfold range. rewrite length_seq.
    assert (Hne : Qc_of_nat n_trials ≠ 0) by (by apply Qc_of_nat_nonzero).
    field. done.
  - intros i Hi. apply elem_of_seq in Hi.
    rewrite (frame_drift L e agents0 n_steps (name a) i optimal)
      by (done || lia).
    rewrite Htimes. assert (Qc_of_nat 1 = 1) as -> by (by apply Qc_is_canon).
    ring.
Qed.

Lemma random_agent_expected_regret_witness :
  expect demo_laws
    (get_regret (H := demo_numpy) {| _probs := [half; 1] |}
       [fresh RandomAgent; fresh UCBAgent] 3 2)
    (value_at (name (H := demo_numpy) (fresh RandomAgent)) 1)
  = Qc_of_nat 2 * (1 - mean [half; 1]).
Proof.
  apply (random_agent_expected_regret (H := demo_numpy) demo_laws
           {| _probs := [half; 1] |} [fresh RandomAgent; fresh UCBAgent]
           3 2 (fresh RandomAgent) 1 1).
  - exact demo_laws_fair.
  - cbn. lia.
  - lia.
  - apply (bool_decide_unpack _). vm_compute. reflexivity.
  - left.
  - reflexivity.
  - lia.
  - reflexivity.
Defined.

(** ** The counters the agents come with *)

Lemma new_scores_cls `{Numpy} (l l' : list agent) (n_steps : nat) :
  cls <$> l = cls <$> l' → new_scores l n_steps = new_scores l' n_steps.
Proof.
  intros Hcls. unfold new_scores. generalize (∅ : gmap string (list npfloat)).
  revert l' Hcls. induction l as [|a l IH]; intros [|a' l'] Hcls d;
    try done.
  injection Hcls as Ha Hl. cbn [foldl]. rewrite (name_cls a a' Ha).
  by apply IH.
Qed.

Lemma init_actions_cls (l l' : list agent) (n_actions : nat) :
  cls <$> l = cls <$> l' →
  (λ a, init_actions a n_actions) <$> l
  = (λ a, init_actions a n_actions) <$> l'.
Proof.
  revert l'. induction l as [|a l IH]; intros [|a' l'] Hcls; try done.
  injection Hcls as Ha Hl. cbn [fmap list_fmap]. f_equal; [|by apply IH].
  unfold init_actions. by rewrite Ha.
Qed.

(** A trial starts with [init_actions]: of the agents it is given, only the
    classes matter. *)
Lemma trial_body_cls `{Numpy} (n_steps trial : nat) (st st' : frame) :
  env st = env st' → scores st = scores st' → history st = history st' →
  cls <$> agents st = cls <$> agents st' →
  trial_body n_steps trial st = trial_body n_steps trial st'.
Proof.
  intros Henv Hscores Hhist Hcls. unfold trial_body, reset. prog_step.
  f_equal. unfold set_agents, set_env.
  cbn [env agents scores history].
  rewrite Henv, Hscores, Hhist. f_equal. by apply init_actions_cls.
Qed.

(** X15. [get_regret] forgets what the agents have learned before the
    call: with at least one trial, the evaluation of a list of agents is
    the evaluation of any list of agents of the same classes, whatever
    their counters, because every trial begins with [init_actions]. *)
Theorem get_regret_forgets `{Numpy} (e : BernoulliBandit)
    (agents1 agents2 : list agent) (n_steps n_trials : nat) :
  (1 ≤ n_trials)%nat →
  cls <$> agents1 = cls <$> agents2 →
  get_regret e agents1 n_steps n_trials
  = get_regret e agents2 n_steps n_trials.
Proof.
  intros HN Hcls. destruct n_trials as [|N]; [lia|].
  assert (Hlen : length agents1 = length agents2).
  { by rewrite <- (length_fmap cls agents1), Hcls, length_fmap. }
  unfold get_regret, get_regret_frame. cbv zeta. unfold range.
  cbn [seq for_each]. rewrite Hlen.
  rewrite (trial_body_cls n_steps 0
             {| env := e; agents := agents1;
                scores := new_scores agents1 n_steps; history := [] |}
             {| env := e; agents := agents2;
                scores := new_scores agents2 n_steps; history := [] |});
    try done.
  by apply new_scores_cls.
Qed.

Lemma get_regret_forgets_witness :
  get_regret (H := demo_numpy) {| _probs := [half; 1] |}
    [two_arms; {| cls := UCBAgent; _successes := [3]%nat;
                  _failures := []; _total_pulls := 9 |}] 3 2
  = get_regret (H := demo_numpy) {| _probs := [half; 1] |}
      [fresh ThompsonSamplingAgent; fresh UCBAgent] 3 2.
Proof.
  apply (get_regret_forgets (H := demo_numpy) {| _probs := [half; 1] |}
           [two_arms; {| cls := UCBAgent; _successes := [3]%nat;
                         _failures := []; _total_pulls := 9 |}]
           [fresh ThompsonSamplingAgent; fresh UCBAgent] 3 2).
  - lia.
  - reflexivity.
Defined.

(** ** The keys of the mapping *)

Lemma always_true {A} (m : prog A) : always (λ _, True) m.
Proof. induction m; cbn; auto. Qed.

Lemma always_mono {A} (P Q : A → Prop) (m : prog A) :
  always P m → (∀ a, P a → Q a) → always Q m.
Proof. intros Hm HPQ. induction m; cbn in *; auto. Qed.

Lemma always_bind {A B} (Q : A → Prop) (P : B → Prop) (m : prog A)
    (f : A → prog B) :
  always Q m → (∀ a, Q a → always P (f a)) → always P (m ≫= f).
Proof.
  intros Hm Hf. induction m; cbn in *; auto.
Qed.

Lemma always_then {A B} (P : B → Prop) (m : prog A) (f : A → prog B) :
  (∀ a, always P (f a)) → always P (m ≫= f).
Proof.
  intros Hf. apply (always_bind (λ _, True)); [apply always_true|auto].
Qed.

Lemma always_for_each {A S} (I : S → Prop) (l : list A)
    (body : A → S → prog S) (s : S) :
  (∀ x s, I s → always I (body x s)) → I s → always I (for_each l body s).
Proof.
  intros Hbody. revert s. induction l as [|x l IH]; intros s Hs; [done|].
  cbn [for_each]. apply (always_bind I); auto.
Qed.

Lemma returns_always {A} (P Q : A → Prop) (m : prog A) :
  returns P m → always Q m → returns (λ a, P a ∧ Q a) m.
Proof.
  induction 1 as [a Ha|k Hk IH|lo hi k Hlt Hk IH|a b k Hk IH]; intros Hq;
    cbn in Hq; constructor; auto.
Qed.

Section keys.
Context `{Numpy}.
Variable (D : gset string).

Local Abbreviation keeps st := (dom (scores st) = D).

Lemma credit_keys (trial i : nat) (optimal : Qc) (j : nat) (key : string)
    (reward : Qc) (st : frame) :
  keeps st → always (λ st', keeps st') (credit trial i optimal j key reward st).
Proof.
  intros Hst. unfold credit, getitem.
  destruct (scores st !! key) as [bucket|] eqn:Hb; [|done]. prog_step.
  destruct (index bucket i) as [err|x]; [done|]. prog_step. cbn.
  rewrite dom_insert_lookup_L; [done|]. by rewrite Hb.
Qed.

Lemma agent_turn_keys (trial i : nat) (optimal : Qc) (j : nat) (st : frame) :
  keeps st → always (λ st', keeps st') (agent_turn trial i optimal j st).
Proof.
  intros Hst. unfold agent_turn.
  apply always_then. intros a. apply always_then. intros [action a'].
  apply always_then. intros [reward e']. unfold settle.
  apply always_then. intros a''. by apply credit_keys.
Qed.

Lemma step_body_keys (trial i : nat) (st : frame) :
  keeps st → always (λ st', keeps st') (step_body trial i st).
Proof.
  intros Hst. unfold step_body.
  apply always_then. intros [optimal e'].
  apply (always_bind (λ st', keeps st')).
  - apply always_for_each; [|done]. intros j st'. apply agent_turn_keys.
  - intros st' Hst'. by unfold step.
Qed.

Lemma trial_body_keys (n_steps trial : nat) (st : frame) :
  keeps st → always (λ st', keeps st') (trial_body n_steps trial st).
Proof.
  intros Hst. unfold trial_body, reset. prog_step.
  apply always_for_each; [|done]. intros i st'. apply step_body_keys.
Qed.

Lemma finish_keys (n_trials j : nat) (st : frame) :
  keeps st → always (λ st', keeps st') (finish n_trials j st).
Proof.
  intros Hst. unfold finish.
  apply always_then. intros a. unfold getitem.
  destruct (scores st !! name a) as [l|] eqn:Hl; [|done]. prog_step. cbn.
  rewrite dom_insert_lookup_L; [done|]. by rewrite Hl.
Qed.

End keys.

Lemma new_scores_keys `{Numpy} (l : list agent) (n_steps : nat) :
  dom (new_scores l n_steps) =@{gset string} list_to_set (name <$> l).
Proof.
  unfold new_scores.
  assert (Hgen : ∀ d : gmap string (list npfloat),
            dom (foldl (λ d a, <[name a := replicate n_steps (Fin 0)]> d) d l)
            =@{gset string} dom d ∪ list_to_set (name <$> l)).
  { induction l as [|a l IH]; intros d; cbn [foldl fmap list_fmap list_to_set].
    - by rewrite (right_id_L ∅ (∪)).
    - rewrite IH, dom_insert_L.
      by rewrite (comm_L (∪) {[name a]} (dom d)), (assoc_L (∪)). }
  by rewrite Hgen, dom_empty_L, (left_id_L ∅ (∪)).
Qed.

(** X16. The mapping [get_regret] returns has the names of the agents for
    its keys and no other: on every random source whose [randint] respects
    its bounds, with at least one arm, whatever the numbers of steps and of
    trials. *)
Theorem get_regret_keys `{Numpy} {G} (R : rng G) (g : G)
    (e : BernoulliBandit) (agents0 : list agent) (n_steps n_trials : nat) :
  rng_ok R → (1 ≤ action_count e)%nat →
  ∃ d g', run R (get_regret e agents0 n_steps n_trials) g = inr (d, g')
        ∧ dom d =@{gset string} list_to_set (name <$> agents0).
Proof.
  intros HR HK.
  assert (Hkeys : always (λ st, dom (scores st)
                                =@{gset string} list_to_set (name <$> agents0))
                    (get_regret_frame e agents0 n_steps n_trials)).
  { unfold get_regret_frame. cbv zeta.
    apply (always_bind (λ st, dom (scores st)
                              =@{gset string} list_to_set (name <$> agents0))).
    - apply always_for_each; [|apply new_scores_keys].
      intros trial st. apply trial_body_keys.
    - intros st Hst. apply always_for_each; [|done].
      intros j st'. apply finish_keys. }
  destruct (returns_run R _ _ g HR
              (returns_always _ _ _
                 (get_regret_frame_returns e agents0 n_steps HK n_trials)
                 Hkeys))
    as (st & g' & Hrun & _ & Hdom).
  exists (scores st), g'. split; [|done].
  unfold get_regret. by rewrite run_bind, Hrun.
Qed.

Lemma get_regret_keys_witness :
  ∃ d g',
    run demo_rng
      (get_regret (H := demo_numpy) {| _probs := [half; 1] |}
         [fresh RandomAgent; fresh RandomAgent; fresh UCBAgent] 2 1) 3%nat
    = inr (d, g')
    ∧ dom d =@{gset string}
      list_to_set (name (H := demo_numpy)
                     <$> [fresh RandomAgent; fresh RandomAgent;
                          fresh UCBAgent]).
Proof.
  apply (get_regret_keys (H := demo_numpy) demo_rng 3%nat
           {| _probs := [half; 1] |}
           [fresh RandomAgent; fresh RandomAgent; fresh UCBAgent] 2 1).
  - exact demo_rng_ok.
  - cbn. lia.
Defined.
